(** * The numeric core of the no-code ML pipeline (mlUtils)

    A shallow embedding of the pipeline's numeric library: the two scalers,
    the train/test splitter, logistic regression, the decision tree and the
    evaluation metrics, followed by the properties the specification states
    about them.

    Conventions of the embedding.
    - A JavaScript [number] that takes part in arithmetic is an IEEE 754
      binary64 value: Rocq's primitive [float], whose operations round
      exactly as the JavaScript operators do.
    - Class labels are integer-valued numbers and are represented by [Z].
    - An array is a [list]; a read past its end yields [undefined], which is
      [None] where the value is stored and [nan] where it is used as a number
      (the result of converting [undefined] to a number).
    - A call that can raise carries its exception in [Result]; the pseudo
      random generator behind [Math.random] is the only ambient state and is
      threaded explicitly through [JS] computations. *)

From Stdlib Require Import Ascii String.
From Stdlib Require Import ZArith List Bool Lia Arith PeanoNat.
From Stdlib Require Import Floats.
From Stdlib Require Uint63 DecimalString DecimalPos.
From Stdlib Require Import Permutation Sorted.
Import ListNotations.

#[local] Set Warnings "-inexact-float".
#[local] Open Scope float_scope.

(** ** JavaScript numbers *)

Abbreviation number := float (only parsing).

(** [a || b] on numbers: [0], [-0] and [NaN] are the falsy numbers. *)
Definition falsy (x : number) : bool := (x =? 0) || is_nan x.

Definition number_or (a b : number) : number := if falsy a then b else a.

(** The number of an array length or of a counter. *)
Definition of_nat (n : nat) : number := of_uint63 (Uint63.of_Z (Z.of_nat n)).

(** [Math.pow(v, 2)]: the rounded square (the exponent is the literal 2 at
    the only call site). *)
Definition Math_pow2 (v : number) : number := v * v.

(** [Math.min(...xs)] and [Math.max(...xs)]: [NaN] as soon as one argument
    is [NaN], [-0] below [+0]. *)
Definition min_step (lowest x : number) : number :=
  if is_nan lowest then lowest
  else if is_nan x then x
  else if x <? lowest then x
  else if (x =? 0) && (lowest =? 0) && get_sign x then x
  else lowest.

Definition max_step (highest x : number) : number :=
  if is_nan highest then highest
  else if is_nan x then x
  else if highest <? x then x
  else if (x =? 0) && (highest =? 0) && negb (get_sign x) then x
  else highest.

Definition Math_min (xs : list number) : number := fold_left min_step xs infinity.
Definition Math_max (xs : list number) : number := fold_left max_step xs neg_infinity.

(** ** Arrays *)

Definition matrix := list (list number).

(** [row[j]] read as a number. *)
Definition get (row : list number) (j : nat) : number := nth j row nan.

(** [xs.map((val, j) => f val j)] *)
Fixpoint mapi_from {A B} (f : A -> nat -> B) (j : nat) (xs : list A) : list B :=
  match xs with
  | [] => []
  | x :: xs' => f x j :: mapi_from f (S j) xs'
  end.

Definition mapi {A B} (f : A -> nat -> B) (xs : list A) : list B := mapi_from f 0 xs.

(** [data.map(row => row[j])] *)
Definition column (data : matrix) (j : nat) : list number :=
  map (fun row => get row j) data.

(** ** Exceptions *)

Inductive Error := TypeError | RangeError.

Inductive Result (A : Type) :=
| Ok (a : A)
| Throw (e : Error).
Arguments Ok {A} a.
Arguments Throw {A} e.

Definition bind {A B} (r : Result A) (k : A -> Result B) : Result B :=
  match r with
  | Ok a => k a
  | Throw e => Throw e
  end.

(** ** Scalers *)

Definition column_mean (col : list number) : number :=
  fold_left (fun a b => a + b) col 0 / of_nat (length col).

Definition column_variance (col : list number) (mean : number) : number :=
  fold_left (fun sum val => sum + Math_pow2 (val - mean)) col 0 / of_nat (length col).

Definition column_std (col : list number) : number :=
  number_or (PrimFloat.sqrt (column_variance col (column_mean col))) 1.

Definition standardScaler (data : matrix) : matrix :=
  match data with
  | [] => data
  | row0 :: _ =>
      let numFeatures := length row0 in
      let means := map (fun j => column_mean (column data j)) (seq 0 numFeatures) in
      let stds := map (fun j => column_std (column data j)) (seq 0 numFeatures) in
      map (fun row => mapi (fun val j => (val - get means j) / get stds j) row) data
  end.

(** A call [f(...xs)] passes one argument for each element of [xs].  An
    engine accepts only so many arguments in a call (the number depends on
    the engine and on the room left on its stack), [max_arguments] of them
    here, and raises a [RangeError] when there are more. *)
Section Spread.

Variable max_arguments : nat.

Definition spread_call (f : list number -> number) (xs : list number) : Result number :=
  if (length xs <=? max_arguments)%nat then Ok (f xs) else Throw RangeError.

(** One turn of the loop over the features:
    [mins.push(Math.min(...column)); maxs.push(Math.max(...column))]. *)
Definition push_range (data : matrix) (acc : Result (list number * list number)) (j : nat)
  : Result (list number * list number) :=
  bind acc (fun '(mins, maxs) =>
  let column := column data j in
  bind (spread_call Math_min column) (fun lowest =>
  bind (spread_call Math_max column) (fun highest =>
  Ok (mins ++ [lowest], maxs ++ [highest])))).

Definition minMaxScaler (data : matrix) : Result matrix :=
  match data with
  | [] => Ok data
  | row0 :: _ =>
      let numFeatures := length row0 in
      bind (fold_left (push_range data) (seq 0 numFeatures) (Ok ([], []))) (fun '(mins, maxs) =>
      Ok (map (fun row =>
                 mapi (fun val j =>
                         let range := get maxs j - get mins j in
                         if range =? 0 then 0 else (val - get mins j) / range) row) data))
  end.

End Spread.

(** ** Ambient state *)

(** The state of the engine's pseudo random generator: the draws still to
    come, each an integer that [Math.random] scales into [0, 1) as a multiple
    of 2^-53, and the number of draws made so far. *)
Record World := { tape : nat -> Z; cursor : nat }.

Definition JS (A : Type) := World -> A * World.

Definition ret {A} (a : A) : JS A := fun w => (a, w).

Definition seqJS {A B} (m : JS A) (k : A -> JS B) : JS B :=
  fun w => let (a, w') := m w in k a w'.

Notation "x <- m ;; k" := (seqJS m (fun x => k))
  (at level 61, m at next level, right associativity).

Definition Math_random : JS number :=
  fun w =>
    (of_uint63 (Uint63.of_Z (tape w (cursor w) mod 9007199254740992)) / 9007199254740992,
     {| tape := tape w; cursor := S (cursor w) |}).

(** ** Integer-valued numbers and [slice] *)

(** The number [Math.floor] returns holds an integer, an infinity or [NaN];
    it is represented by that integer ([-0] by [0]). *)
Inductive integral :=
| INaN
| INegInf
| IInt (z : Z)
| IPosInf.

Definition Math_floor (x : number) : integral :=
  match Prim2SF x with
  | S754_nan => INaN
  | S754_infinity true => INegInf
  | S754_infinity false => IPosInf
  | S754_zero _ => IInt 0
  | S754_finite s m e => IInt (Z.shiftl (if s then Z.neg m else Z.pos m) e)
  end.

(** The position a relative index of [slice] denotes in an array of [len]
    elements: [NaN] is 0, a negative index counts from the end, and the
    result is clamped to [0, len]. *)
Definition relative_index (len : nat) (i : integral) : nat :=
  match i with
  | INaN => 0
  | INegInf => 0
  | IPosInf => len
  | IInt z => if (z <? 0)%Z then Z.to_nat (Z.max (Z.of_nat len + z) 0)
              else Nat.min (Z.to_nat z) len
  end.

(** [xs.slice(start, end)]; [end] omitted is [None]. *)
Definition slice {A} (xs : list A) (start : integral) (end_ : option integral) : list A :=
  let len := length xs in
  let k := relative_index len start in
  let final := match end_ with None => len | Some e => relative_index len e end in
  firstn (final - k) (skipn k xs).

(** Arrays whose elements may be [undefined]. *)
Definition array_get {A} (xs : list (option A)) (key : option nat) : option A :=
  match key with
  | Some i => match nth_error xs i with Some v => v | None => None end
  | None => None
  end.

(** [xs[i] = v] on the elements: a write past the end extends the array. *)
Fixpoint array_put {A} (xs : list (option A)) (i : nat) (v : option A) : list (option A) :=
  match xs, i with
  | [], O => [v]
  | [], S i' => None :: array_put [] i' v
  | _ :: xs', O => v :: xs'
  | x :: xs', S i' => x :: array_put xs' i' v
  end.

(** A key that is not an array index names an ordinary property and leaves
    the elements alone. *)
Definition array_set {A} (xs : list (option A)) (key : option nat) (v : option A) :=
  match key with
  | Some i => array_put xs i v
  | None => xs
  end.

(** A number used as a property key of an array. *)
Definition index_key (i : integral) : option nat :=
  match i with
  | IInt z => if (0 <=? z)%Z && (z <? 4294967295)%Z then Some (Z.to_nat z) else None
  | _ => None
  end.

(** ** Train/test split *)

Record ProcessedData := {
  X_train : list (option (list number));
  X_test : list (option (list number));
  y_train : list (option Z);
  y_test : list (option Z)
}.

(** The Fisher-Yates loop [for (i = indices.length - 1; i > 0; i--)]. *)
Fixpoint shuffle_loop (i : nat) (indices : list (option nat)) : JS (list (option nat)) :=
  match i with
  | O => ret indices
  | S i' =>
      r <- Math_random ;;
      let j := index_key (Math_floor (r * of_nat (i + 1))) in
      let vi := array_get indices (Some i) in
      let vj := array_get indices j in
      shuffle_loop i' (array_set (array_set indices (Some i) vj) j vi)
  end.

Definition trainTestSplit (X : matrix) (y : list Z) (testSize : number) (shuffle : bool)
  : JS ProcessedData :=
  let indices := map Some (seq 0 (length X)) in
  indices <- (if shuffle then shuffle_loop (length indices - 1) indices else ret indices) ;;
  let splitIndex := Math_floor (of_nat (length X) * (1 - testSize)) in
  let trainIndices := slice indices (IInt 0) (Some splitIndex) in
  let testIndices := slice indices splitIndex None in
  ret {| X_train := map (fun i => array_get (map Some X) i) trainIndices;
         X_test := map (fun i => array_get (map Some X) i) testIndices;
         y_train := map (fun i => array_get (map Some y) i) trainIndices;
         y_test := map (fun i => array_get (map Some y) i) testIndices |}.

(** The row at which [trainTestSplit] cuts [n] rows for a test fraction [f]. *)
Definition split_point (n : nat) (f : number) : nat :=
  relative_index n (Math_floor (of_nat n * (1 - f))).

(** ** Logistic regression *)

(** The number that holds the integer label [z]. *)
Definition label_number (z : Z) : number :=
  SF2Prim (binary_normalize prec emax z 0%Z false).

(** [ys[i]] read as a number. *)
Definition get_label (ys : list Z) (i : nat) : number :=
  match nth_error ys i with
  | Some z => label_number z
  | None => nan
  end.

Record LogisticModel := { weights : list number; bias : number }.

Section Logistic.

(** [Math.exp] is the engine's; the development is parametric in it. *)
Variable Math_exp : number -> number.

Definition sigmoid (x : number) : number :=
  1 / (1 + Math_exp (- Math_max [-500; Math_min [500; x]])).

(** [x.reduce((sum, xi, i) => sum + xi * weights[i], 0)] *)
Fixpoint dot_from (i : nat) (x ws : list number) (sum : number) : number :=
  match x with
  | [] => sum
  | xi :: x' => dot_from (S i) x' ws (sum + xi * get ws i)
  end.

Definition dot (x ws : list number) : number := dot_from 0 x ws 0.

(** The gradient accumulation over the rows [i = 0 .. X_train.length - 1]. *)
Definition gradient_step (X_train : matrix) (y_train : list Z) (predictions : list number)
    (acc : list number * number) (i : nat) : list number * number :=
  let (dw, db) := acc in
  let error := get predictions i - get_label y_train i in
  (mapi (fun d j => d + error * get (nth i X_train []) j) dw, db + error).

Definition iteration (X_train : matrix) (y_train : list Z) (learningRate : number)
    (numFeatures : nat) (m : LogisticModel) : LogisticModel :=
  let predictions := map (fun x => sigmoid (dot x (weights m) + bias m)) X_train in
  let '(dw, db) :=
    fold_left (gradient_step X_train y_train predictions)
              (seq 0 (length X_train)) (repeat 0 numFeatures, 0) in
  {| weights := mapi (fun w j => w - learningRate * get dw j / of_nat (length X_train))
                     (weights m);
     bias := bias m - learningRate * db / of_nat (length X_train) |}.

Definition logisticRegression (X_train : matrix) (y_train : list Z)
    (learningRate : number) (iterations : Z) : LogisticModel :=
  let numFeatures := match X_train with [] => O | row0 :: _ => length row0 end in
  Nat.iter (Z.to_nat iterations)
           (iteration X_train y_train learningRate numFeatures)
           {| weights := repeat 0 numFeatures; bias := 0 |}.

Definition predictLogistic (X : matrix) (ws : list number) (b : number) : list Z :=
  map (fun x => let prob := sigmoid (dot x ws + b) in
                if 0.5 <=? prob then 1%Z else 0%Z) X.

End Logistic.

(** ** Labels as property keys: [String(v)] and [parseInt] *)

#[local] Open Scope string_scope.

(** A value read from a label array or stored as a prediction. *)
Inductive value :=
| VInt (z : Z)
| VNaN
| VUndef.

Definition value_eqb (a b : value) : bool :=
  match a, b with
  | VInt x, VInt y => (x =? y)%Z
  | VNaN, VNaN => true
  | VUndef, VUndef => true
  | _, _ => false
  end.

Definition decimal (z : Z) : string :=
  match z with
  | Z0 => "0"
  | Zpos p => DecimalString.NilEmpty.string_of_uint (Pos.to_uint p)
  | Zneg p => String "-" (DecimalString.NilEmpty.string_of_uint (Pos.to_uint p))
  end.

(** The digits with the trailing zeros removed. *)
Fixpoint strip_zeros (s : string) : string :=
  match s with
  | EmptyString => EmptyString
  | String c s' =>
      match strip_zeros s' with
      | EmptyString => if Ascii.eqb c "0" then EmptyString else String c EmptyString
      | t => String c t
      end
  end.

(** Scientific notation of a positive integer: [d.ddde+n]. *)
Definition exponential (p : positive) : string :=
  let digits := DecimalString.NilEmpty.string_of_uint (Pos.to_uint p) in
  let e := decimal (Z.of_nat (String.length digits) - 1) in
  match strip_zeros digits with
  | EmptyString => "0"
  | String d EmptyString => String d ("e+" ++ e)
  | String d rest => String d ("." ++ rest ++ "e+" ++ e)
  end.

(** [String(z)] for an integer-valued number: plain decimal digits below
    10^21, scientific notation from there on.  (From 10^21 on the digits are
    those of the exact value, which is the string JavaScript prints when no
    shorter digit string denotes the same double, as for the powers of ten up
    to 10^22.) *)
Definition Number_toString (z : Z) : string :=
  if (Z.abs z <? 10 ^ 21)%Z then decimal z
  else match z with
       | Zneg p => String "-" (exponential p)
       | Zpos p => exponential p
       | Z0 => "0"
       end.

(** The property key a value turns into when it indexes an object. *)
Definition toKey (v : value) : string :=
  match v with
  | VInt z => Number_toString z
  | VNaN => "NaN"
  | VUndef => "undefined"
  end.

Definition digit_value (radix : Z) (c : ascii) : option Z :=
  let n := Z.of_nat (nat_of_ascii c) in
  let d := if (48 <=? n)%Z && (n <=? 57)%Z then Some (n - 48)%Z
           else if (97 <=? n)%Z && (n <=? 122)%Z then Some (n - 87)%Z
           else if (65 <=? n)%Z && (n <=? 90)%Z then Some (n - 55)%Z
           else None in
  match d with
  | Some v => if (v <? radix)%Z then Some v else None
  | None => None
  end.

(** The value of the longest prefix of digits. *)
Fixpoint parse_digits (radix : Z) (s : string) (acc : Z) : Z :=
  match s with
  | EmptyString => acc
  | String c s' =>
      match digit_value radix c with
      | Some d => parse_digits radix s' (radix * acc + d)
      | None => acc
      end
  end.

Definition is_whitespace (c : ascii) : bool :=
  let n := nat_of_ascii c in
  (n =? 32)%nat || ((9 <=? n)%nat && (n <=? 13)%nat).

Fixpoint trim_start (s : string) : string :=
  match s with
  | String c s' => if is_whitespace c then trim_start s' else s
  | EmptyString => s
  end.

Definition parse_radix (negative : bool) (radix : Z) (s : string) : value :=
  match s with
  | String c _ =>
      match digit_value radix c with
      | Some _ => VInt (if negative then - parse_digits radix s 0 else parse_digits radix s 0)
      | None => VNaN
      end
  | EmptyString => VNaN
  end.

(** [parseInt(s)]: leading white space, a sign, a [0x] prefix, then the
    longest run of digits; [NaN] when there is none. *)
Definition parseInt (s : string) : value :=
  let s := trim_start s in
  let '(negative, s) :=
    match s with
    | String "-" s' => (true, s')
    | String "+" s' => (false, s')
    | _ => (false, s)
    end in
  match s with
  | String "0" (String "x" s') => parse_radix negative 16 s'
  | String "0" (String "X" s') => parse_radix negative 16 s'
  | _ => parse_radix negative 10 s
  end.

(** The array index a key denotes, if it is one: the canonical decimal string
    of an integer in [0, 2^32 - 2]. *)
Definition array_index (key : string) : option Z :=
  let n := parse_digits 10 key 0 in
  if String.eqb (decimal n) key && (n <? 4294967295)%Z then Some n else None.

#[local] Close Scope string_scope.

(** ** Sets, sorting and counting objects *)

(** [[...new Set(xs)]]: the distinct elements in order of first occurrence. *)
Definition dedupe {A} (eqb : A -> A -> bool) (xs : list A) : list A :=
  fold_left (fun seen x => if existsb (eqb x) seen then seen else seen ++ [x]) xs [].

(** [xs.sort(cmp)] for a comparator whose result is negative exactly when
    [lt a b]: a stable insertion sort.  (With a [NaN] among the elements the
    order JavaScript produces is left to the engine.) *)
Fixpoint insert_sorted {A} (lt : A -> A -> bool) (x : A) (l : list A) : list A :=
  match l with
  | [] => [x]
  | y :: l' => if lt x y then x :: l else y :: insert_sorted lt x l'
  end.

Definition sort_by {A} (lt : A -> A -> bool) (xs : list A) : list A :=
  fold_left (fun acc x => insert_sorted lt x acc) xs [].

(** An object used as a table of counters: its own properties in creation
    order. *)
Definition object := list (string * nat).

Fixpoint lookup (key : string) (o : object) : option nat :=
  match o with
  | [] => None
  | (k, c) :: o' => if String.eqb k key then Some c else lookup key o'
  end.

Fixpoint store (key : string) (c : nat) (o : object) : object :=
  match o with
  | [] => [(key, c)]
  | (k, c') :: o' => if String.eqb k key then (k, c) :: o' else (k, c') :: store key c o'
  end.

(** [y.forEach(val => counts[val] = (counts[val] || 0) + 1)] *)
Definition count_step (counts : object) (val : value) : object :=
  let key := toKey val in
  store key (match lookup key counts with Some c => c | None => O end + 1) counts.

Definition count_labels (y : list value) : object := fold_left count_step y [].

Definition is_index (e : string * nat) : bool :=
  match array_index (fst e) with Some _ => true | None => false end.

Definition index_lt (a b : string * nat) : bool :=
  match array_index (fst a), array_index (fst b) with
  | Some i, Some j => (i <? j)%Z
  | _, _ => false
  end.

(** [Object.entries(o)]: the array-index keys in ascending numeric order,
    then the other keys in creation order. *)
Definition Object_entries (o : object) : list (string * nat) :=
  sort_by index_lt (filter is_index o) ++ filter (fun e => negb (is_index e)) o.

(** [Object.entries(counts).reduce((a, b) => a[1] > b[1] ? a : b)[0]],
    passed to [parseInt]; [reduce] raises on an empty array. *)
Definition majority (y : list value) : Result value :=
  match Object_entries (count_labels y) with
  | [] => Throw TypeError
  | e :: es =>
      Ok (parseInt (fst (fold_left (fun a b => if (snd b <? snd a)%nat then a else b) es e)))
  end.

(** ** Decision tree *)

Inductive TreeNode :=
| Leaf (prediction : value)
| Node (feature : nat) (threshold : number) (left right : TreeNode).

Definition giniImpurity (y : list value) : number :=
  match y with
  | [] => 0
  | _ =>
      fold_left (fun impurity e =>
                   let prob := of_nat (snd e) / of_nat (length y) in
                   impurity - prob * prob)
                (Object_entries (count_labels y)) 1
  end.

(** The indices [X.forEach] sends left ([row[feature] <= threshold]) and
    right. *)
Fixpoint split_from (idx : nat) (X : matrix) (feature : nat) (threshold : number)
  : list nat * list nat :=
  match X with
  | [] => ([], [])
  | row :: X' =>
      let (l, r) := split_from (S idx) X' feature threshold in
      if get row feature <=? threshold then (idx :: l, r) else (l, idx :: r)
  end.

Definition split_indices (X : matrix) (feature : nat) (threshold : number) :=
  split_from 0 X feature threshold.

(** [indices.map(i => X[i])]; the indices come from [X] itself. *)
Definition select_rows (X : matrix) (indices : list nat) : matrix :=
  map (fun i => nth i X []) indices.

(** [indices.map(i => y[i])] *)
Definition select_labels (y : list value) (indices : list nat) : list value :=
  map (fun i => match nth_error y i with Some v => v | None => VUndef end) indices.

(** [row[j]] as a value: [None] is [undefined]. *)
Definition read (row : list number) (j : nat) : option number := nth_error row j.

Definition to_number (v : option number) : number :=
  match v with Some x => x | None => nan end.

(** The elements of a [Set] are compared by SameValueZero, and [-0] is stored
    as [+0]. *)
Definition same_value_zero (a b : option number) : bool :=
  match a, b with
  | Some x, Some y => (x =? y)%float || (is_nan x && is_nan y)
  | None, None => true
  | _, _ => false
  end.

Definition set_element (a : option number) : option number :=
  match a with
  | Some x => Some (if (x =? 0)%float then 0%float else x)
  | None => None
  end.

(** [values.sort((a, b) => a - b)]: the numbers in ascending order, then the
    [undefined] elements, which [sort] moves to the end without comparing
    them. *)
Definition sort_numbers (values : list (option number)) : list (option number) :=
  map Some (sort_by (fun a b => (a - b <? 0)%float)
                    (flat_map (fun v => match v with Some x => [x] | None => [] end) values))
  ++ filter (fun v => match v with Some _ => false | None => true end) values.

(** The midpoints [(values[i] + values[i + 1]) / 2]. *)
Fixpoint midpoints (values : list (option number)) : list number :=
  match values with
  | a :: ((b :: _) as rest) => ((to_number a + to_number b) / 2)%float :: midpoints rest
  | _ => []
  end.

Definition candidate_thresholds (X : matrix) (feature : nat) : list number :=
  midpoints (sort_numbers
               (dedupe same_value_zero
                       (map (fun row => set_element (read row feature)) X))).

Record Best := { bestGain : number; bestFeature : nat; bestThreshold : number }.

(** The body of the inner loop for one candidate threshold. *)
Definition try_split (X : matrix) (y : list value) (currentImpurity : number)
    (feature : nat) (best : Best) (threshold : number) : Best :=
  let (leftIndices, rightIndices) := split_indices X feature threshold in
  match leftIndices, rightIndices with
  | [], _ => best
  | _, [] => best
  | _, _ =>
      let leftY := select_labels y leftIndices in
      let rightY := select_labels y rightIndices in
      let gain := (currentImpurity
                   - (of_nat (length leftY) / of_nat (length y)) * giniImpurity leftY
                   - (of_nat (length rightY) / of_nat (length y)) * giniImpurity rightY)%float in
      if (bestGain best <? gain)%float
      then {| bestGain := gain; bestFeature := feature; bestThreshold := threshold |}
      else best
  end.

Definition find_best_split (X : matrix) (y : list value) : Best :=
  let currentImpurity := giniImpurity y in
  let numFeatures := match X with [] => O | row0 :: _ => length row0 end in
  fold_left (fun best feature =>
               fold_left (try_split X y currentImpurity feature)
                         (candidate_thresholds X feature) best)
            (seq 0 numFeatures)
            {| bestGain := 0; bestFeature := 0; bestThreshold := 0 |}.

Definition majority_leaf (y : list value) : Result TreeNode :=
  bind (majority y) (fun prediction => Ok (Leaf prediction)).

(** [buildTree]; the recursion is bounded by [fuel], and [None] means that
    the bound was reached. *)
Fixpoint buildTree (fuel : nat) (maxDepth minSamplesSplit : Z)
    (X : matrix) (y : list value) (depth : Z) : option (Result TreeNode) :=
  match fuel with
  | O => None
  | S fuel' =>
      match dedupe value_eqb y with
      | [label] => Some (Ok (Leaf label))
      | _ =>
          if (maxDepth <=? depth)%Z || (Z.of_nat (length X) <? minSamplesSplit)%Z
          then Some (majority_leaf y)
          else
            let best := find_best_split X y in
            if (bestGain best =? 0)%float then Some (majority_leaf y)
            else
              let (leftIndices, rightIndices) :=
                split_indices X (bestFeature best) (bestThreshold best) in
              match buildTree fuel' maxDepth minSamplesSplit
                              (select_rows X leftIndices) (select_labels y leftIndices)
                              (depth + 1) with
              | None => None
              | Some (Throw e) => Some (Throw e)
              | Some (Ok l) =>
                  match buildTree fuel' maxDepth minSamplesSplit
                                  (select_rows X rightIndices) (select_labels y rightIndices)
                                  (depth + 1) with
                  | None => None
                  | Some (Throw e) => Some (Throw e)
                  | Some (Ok r) =>
                      Some (Ok (Node (bestFeature best) (bestThreshold best) l r))
                  end
              end
      end
  end.

(** Every split leaves fewer rows on each side, so one unit of fuel per row
    and one more is a bound that is never reached. *)
Definition decisionTreeClassifier (X_train : matrix) (y_train : list Z)
    (maxDepth minSamplesSplit : Z) : option (Result TreeNode) :=
  buildTree (S (length X_train)) maxDepth minSamplesSplit X_train (map VInt y_train) 0.

(** [predictSingle]: a leaf whose prediction is [undefined] is taken for an
    inner node, and following its missing child raises. *)
Fixpoint predictSingle (x : list number) (node : TreeNode) : Result value :=
  match node with
  | Leaf VUndef => Throw TypeError
  | Leaf prediction => Ok prediction
  | Node feature threshold l r =>
      if (get x feature <=? threshold)%float then predictSingle x l
      else predictSingle x r
  end.

Fixpoint predictDecisionTree (X : matrix) (tree : TreeNode) : Result (list value) :=
  match X with
  | [] => Ok []
  | x :: X' =>
      bind (predictSingle x tree) (fun p =>
      bind (predictDecisionTree X' tree) (fun ps => Ok (p :: ps)))
  end.

(** ** Evaluation metrics *)

(** [yTrue.filter((val, i) => val === yPred[i])], with the index made
    explicit. *)
Fixpoint matching_from (i : nat) (yTrue yPred : list Z) : list Z :=
  match yTrue with
  | [] => []
  | val :: yTrue' =>
      let rest := matching_from (S i) yTrue' yPred in
      match nth_error yPred i with
      | Some p => if (val =? p)%Z then val :: rest else rest
      | None => rest
      end
  end.

Definition calculateAccuracy (yTrue yPred : list Z) : number :=
  match yTrue with
  | [] => 0
  | _ => of_nat (length (matching_from 0 yTrue yPred)) / of_nat (length yTrue)
  end.

(** [labels.indexOf(v)] *)
Fixpoint indexOf (labels : list Z) (v : Z) : option nat :=
  match labels with
  | [] => None
  | l :: labels' =>
      if (l =? v)%Z then Some O
      else match indexOf labels' v with Some i => Some (S i) | None => None end
  end.

(** [xs[i]++] on the elements of a row of counters. *)
Fixpoint increment (xs : list nat) (i : nat) : list nat :=
  match xs, i with
  | [], _ => []
  | x :: xs', O => S x :: xs'
  | x :: xs', S i' => x :: increment xs' i'
  end.

Fixpoint increment_cell (m : list (list nat)) (i j : nat) : list (list nat) :=
  match m, i with
  | [], _ => []
  | row :: m', O => increment row j :: m'
  | row :: m', S i' => row :: increment_cell m' i' j
  end.

(** One step of [yTrue.forEach((actual, i) => ...)].  The actual label is
    always among [labels]; a prediction that is missing has index [-1], and
    incrementing the property of that name leaves the counters alone. *)
Definition tally (labels : list Z) (yPred : list Z)
    (acc : list (list nat) * nat) (actual : Z) : list (list nat) * nat :=
  let (m, i) := acc in
  let predictedIdx := match nth_error yPred i with
                      | Some predicted => indexOf labels predicted
                      | None => None
                      end in
  match indexOf labels actual, predictedIdx with
  | Some actualIdx, Some p => (increment_cell m actualIdx p, S i)
  | _, _ => (m, S i)
  end.

(** The comparator [(a, b) => a - b] on labels. *)
Definition Z_lt_cmp (a b : Z) : bool := (a - b <? 0)%Z.

Definition observed_labels (yTrue yPred : list Z) : list Z :=
  sort_by Z_lt_cmp (dedupe Z.eqb (yTrue ++ yPred)).

Definition confusionMatrix (yTrue yPred : list Z) : list (list nat) :=
  let labels := observed_labels yTrue yPred in
  let m := map (fun _ => map (fun _ => O) labels) labels in
  fst (fold_left (tally labels yPred) yTrue (m, O)).

(** * Prediction over shared objects *)

(** The arguments of the two predictors are objects: arrays and tree nodes
    that the caller shares with the rest of the program, and that any code
    holding them may write to.  To say what a prediction reads and what it
    leaves alone, the predictors are run here on a store that holds these
    objects by address, next to the pseudo random generator.  The arrays a
    prediction returns are new and are not placed in the store. *)

Definition address := nat.

(** A [TreeNode] object: each of its five properties may be absent. *)
Record TreeObject := {
  prediction_of : value;
  feature_of : option nat;
  threshold_of : option number;
  left_of : option address;
  right_of : option address
}.

(** The objects by type ([number[]], [number[][]], [TreeNode]) and the
    generator. *)
Record Store := {
  number_arrays : address -> option (list number);
  row_arrays : address -> option (list address);
  tree_objects : address -> option TreeObject;
  generator : World
}.

(** A computation on the store: it returns, raises, or runs out of the fuel
    that bounds its recursion ([None]). *)
Definition Op (A : Type) := Store -> option (Result A) * Store.

Definition done {A} (a : A) : Op A := fun s => (Some (Ok a), s).

Definition and_then {A B} (m : Op A) (k : A -> Op B) : Op B :=
  fun s =>
    match m s with
    | (Some (Ok a), s') => k a s'
    | (Some (Throw e), s') => (Some (Throw e), s')
    | (None, s') => (None, s')
    end.

(** The object behind a reference; reading a property of [undefined] raises. *)
Definition object_at {A} (objects : Store -> address -> option A) (a : option address)
  : Op A :=
  fun s =>
    match a with
    | Some a' =>
        match objects s a' with
        | Some o => (Some (Ok o), s)
        | None => (Some (Throw TypeError), s)
        end
    | None => (Some (Throw TypeError), s)
    end.

(** [X.map(callback)]: the length is read once; then every index is visited
    in turn, and the callback is called on the element found there. *)
Fixpoint map_turns {B} (k turns : nat) (X : address) (callback : address -> Op B)
  : Op (list B) :=
  match turns with
  | O => done []
  | S turns' =>
      and_then (object_at row_arrays (Some X)) (fun rows =>
      match nth_error rows k with
      | Some x =>
          and_then (callback x) (fun b =>
          and_then (map_turns (S k) turns' X callback) (fun bs => done (b :: bs)))
      | None => map_turns (S k) turns' X callback
      end)
  end.

Definition Array_map {B} (X : address) (callback : address -> Op B) : Op (list B) :=
  and_then (object_at row_arrays (Some X)) (fun rows => map_turns 0 (length rows) X callback).

(** [x.reduce((sum, xi, i) => sum + xi * weights[i], 0)] *)
Fixpoint reduce_turns (i turns : nat) (x weights : address) (sum : number) : Op number :=
  match turns with
  | O => done sum
  | S turns' =>
      and_then (object_at number_arrays (Some x)) (fun xs =>
      match nth_error xs i with
      | Some xi =>
          and_then (object_at number_arrays (Some weights)) (fun ws =>
          reduce_turns (S i) turns' x weights (sum + xi * get ws i))
      | None => reduce_turns (S i) turns' x weights sum
      end)
  end.

Definition Array_reduce (x weights : address) : Op number :=
  and_then (object_at number_arrays (Some x)) (fun xs =>
  reduce_turns 0 (length xs) x weights 0).

Definition predictLogistic_stored (Math_exp : number -> number)
    (X weights : address) (bias : number) : Op (list Z) :=
  Array_map X (fun x =>
    and_then (Array_reduce x weights) (fun sum =>
    let prob := sigmoid Math_exp (sum + bias) in
    done (if 0.5 <=? prob then 1%Z else 0%Z))).

(** [predictSingle(x, node)] on a node of the store. *)
Fixpoint predictSingle_stored (fuel : nat) (x : address) (node : option address)
  : Op value :=
  match fuel with
  | O => fun s => (None, s)
  | S fuel' =>
      and_then (object_at tree_objects node) (fun n =>
      match prediction_of n with
      | VUndef =>
          and_then (object_at number_arrays (Some x)) (fun xs =>
          let cell := match feature_of n with
                      | Some feature => nth_error xs feature
                      | None => None
                      end in
          if to_number cell <=? to_number (threshold_of n)
          then predictSingle_stored fuel' x (left_of n)
          else predictSingle_stored fuel' x (right_of n))
      | prediction => done prediction
      end)
  end.

Definition predictDecisionTree_stored (fuel : nat) (X : address) (tree : address)
  : Op (list value) :=
  Array_map X (fun x => predictSingle_stored fuel x (Some tree)).

(** The matrix that the store holds at [X]. *)
Definition matrix_at (s : Store) (X : address) : option matrix :=
  match row_arrays s X with
  | Some rows =>
      fold_right (fun x rest =>
                    match number_arrays s x, rest with
                    | Some xs, Some m => Some (xs :: m)
                    | _, _ => None
                    end)
                 (Some []) rows
  | None => None
  end.

(** The tree that the store holds at an address: a node with a prediction is
    a leaf, a node without one has a feature, a threshold and two children. *)
Inductive tree_at (s : Store) : address -> TreeNode -> Prop :=
| leaf_at (a : address) (n : TreeObject) :
    tree_objects s a = Some n -> prediction_of n <> VUndef ->
    tree_at s a (Leaf (prediction_of n))
| node_at (a : address) (n : TreeObject) (f : nat) (t : number) (l r : address)
          (tl tr : TreeNode) :
    tree_objects s a = Some n -> prediction_of n = VUndef ->
    feature_of n = Some f -> threshold_of n = Some t ->
    left_of n = Some l -> right_of n = Some r ->
    tree_at s l tl -> tree_at s r tr ->
    tree_at s a (Node f t tl tr).

Fixpoint tree_height (t : TreeNode) : nat :=
  match t with
  | Leaf _ => 0
  | Node _ _ l r => S (Nat.max (tree_height l) (tree_height r))
  end.

(** The outcome of a prediction: what is returned, and the output vector in
    particular, without the store. *)
Definition output {A} (run : option (Result A) * Store) : option (Result A) := fst run.

(** * Vocabulary of the specification *)

(** The index-aligned pairs (true label, predicted label). *)
Definition aligned_pairs (yTrue yPred : list Z) : list (Z * Z) := combine yTrue yPred.

(** How many pairs have true label [a] and predicted label [p]. *)
Definition pair_count (a p : Z) (pairs : list (Z * Z)) : nat :=
  length (filter (fun tp => (fst tp =? a)%Z && (snd tp =? p)%Z) pairs).

(** How many positions hold equal labels. *)
Definition agreements (pairs : list (Z * Z)) : nat :=
  length (filter (fun tp => (fst tp =? snd tp)%Z) pairs).

(** Whether every character is a decimal digit. *)
Fixpoint all_digits (s : string) : bool :=
  match s with
  | EmptyString => true
  | String c s' =>
      match digit_value 10 c with Some _ => all_digits s' | None => false end
  end.

(** The value a run of decimal digits denotes on top of an accumulator. *)
Fixpoint uint_value (u : Decimal.uint) (acc : Z) : Z :=
  match u with
  | Decimal.Nil => acc
  | Decimal.D0 u => uint_value u (10 * acc + 0)
  | Decimal.D1 u => uint_value u (10 * acc + 1)
  | Decimal.D2 u => uint_value u (10 * acc + 2)
  | Decimal.D3 u => uint_value u (10 * acc + 3)
  | Decimal.D4 u => uint_value u (10 * acc + 4)
  | Decimal.D5 u => uint_value u (10 * acc + 5)
  | Decimal.D6 u => uint_value u (10 * acc + 6)
  | Decimal.D7 u => uint_value u (10 * acc + 7)
  | Decimal.D8 u => uint_value u (10 * acc + 8)
  | Decimal.D9 u => uint_value u (10 * acc + 9)
  end%Z.

(** The integer labels that JavaScript prints in plain decimal notation. *)
Definition plain_label (z : Z) : Prop := (Z.abs z < 10 ^ 21)%Z.

(** The labels whose key is an array index. *)
Definition index_label (z : Z) : bool := (0 <=? z)%Z && (z <? 4294967295)%Z.

(** The order in which the labels of [y] are enumerated as keys of the table
    of counts: the array indices in ascending order, then the other labels in
    order of first occurrence. *)
Definition label_enumeration (y : list Z) : list Z :=
  sort_by Z_lt_cmp (filter index_label (dedupe Z.eqb y))
  ++ filter (fun z => negb (index_label z)) (dedupe Z.eqb y).

Definition occurrences (z : Z) (y : list Z) : nat := count_occ Z.eq_dec y z.

(** The majority label as the specification words it: among the labels
    enumerated, the first one that no other label outnumbers. *)
Definition first_majority (y : list Z) : option Z :=
  match label_enumeration y with
  | [] => None
  | z :: zs =>
      Some (fold_left (fun best q => if (occurrences best y <? occurrences q y)%nat
                                     then q else best) zs z)
  end.


(** A split that sends at least one row to each side. *)
Definition proper_split (X : matrix) (feature : nat) (threshold : number) : Prop :=
  fst (split_indices X feature threshold) <> []
  /\ snd (split_indices X feature threshold) <> [].


(** A call whose result depends on its arguments alone: it returns the same
    result in every state of the generator, and leaves that state as it is. *)
Definition deterministic {A} (call : JS A) : Prop :=
  forall w1 w2 : World, fst (call w1) = fst (call w2) /\ snd (call w1) = w1.

(** The cell of a min-max normalized matrix at column [j], for the input cell
    [v]. *)
Definition normalized (X : matrix) (j : nat) (v : number) : number :=
  let lo := Math_min (column X j) in
  let hi := Math_max (column X j) in
  if (hi - lo =? 0)%float then 0%float else ((v - lo) / (hi - lo))%float.

(** Membership in the unit interval; it fails for [NaN]. *)
Definition in_unit_interval (x : number) : bool := ((0 <=? x) && (x <=? 1))%float.

Definition rectangular (X : matrix) : Prop :=
  forall row, In row X -> length row = length (hd [] X).

(** ** Binary64 values and rounding *)

#[local] Open Scope Z_scope.

(** [bits n] is the number of binary digits of a positive [n]. *)
Definition bits (n : Z) : Z := Z.log2 n + 1.

(** Numbers are counted in units of [2 ^ - K], the least positive binary64
    number. *)
Definition K : Z := 1074.

(** The value of a finite number in units of 2^-1074. *)
Definition scaled (x : spec_float) : Z :=
  match x with
  | S754_finite s m e => (if s then Z.neg m else Z.pos m) * 2 ^ (e + K)
  | _ => 0
  end.

(** Zeros and finite numbers, as opposed to infinities and NaN. *)
Definition finite (x : spec_float) : bool :=
  match x with
  | S754_finite _ _ _ | S754_zero _ => true
  | _ => false
  end.

(** [shr_rel half from to]: [to] is [from] shifted right by the number of
    bits of [2 * half]; [h] is the last bit shifted out and [low] the bits
    below it. *)
Definition shr_rel (half : Z) (from to : shr_record) : Prop :=
  exists h low : Z,
    shr_m from = shr_m to * (2 * half) + h * half + low
    /\ 0 <= low < half /\ (h = 0 \/ h = 1)
    /\ shr_r to = (h =? 1)
    /\ shr_s to = (shr_s from || shr_r from || negb (low =? 0))%bool
    /\ 0 <= shr_m to.

(** The mantissa [m] of a truncation with remainder [rem] out of [unit],
    rounded to nearest, ties to even. *)
Definition round_even (m rem unit : Z) : Z :=
  if ((unit <? 2 * rem) || ((unit =? 2 * rem) && Z.odd m))%bool then m + 1 else m.

(** The scaled magnitude [N] rounded to 53 significant bits. *)
Definition rnd (N : Z) : Z :=
  if bits N <=? 53 then N
  else round_even (N / 2 ^ (bits N - 53)) (N mod 2 ^ (bits N - 53)) (2 ^ (bits N - 53))
       * 2 ^ (bits N - 53).

(** The end of [binary_round_aux]: the overflow test. *)
Definition finish (s : bool) (m e : Z) : spec_float :=
  match m with
  | Z0 => S754_zero s
  | Zpos p => if e <=? 971 then S754_finite s p e else S754_infinity s
  | Zneg _ => S754_nan
  end.

(** The scaled magnitudes of the format, the exponent being unbounded. *)
Definition fmt (f : Z) : Prop := exists m j : Z, 0 <= m < 2 ^ 53 /\ 0 <= j /\ f = m * 2 ^ j.

(** The value of a finite number [x] in units of [2 ^ - K]. *)
Definition units (x : float) : Z := scaled (Prim2SF x).

(** The boundary as the specification words it: the floor of the exact
    product [n * (1 - f)], for a finite [f]. *)
Definition exact_boundary (n : nat) (f : float) : Z :=
  (Z.of_nat n * (2 ^ K - units f)) / 2 ^ K.

#[local] Close Scope Z_scope.

#[local] Close Scope float_scope.

(** ** Vocabulary of the further properties *)

(** The diagonal sum of a matrix of counters, from row [i] on. *)
Fixpoint trace_from (i : nat) (m : list (list nat)) : nat :=
  match m with
  | [] => 0
  | row :: m' => nth i row 0 + trace_from (S i) m'
  end.

Definition trace (m : list (list nat)) : nat := trace_from 0 m.

(** The lengths a JavaScript array can have. *)
Definition array_length (n : nat) : Prop := (Z.of_nat n < 2 ^ 32)%Z.

(** The number of tests on the longest path of a tree, and the number of its
    leaves. *)
Fixpoint tree_depth (t : TreeNode) : Z :=
  match t with
  | Leaf _ => 0%Z
  | Node _ _ l r => (1 + Z.max (tree_depth l) (tree_depth r))%Z
  end.

Fixpoint tree_leaves (t : TreeNode) : nat :=
  match t with
  | Leaf _ => 1
  | Node _ _ l r => tree_leaves l + tree_leaves r
  end.

(** Matrices in which no feature tells two rows apart: every row reads as the
    first one does, in every column of the first row. *)
Definition constant_columns (X : matrix) : Prop :=
  forall (row : list number) (j : nat),
    In row X -> j < length (hd [] X) -> read row j = read (hd [] X) j.

(** * The pipeline builder's state *)

(** The state of [PipelineBuilder] and every update the component and its
    split panel make to it.  An update is the function handed to [setState]:
    it maps the previous state to the next one.  The split panel computes
    its updates from the properties of the render it belongs to, which are
    the fields of the current state. *)
Module Builder.

#[local] Open Scope string_scope.

Inductive PipelineStage := Upload | Preprocess | Split | Model | Results.

Inductive PreprocessingMethod := NoScaling | Standard | MinMax.

Inductive ModelType := Logistic | DecisionTree.

Inductive ColumnType := Numeric | Categorical | Unknown.

Section State.

(** The type of a cell of a parsed file, [unknown] in the source. *)
Variable unknown : Type.

Record DatasetColumn := {
  name : string;
  type : ColumnType;
  sampleValues : list (string + number)
}.

Record Dataset := {
  rawData : list (list (string * unknown));
  numericData : matrix;
  columns : list DatasetColumn;
  rows : nat;
  fileName : string
}.

Record PipelineConfig := {
  preprocessing : PreprocessingMethod;
  splitRatio : number;
  targetColumn : option string;
  featureColumns : list string;
  modelType : ModelType
}.

Record TrainingResults := {
  accuracy : number;
  trainAccuracy : number;
  predictions : list Z;
  confusionMatrix : list (list Z);
  trainingTime : number;
  trainSize : nat;
  testSize : nat
}.

Record PipelineState := {
  currentStage : PipelineStage;
  dataset : option Dataset;
  config : PipelineConfig;
  results : option TrainingResults;
  isProcessing : bool;
  error : option string;
  completedStages : list PipelineStage
}.

Definition initialState : PipelineState :=
  {| currentStage := Upload;
     dataset := None;
     config := {| preprocessing := Standard;
                  splitRatio := 0.2;
                  targetColumn := None;
                  featureColumns := [];
                  modelType := Logistic |};
     results := None;
     isProcessing := false;
     error := None;
     completedStages := [] |}.

Definition same_stage (a b : PipelineStage) : bool :=
  match a, b with
  | Upload, Upload | Preprocess, Preprocess | Split, Split
  | Model, Model | Results, Results => true
  | _, _ => false
  end.

(** [{ ...prev, config: c }] *)
Definition with_config (c : PipelineConfig) (prev : PipelineState) : PipelineState :=
  {| currentStage := currentStage prev;
     dataset := dataset prev;
     config := c;
     results := results prev;
     isProcessing := isProcessing prev;
     error := error prev;
     completedStages := completedStages prev |}.

Definition setStage (stage : PipelineStage) (prev : PipelineState) : PipelineState :=
  {| currentStage := stage;
     dataset := dataset prev;
     config := config prev;
     results := results prev;
     isProcessing := isProcessing prev;
     error := error prev;
     completedStages := completedStages prev |}.

Definition markStageComplete (stage : PipelineStage) (prev : PipelineState) : PipelineState :=
  {| currentStage := currentStage prev;
     dataset := dataset prev;
     config := config prev;
     results := results prev;
     isProcessing := isProcessing prev;
     error := error prev;
     completedStages :=
       if existsb (same_stage stage) (completedStages prev)
       then completedStages prev
       else completedStages prev ++ [stage] |}.

(** [columns.filter(c => c.type === 'numeric')] *)
Definition numeric_columns (d : Dataset) : list DatasetColumn :=
  filter (fun c => match type c with Numeric => true | _ => false end) (columns d).

(** [numericCols[numericCols.length - 1]?.name || null]: no last column and
    an empty name both give [null]. *)
Definition last_name (numericCols : list DatasetColumn) : option string :=
  match nth_error numericCols (length numericCols - 1) with
  | Some c => if String.eqb (name c) "" then None else Some (name c)
  | None => None
  end.

Definition handleDatasetLoaded (loaded : option Dataset) (prev : PipelineState)
  : PipelineState :=
  match loaded with
  | Some d =>
      let numericCols := numeric_columns d in
      {| currentStage := currentStage prev;
         dataset := Some d;
         config := {| preprocessing := preprocessing (config prev);
                      splitRatio := splitRatio (config prev);
                      targetColumn := last_name numericCols;
                      featureColumns :=
                        map name (slice numericCols (IInt 0) (Some (IInt (-1))));
                      modelType := modelType (config prev) |};
         results := results prev;
         isProcessing := isProcessing prev;
         error := error prev;
         completedStages := completedStages prev |}
  | None =>
      {| currentStage := currentStage prev;
         dataset := None;
         config := config prev;
         results := results prev;
         isProcessing := isProcessing prev;
         error := error prev;
         completedStages := completedStages prev |}
  end.

Definition onMethodChange (method : PreprocessingMethod) (prev : PipelineState)
  : PipelineState :=
  with_config {| preprocessing := method;
                 splitRatio := splitRatio (config prev);
                 targetColumn := targetColumn (config prev);
                 featureColumns := featureColumns (config prev);
                 modelType := modelType (config prev) |} prev.

Definition onSplitRatioChange (ratio : number) (prev : PipelineState) : PipelineState :=
  with_config {| preprocessing := preprocessing (config prev);
                 splitRatio := ratio;
                 targetColumn := targetColumn (config prev);
                 featureColumns := featureColumns (config prev);
                 modelType := modelType (config prev) |} prev.

Definition onTargetColumnChange (column : string) (prev : PipelineState) : PipelineState :=
  with_config {| preprocessing := preprocessing (config prev);
                 splitRatio := splitRatio (config prev);
                 targetColumn := Some column;
                 featureColumns :=
                   filter (fun c => negb (String.eqb c column)) (featureColumns (config prev));
                 modelType := modelType (config prev) |} prev.

Definition onFeatureColumnsChange (columns : list string) (prev : PipelineState)
  : PipelineState :=
  with_config {| preprocessing := preprocessing (config prev);
                 splitRatio := splitRatio (config prev);
                 targetColumn := targetColumn (config prev);
                 featureColumns := columns;
                 modelType := modelType (config prev) |} prev.

Definition onModelChange (model : ModelType) (prev : PipelineState) : PipelineState :=
  with_config {| preprocessing := preprocessing (config prev);
                 splitRatio := splitRatio (config prev);
                 targetColumn := targetColumn (config prev);
                 featureColumns := featureColumns (config prev);
                 modelType := model |} prev.

(** [colName === targetColumn], where the target may be [null]. *)
Definition is_target (colName : string) (target : option string) : bool :=
  match target with
  | Some t => String.eqb colName t
  | None => false
  end.

(** The split panel's [toggleFeatureColumn]. *)
Definition toggleFeatureColumn (colName : string) (s : PipelineState) : PipelineState :=
  let targetColumn := targetColumn (config s) in
  let featureColumns := featureColumns (config s) in
  if is_target colName targetColumn then s
  else if existsb (String.eqb colName) featureColumns
  then onFeatureColumnsChange (filter (fun c => negb (String.eqb c colName)) featureColumns) s
  else onFeatureColumnsChange (featureColumns ++ [colName]) s.

(** The split panel's [selectAllFeatures]; the panel exists only while a
    dataset is loaded. *)
Definition selectAllFeatures (s : PipelineState) : PipelineState :=
  match dataset s with
  | Some d =>
      onFeatureColumnsChange
        (map name (filter (fun c => negb (is_target (name c) (targetColumn (config s))))
                          (numeric_columns d))) s
  | None => s
  end.

(** The three updates of [handleTrain]. *)
Definition training_started (prev : PipelineState) : PipelineState :=
  {| currentStage := currentStage prev;
     dataset := dataset prev;
     config := config prev;
     results := results prev;
     isProcessing := true;
     error := None;
     completedStages := completedStages prev |}.

Definition training_finished (r : TrainingResults) (prev : PipelineState) : PipelineState :=
  {| currentStage := Results;
     dataset := dataset prev;
     config := config prev;
     results := Some r;
     isProcessing := false;
     error := error prev;
     completedStages := completedStages prev ++ [Model; Results] |}.

Definition training_failed (message : string) (prev : PipelineState) : PipelineState :=
  {| currentStage := currentStage prev;
     dataset := dataset prev;
     config := config prev;
     results := results prev;
     isProcessing := false;
     error := Some message;
     completedStages := completedStages prev |}.

Definition handleReset (prev : PipelineState) : PipelineState := initialState.

(** [handleTrain] trains only when a dataset is loaded, the target has a
    non-empty name and at least one feature is selected. *)
Definition may_train (s : PipelineState) : bool :=
  match dataset s, targetColumn (config s) with
  | Some _, Some t =>
      negb (String.eqb t "") && negb (Nat.eqb (length (featureColumns (config s))) 0)
  | _, _ => false
  end.

(** The updates the user interface makes. *)
Inductive Update :=
| SetStage (stage : PipelineStage)
| MarkStageComplete (stage : PipelineStage)
| DatasetLoaded (loaded : option Dataset)
| MethodChange (method : PreprocessingMethod)
| SplitRatioChange (ratio : number)
| TargetColumnChange (column : string)
| ToggleFeatureColumn (colName : string)
| SelectAllFeatures
| ModelChange (model : ModelType)
| TrainingStarted
| TrainingFinished (r : TrainingResults)
| TrainingFailed (message : string)
| Reset.

Definition update (s : PipelineState) (u : Update) : PipelineState :=
  match u with
  | SetStage stage => setStage stage s
  | MarkStageComplete stage => markStageComplete stage s
  | DatasetLoaded loaded => handleDatasetLoaded loaded s
  | MethodChange method => onMethodChange method s
  | SplitRatioChange ratio => onSplitRatioChange ratio s
  | TargetColumnChange column => onTargetColumnChange column s
  | ToggleFeatureColumn colName => toggleFeatureColumn colName s
  | SelectAllFeatures => selectAllFeatures s
  | ModelChange model => onModelChange model s
  | TrainingStarted => training_started s
  | TrainingFinished r => training_finished r s
  | TrainingFailed message => training_failed message s
  | Reset => handleReset s
  end.

(** The state after a sequence of updates of the initial state. *)
Definition after (us : list Update) : PipelineState := fold_left update us initialState.

(** The column names of a dataset are pairwise distinct, as they are when
    they are the keys of a parsed row. *)
Definition distinct_columns (d : Dataset) : Prop := NoDup (map name (columns d)).

End State.

Arguments columns {unknown}.
Arguments dataset {unknown}.
Arguments config {unknown}.
Arguments completedStages {unknown}.
Arguments initialState {unknown}.
Arguments numeric_columns {unknown}.
Arguments update {unknown}.
Arguments after {unknown}.
Arguments may_train {unknown}.
Arguments distinct_columns {unknown}.

End Builder.

(** What every update of the builder keeps: the selected features are
    pairwise distinct, the target is not among them, and the loaded dataset
    has distinct column names. *)
Definition selection_invariant {unknown} (s : Builder.PipelineState unknown) : Prop :=
  NoDup (Builder.featureColumns (Builder.config s))
  /\ (forall t, Builder.targetColumn (Builder.config s) = Some t ->
                ~ In t (Builder.featureColumns (Builder.config s)))
  /\ (forall d, Builder.dataset s = Some d -> Builder.distinct_columns d).

(** * Properties *)

(** ** Floating-point facts *)

Lemma float_of_SF (x : float) (s : spec_float) : Prim2SF x = s -> x = SF2Prim s.
Proof. intros H. rewrite <- H. symmetry. apply SF2Prim_Prim2SF. Qed.

Lemma zero_quotient_nan (x : float) : (x * 0 / 0)%float = nan.
Proof.
  apply (float_of_SF _ S754_nan). rewrite div_spec, mul_spec.
  change (Prim2SF 0) with (S754_zero false).
  destruct (Prim2SF x) as [s | s | | s m e]; reflexivity.
Qed.

Lemma sub_nan (x : float) : (x - nan)%float = nan.
Proof.
  apply (float_of_SF _ S754_nan). rewrite sub_spec.
  change (Prim2SF nan) with S754_nan.
  destruct (Prim2SF x) as [s | s | | s m e]; reflexivity.
Qed.

Lemma iteration_no_rows (exp : number -> number) (lr : number) (nf : nat) (m : LogisticModel) :
  weights m = [] ->
  iteration exp [] [] lr nf m = {| weights := []; bias := nan |}.
Proof.
  intros Hw. unfold iteration. cbn. rewrite Hw. cbn.
  change (of_nat 0) with 0%float.
  rewrite zero_quotient_nan, sub_nan. reflexivity.
Qed.

Lemma logistic_no_rows (exp : number -> number) (lr : number) (n : nat) :
  Nat.iter (S n) (iteration exp [] [] lr 0) {| weights := repeat 0%float 0; bias := 0 |}
  = {| weights := []; bias := nan |}.
Proof.
  induction n as [| n IH].
  - cbn [Nat.iter nat_rect]. apply iteration_no_rows. reflexivity.
  - change (Nat.iter (S (S n)) ?f ?x) with (f (Nat.iter (S n) f x)).
    rewrite IH. apply iteration_no_rows. reflexivity.
Qed.

(** C3. With no training rows the learned weight vector is empty, but the
    bias is only left at its initial zero when no iteration runs: each
    iteration divides the zero bias gradient by the zero row count, and the
    bias becomes NaN, whatever the learning rate. *)
Theorem logisticRegression_no_rows :
  forall (Math_exp : number -> number) (learningRate : number) (iterations : Z),
    logisticRegression Math_exp [] [] learningRate iterations
    = {| weights := []; bias := if (0 <? iterations)%Z then nan else 0%float |}.
Proof.
  intros exp lr it. unfold logisticRegression.
  destruct (Z.ltb_spec 0 it) as [Hpos | Hle].
  - destruct (Z.to_nat it) as [| n] eqn:Hn; [lia |].
    apply logistic_no_rows.
  - replace (Z.to_nat it) with O by lia. reflexivity.
Qed.

(** ** Binary64 arithmetic *)

(** The operations of [float] are specified by [SpecFloat].  A finite number
    is measured here by the integer [units] that counts it in multiples of
    [2 ^ - K], and rounding to nearest, ties to even, is the function [rnd]
    on these integers.  The section shows that [rnd] is what
    [binary_round_aux] computes, that it is monotone, that a difference of
    finite numbers is the rounded exact difference, and that a quotient or
    a product by a number of the unit interval stays within its bounds. *)

#[local] Open Scope Z_scope.

(** *** Bit lengths *)

Lemma digits2_pos_log2 (p : positive) : Z.pos (digits2_pos p) = Z.log2 (Z.pos p) + 1.
Proof.
  induction p as [p IH | p IH |]; cbn [digits2_pos]; [| | reflexivity].
  - rewrite Pos2Z.inj_succ, IH.
    change (Z.pos p~1) with (2 * Z.pos p + 1). rewrite Z.log2_succ_double by lia. lia.
  - rewrite Pos2Z.inj_succ, IH.
    change (Z.pos p~0) with (2 * Z.pos p). rewrite Z.log2_double by lia. lia.
Qed.

Lemma Zdigits2_log2 (n : Z) : 0 < n -> Zdigits2 n = Z.log2 n + 1.
Proof. destruct n; try lia. intros _. apply digits2_pos_log2. Qed.

Lemma bits_spec (n : Z) : 0 < n -> 2 ^ (bits n - 1) <= n < 2 ^ bits n.
Proof.
  intros H. unfold bits. replace (Z.log2 n + 1 - 1) with (Z.log2 n) by lia.
  pose proof (Z.log2_spec n H). replace (Z.log2 n + 1) with (Z.succ (Z.log2 n)) by lia.
  assumption.
Qed.

Lemma bits_pos (n : Z) : 0 < n -> 1 <= bits n.
Proof. intros H. unfold bits. pose proof (Z.log2_nonneg n). lia. Qed.

Lemma bits_unique (n d : Z) : 1 <= d -> 2 ^ (d - 1) <= n < 2 ^ d -> bits n = d.
Proof.
  intros Hd H. unfold bits.
  rewrite (Z.log2_unique n (d - 1)); [lia | lia |].
  replace (Z.succ (d - 1)) with d by lia. assumption.
Qed.

Lemma bits_mul_pow2 (n k : Z) : 0 < n -> 0 <= k -> bits (n * 2 ^ k) = bits n + k.
Proof.
  intros Hn Hk. unfold bits. rewrite Z.log2_mul_pow2 by lia. lia.
Qed.

Lemma bits_le (n m : Z) : 0 < n -> n <= m -> bits n <= bits m.
Proof. intros Hn H. unfold bits. pose proof (Z.log2_le_mono n m H). lia. Qed.

Lemma bits_lt_pow2 (n d : Z) : 0 < n -> 0 <= d -> n < 2 ^ d -> bits n <= d.
Proof.
  intros Hn Hd H. unfold bits.
  assert (Z.log2 n < d) by (apply Z.log2_lt_pow2; assumption). lia.
Qed.

Lemma bits_ge_pow2 (n d : Z) : 0 <= d -> 2 ^ d <= n -> d + 1 <= bits n.
Proof.
  intros Hd H. unfold bits.
  assert (d <= Z.log2 n)
    by (apply Z.log2_le_pow2; [pose proof (Z.pow_pos_nonneg 2 d); lia | assumption]).
  lia.
Qed.

(** *** Valid binary64 numbers *)

Lemma fexp_eq (x : Z) : fexp prec emax x = Z.max (x - 53) (-1074).
Proof. reflexivity. Qed.

Lemma valid_finite (s : bool) (m : positive) (e : Z) :
  valid_binary (S754_finite s m e) = true ->
  -1074 <= e <= 971 /\ bits (Z.pos m) <= 53 /\ (bits (Z.pos m) = 53 \/ e = -1074).
Proof.
  cbn [SpecFloat.valid_binary]. unfold bounded, canonical_mantissa.
  rewrite andb_true_iff, Z.eqb_eq, Z.leb_le, fexp_eq, digits2_pos_log2.
  fold (bits (Z.pos m)). change (emax - prec) with 971. lia.
Qed.

Lemma pow2_pos (k : Z) : 0 <= k -> 0 < 2 ^ k.
Proof. intros. apply Z.pow_pos_nonneg; lia. Qed.

Lemma scaled_bits_lt (m1 m2 : positive) (e1 e2 : Z) :
  valid_binary (S754_finite false m1 e1) = true ->
  valid_binary (S754_finite false m2 e2) = true ->
  e1 < e2 ->
  Z.pos m1 * 2 ^ (e1 + K) < Z.pos m2 * 2 ^ (e2 + K).
Proof.
  intros H1 H2 Hlt. apply valid_finite in H1, H2. unfold K.
  destruct H1 as [He1 [Hb1 _]]. destruct H2 as [He2 [_ Hn2]].
  assert (Hb2 : bits (Z.pos m2) = 53) by lia.
  pose proof (bits_spec (Z.pos m1) ltac:(lia)) as [_ Hm1].
  pose proof (bits_spec (Z.pos m2) ltac:(lia)) as [Hm2 _].
  rewrite Hb2 in Hm2.
  assert (Hm1' : Z.pos m1 < 2 ^ 53).
  { eapply Z.lt_le_trans; [exact Hm1 |]. apply Z.pow_le_mono_r; lia. }
  replace (e2 + 1074) with ((e1 + 1074) + (e2 - e1)) by lia.
  rewrite (Z.pow_add_r 2 (e1 + 1074) (e2 - e1)) by lia.
  pose proof (pow2_pos (e1 + 1074) ltac:(lia)) as Hp.
  assert (Hq : 2 <= 2 ^ (e2 - e1)).
  { change 2 with (2 ^ 1) at 1. apply Z.pow_le_mono_r; lia. }
  change (2 ^ (53 - 1)) with 4503599627370496 in Hm2.
  change (2 ^ 53) with (2 * 4503599627370496) in Hm1'.
  set (P := 2 ^ (e1 + 1074)) in *. set (Q := 2 ^ (e2 - e1)) in *.
  apply Z.lt_le_trans with (2 * 4503599627370496 * P).
  - apply Z.mul_lt_mono_pos_r; assumption.
  - assert (H1 : 4503599627370496 * P <= Z.pos m2 * P)
      by (apply Z.mul_le_mono_nonneg_r; lia).
    assert (H0 : 0 <= Z.pos m2 * P) by (apply Z.mul_nonneg_nonneg; lia).
    assert (H2 : 2 * (Z.pos m2 * P) <= Q * (Z.pos m2 * P))
      by (apply Z.mul_le_mono_nonneg_r; lia).
    lia.
Qed.

Lemma compare_scaled (x y : spec_float) :
  valid_binary x = true -> valid_binary y = true ->
  finite x = true -> finite y = true ->
  SFcompare x y = Some (scaled x ?= scaled y).
Proof.
  intros Vx Vy Fx Fy.
  destruct x as [sx | sx | | sx mx ex]; try discriminate Fx;
    destruct y as [sy | sy | | sy my ey]; try discriminate Fy.
  - reflexivity.
  - cbn [SFcompare scaled]. pose proof (valid_finite _ _ _ Vy) as [He _].
    pose proof (pow2_pos (ey + K) ltac:(unfold K; lia)).
    destruct sy; f_equal; symmetry; [apply Z.compare_gt_iff | apply Z.compare_lt_iff]; nia.
  - cbn [SFcompare scaled]. pose proof (valid_finite _ _ _ Vx) as [He _].
    pose proof (pow2_pos (ex + K) ltac:(unfold K; lia)).
    destruct sx; f_equal; symmetry; [apply Z.compare_lt_iff | apply Z.compare_gt_iff]; nia.
  - cbn [SFcompare scaled].
    pose proof (valid_finite _ _ _ Vx) as [Hex _].
    pose proof (valid_finite _ _ _ Vy) as [Hey _].
    pose proof (pow2_pos (ex + K) ltac:(unfold K; lia)) as Hpx.
    pose proof (pow2_pos (ey + K) ltac:(unfold K; lia)) as Hpy.
    assert (Vx' : valid_binary (S754_finite false mx ex) = true) by exact Vx.
    assert (Vy' : valid_binary (S754_finite false my ey) = true) by exact Vy.
    destruct sx, sy; f_equal; symmetry.
    + (* both negative *)
      destruct (Z.compare_spec ex ey) as [Heq | Hlt | Hgt].
      * subst ey. change (Pos.compare_cont Eq mx my) with (mx ?= my)%positive.
        change (Z.neg mx) with (- Z.pos mx). change (Z.neg my) with (- Z.pos my).
        destruct (Pos.compare_spec mx my) as [Hm | Hm | Hm]; cbn [CompOpp];
          [apply Z.compare_eq_iff | apply Z.compare_gt_iff | apply Z.compare_lt_iff];
          [subst; reflexivity | |];
          apply Pos2Z.pos_lt_pos in Hm; nia.
      * apply Z.compare_gt_iff. pose proof (scaled_bits_lt _ _ _ _ Vx' Vy' Hlt). lia.
      * apply Z.compare_lt_iff. pose proof (scaled_bits_lt _ _ _ _ Vy' Vx' ltac:(lia)). lia.
    + apply Z.compare_lt_iff. nia.
    + apply Z.compare_gt_iff. nia.
    + destruct (Z.compare_spec ex ey) as [Heq | Hlt | Hgt].
      * subst ey. change (Pos.compare_cont Eq mx my) with (mx ?= my)%positive.
        destruct (Pos.compare_spec mx my) as [Hm | Hm | Hm];
          [apply Z.compare_eq_iff | apply Z.compare_lt_iff | apply Z.compare_gt_iff];
          [subst; reflexivity | |];
          apply Pos2Z.pos_lt_pos in Hm; nia.
      * apply Z.compare_lt_iff. exact (scaled_bits_lt _ _ _ _ Vx' Vy' Hlt).
      * apply Z.compare_gt_iff. apply (scaled_bits_lt _ _ _ _ Vy' Vx'). lia.
Qed.

(** *** Shifting a mantissa right *)

Lemma shr_1_rel (rec : shr_record) : 0 <= shr_m rec -> shr_rel 1 rec (shr_1 rec).
Proof.
  destruct rec as [m r s]. cbn [shr_m]. intros Hm.
  assert (Hs : (r || s)%bool = (s || r || negb (0 =? 0))%bool).
  { cbn. rewrite orb_false_r. apply orb_comm. }
  destruct m as [| p | p]; [| | lia].
  - exists 0, 0. cbn [shr_1 shr_m shr_r shr_s]. repeat split; auto; lia.
  - destruct p as [p | p |].
    + exists 1, 0. cbn [shr_1 shr_m shr_r shr_s]. repeat split; auto; lia.
    + exists 0, 0. cbn [shr_1 shr_m shr_r shr_s]. repeat split; auto; lia.
    + exists 1, 0. cbn [shr_1 shr_m shr_r shr_s]. repeat split; auto; lia.
Qed.

Lemma shr_rel_compose (h1 h2 : Z) (a b c : shr_record) :
  0 < h1 -> 0 < h2 -> shr_rel h1 a b -> shr_rel h2 b c -> shr_rel (2 * h1 * h2) a c.
Proof.
  intros Hh1 Hh2 [x1 [l1 [Ha [Hl1 [Hx1 [Hrb [Hsb Hmb]]]]]]]
         [x2 [l2 [Hb [Hl2 [Hx2 [Hrc [Hsc Hmc]]]]]]].
  exists x2, (l2 * (2 * h1) + x1 * h1 + l1).
  split; [rewrite Ha, Hb; ring |].
  split; [nia |].
  split; [assumption |].
  split; [assumption |].
  split; [| assumption].
  rewrite Hsc, Hsb, Hrb.
  assert (Hz : (l2 * (2 * h1) + x1 * h1 + l1 =? 0)
               = ((l1 =? 0) && negb (x1 =? 1) && (l2 =? 0))%bool).
  { assert (Hp : 0 <= l2 * (2 * h1)) by nia.
    assert (Hp0 : l2 * (2 * h1) = 0 -> l2 = 0) by nia.
    assert (Hp1 : l2 = 0 -> l2 * (2 * h1) = 0) by nia.
    destruct (Z.eqb_spec l1 0), (Z.eqb_spec x1 1), (Z.eqb_spec l2 0); cbn [andb negb];
      apply Z.eqb_eq || apply Z.eqb_neq; destruct Hx1; subst; lia. }
  rewrite Hz.
  destruct (shr_s a), (shr_r a), (l1 =? 0), (x1 =? 1), (l2 =? 0); reflexivity.
Qed.

Lemma iter_pos_shr_rel (n : positive) :
  forall rec : shr_record,
    0 <= shr_m rec -> shr_rel (2 ^ (Z.pos n - 1)) rec (iter_pos shr_1 n rec).
Proof.
  induction n as [n IH | n IH |]; intros rec Hm; cbn [iter_pos].
  - pose proof (shr_1_rel rec Hm) as H1.
    assert (Hm1 : 0 <= shr_m (shr_1 rec)) by (destruct H1 as [? [? H]]; apply H).
    pose proof (IH _ Hm1) as H2.
    assert (Hm2 : 0 <= shr_m (iter_pos shr_1 n (shr_1 rec)))
      by (destruct H2 as [? [? H]]; apply H).
    pose proof (IH _ Hm2) as H3.
    pose proof (pow2_pos (Z.pos n - 1) ltac:(lia)) as Hp.
    pose proof (shr_rel_compose 1 (2 ^ (Z.pos n - 1)) _ _ _ ltac:(lia) Hp H1 H2) as H12.
    pose proof (shr_rel_compose (2 * 1 * 2 ^ (Z.pos n - 1)) (2 ^ (Z.pos n - 1)) _ _ _
                  ltac:(lia) Hp H12 H3) as H123.
    replace (2 ^ (Z.pos n~1 - 1)) with (2 * (2 * 1 * 2 ^ (Z.pos n - 1)) * 2 ^ (Z.pos n - 1));
      [exact H123 |].
    replace (Z.pos n~1 - 1) with (1 + 1 + (Z.pos n - 1) + (Z.pos n - 1)) by lia.
    rewrite !Z.pow_add_r by lia. ring.
  - pose proof (IH _ Hm) as H1.
    assert (Hm1 : 0 <= shr_m (iter_pos shr_1 n rec)) by (destruct H1 as [? [? H]]; apply H).
    pose proof (IH _ Hm1) as H2.
    pose proof (pow2_pos (Z.pos n - 1) ltac:(lia)) as Hp.
    pose proof (shr_rel_compose _ _ _ _ _ Hp Hp H1 H2) as H12.
    replace (2 ^ (Z.pos n~0 - 1)) with (2 * 2 ^ (Z.pos n - 1) * 2 ^ (Z.pos n - 1));
      [exact H12 |].
    replace (Z.pos n~0 - 1) with (1 + (Z.pos n - 1) + (Z.pos n - 1)) by lia.
    rewrite !Z.pow_add_r by lia. ring.
  - apply shr_1_rel. assumption.
Qed.

(** *** Rounding to nearest, ties to even *)

Lemma round_even_scale (m rem unit c : Z) :
  0 < c -> round_even m (rem * c) (unit * c) = round_even m rem unit.
Proof.
  intros Hc. unfold round_even.
  assert (H1 : (unit * c <? 2 * (rem * c)) = (unit <? 2 * rem)).
  { destruct (Z.ltb_spec unit (2 * rem)); [apply Z.ltb_lt | apply Z.ltb_ge]; nia. }
  assert (H2 : (unit * c =? 2 * (rem * c)) = (unit =? 2 * rem)).
  { destruct (Z.eqb_spec unit (2 * rem)); [apply Z.eqb_eq | apply Z.eqb_neq]; nia. }
  now rewrite H1, H2.
Qed.

Lemma rnd_exact (m j : Z) : 0 < m -> bits m <= 53 -> 0 <= j -> rnd (m * 2 ^ j) = m * 2 ^ j.
Proof.
  intros Hm Hb Hj. unfold rnd. rewrite bits_mul_pow2 by assumption.
  destruct (Z.leb_spec (bits m + j) 53) as [| Hgt]; [reflexivity |].
  set (k := bits m + j - 53).
  assert (Hk : 0 < k <= j) by (unfold k; lia).
  replace (m * 2 ^ j) with (m * 2 ^ (j - k) * 2 ^ k)
    by (rewrite <- Z.mul_assoc, <- Z.pow_add_r by lia; do 2 f_equal; lia).
  pose proof (pow2_pos k ltac:(lia)) as Hp.
  rewrite Z.div_mul, Z.mod_mul by lia.
  unfold round_even.
  destruct (Z.ltb_spec (2 ^ k) (2 * 0)); [lia |].
  destruct (Z.eqb_spec (2 ^ k) (2 * 0)); [lia |]. reflexivity.
Qed.

Lemma iter_xO (d : positive) (p : positive) :
  Z.pos (Pos.iter xO p d) = Z.pos p * 2 ^ Z.pos d.
Proof.
  induction d as [| d IH] using Pos.peano_ind.
  - cbn [Pos.iter]. lia.
  - rewrite Pos.iter_succ, Pos2Z.inj_xO, IH, Pos2Z.inj_succ, Z.pow_succ_r by lia. ring.
Qed.

(** Truncating an exact mantissa and rounding it. *)
Lemma shr_round (m : positive) (n : positive) :
  shr_m (iter_pos shr_1 n (shr_record_of_loc (Z.pos m) loc_Exact)) = Z.pos m / 2 ^ Z.pos n
  /\ round_nearest_even
       (shr_m (iter_pos shr_1 n (shr_record_of_loc (Z.pos m) loc_Exact)))
       (loc_of_shr_record (iter_pos shr_1 n (shr_record_of_loc (Z.pos m) loc_Exact)))
     = round_even (Z.pos m / 2 ^ Z.pos n) (Z.pos m mod 2 ^ Z.pos n) (2 ^ Z.pos n).
Proof.
  pose proof (iter_pos_shr_rel n (shr_record_of_loc (Z.pos m) loc_Exact) ltac:(cbn; lia))
    as [h [low [Hm [Hlow [Hh [Hr [Hs Hpos]]]]]]].
  destruct (iter_pos shr_1 n (shr_record_of_loc (Z.pos m) loc_Exact)) as [m1 r s].
  cbn [shr_m shr_r shr_s shr_record_of_loc orb] in *.
  set (half := 2 ^ (Z.pos n - 1)) in *.
  assert (Hhalf : 0 < half) by (apply pow2_pos; lia).
  assert (Hunit : 2 ^ Z.pos n = 2 * half).
  { unfold half. replace (Z.pos n) with (1 + (Z.pos n - 1)) at 1 by lia.
    rewrite Z.pow_add_r by lia. reflexivity. }
  rewrite Hunit.
  assert (Hrem : 0 <= h * half + low < 2 * half) by (destruct Hh; subst h; lia).
  assert (Hdiv : Z.pos m / (2 * half) = m1).
  { symmetry. apply (Z.div_unique_pos _ _ m1 (h * half + low)); lia. }
  assert (Hmod : Z.pos m mod (2 * half) = h * half + low).
  { symmetry. apply (Z.mod_unique_pos _ _ m1 (h * half + low)); lia. }
  rewrite Hdiv, Hmod. split; [reflexivity |].
  unfold round_even. subst r s.
  destruct Hh as [-> | ->];
    [change (0 =? 1) with false | change (1 =? 1) with true];
    destruct (Z.eqb_spec low 0) as [-> | Hne];
    cbn [negb loc_of_shr_record round_nearest_even].
  - destruct (Z.ltb_spec (2 * half) (2 * (0 * half + 0))); [lia |].
    destruct (Z.eqb_spec (2 * half) (2 * (0 * half + 0))); [lia |]. reflexivity.
  - destruct (Z.ltb_spec (2 * half) (2 * (0 * half + low))); [lia |].
    destruct (Z.eqb_spec (2 * half) (2 * (0 * half + low))); [lia |]. reflexivity.
  - destruct (Z.ltb_spec (2 * half) (2 * (1 * half + 0))); [lia |].
    destruct (Z.eqb_spec (2 * half) (2 * (1 * half + 0))); [| lia].
    cbn [orb andb]. rewrite <- Z.negb_even. destruct (Z.even m1); reflexivity.
  - destruct (Z.ltb_spec (2 * half) (2 * (1 * half + low))); [| lia]. reflexivity.
Qed.

(** *** The rounding of [binary_round_aux] *)

Lemma pow_bound_lt (m a k b : Z) :
  0 < m < 2 ^ a -> 0 <= a -> 0 <= k <= b -> m * 2 ^ k < 2 ^ (a + b).
Proof.
  intros Hm Ha Hk. rewrite Z.pow_add_r by lia.
  pose proof (pow2_pos k ltac:(lia)) as Hpk.
  pose proof (Z.pow_le_mono_r 2 k b ltac:(lia) ltac:(lia)) as Hkb.
  apply Z.lt_le_trans with (2 ^ a * 2 ^ k).
  - apply Z.mul_lt_mono_pos_r; lia.
  - apply Z.mul_le_mono_nonneg_l; lia.
Qed.

Lemma pow_bound_ge (m a k b : Z) :
  2 ^ a <= m -> 0 <= a -> 0 <= b <= k -> 2 ^ (a + b) <= m * 2 ^ k.
Proof.
  intros Hm Ha Hk. rewrite Z.pow_add_r by lia.
  pose proof (pow2_pos a ltac:(lia)) as Hpa.
  pose proof (pow2_pos b ltac:(lia)) as Hpb.
  pose proof (Z.pow_le_mono_r 2 b k ltac:(lia) ltac:(lia)) as Hbk.
  apply Z.le_trans with (2 ^ a * 2 ^ k).
  - apply Z.mul_le_mono_nonneg_l; lia.
  - apply Z.mul_le_mono_nonneg_r; lia.
Qed.

Lemma binary_round_aux_unfold (s : bool) (mx ex : Z) (lx : location) :
  binary_round_aux prec emax s mx ex lx
  = let '(mrs', e') := shr_fexp prec emax mx ex lx in
    let '(mrs'', e'') :=
      shr_fexp prec emax (round_nearest_even (shr_m mrs') (loc_of_shr_record mrs')) e'
               loc_Exact in
    finish s (shr_m mrs'') e''.
Proof. reflexivity. Qed.

Lemma shr_fexp_unfold (m e : Z) (l : location) :
  0 < m ->
  shr_fexp prec emax m e l
  = shr (shr_record_of_loc m l) e (Z.max (bits m + e - 53) (-1074) - e).
Proof.
  intros Hm. unfold shr_fexp. rewrite fexp_eq, Zdigits2_log2 by assumption. reflexivity.
Qed.

Lemma shr_none (rec : shr_record) (e n : Z) : n <= 0 -> shr rec e n = (rec, e).
Proof. intros H. destruct n; try reflexivity. lia. Qed.

(** A rounded mantissa with at most 53 bits, or 2^53 after a carry, becomes
    a finite number of the same value unless that value overflows. *)
Lemma finish_spec (s : bool) (m2 e1 : Z) :
  0 < m2 -> -1074 <= e1 ->
  (bits m2 <= 53 /\ (bits m2 = 53 \/ e1 = -1074)) \/ m2 = 2 ^ 53 ->
  (m2 * 2 ^ (e1 + K) < 2 ^ 2098 ->
   exists m' e',
     (let '(mrs'', e'') := shr_fexp prec emax m2 e1 loc_Exact in finish s (shr_m mrs'') e'')
     = S754_finite s m' e'
     /\ Z.pos m' * 2 ^ (e' + K) = m2 * 2 ^ (e1 + K))
  /\ (2 ^ 2098 <= m2 * 2 ^ (e1 + K) ->
      (let '(mrs'', e'') := shr_fexp prec emax m2 e1 loc_Exact in finish s (shr_m mrs'') e'')
      = S754_infinity s).
Proof.
  intros Hm He [[Hb Hn] | Hcarry].
  - rewrite shr_fexp_unfold, shr_none by lia.
    cbn [shr_record_of_loc shr_m]. destruct m2 as [| p | p]; try lia. cbn [finish].
    pose proof (bits_spec (Z.pos p) ltac:(lia)) as [Hlo Hhi].
    assert (Hp53 : Z.pos p < 2 ^ 53).
    { eapply Z.lt_le_trans; [exact Hhi |]. apply Z.pow_le_mono_r; lia. }
    destruct (Z.leb_spec e1 971) as [Hle | Hgt]; split.
    + intros _. exists p, e1. split; reflexivity.
    + intros Hov. exfalso.
      pose proof (pow_bound_lt (Z.pos p) 53 (e1 + K) 2045 ltac:(lia) ltac:(lia)
                    ltac:(unfold K; lia)) as H.
      change (53 + 2045) with 2098 in H. lia.
    + intros Hlt. exfalso.
      assert (Hb53 : bits (Z.pos p) = 53) by lia. rewrite Hb53 in Hlo.
      pose proof (pow_bound_ge (Z.pos p) 52 (e1 + K) 2046 Hlo ltac:(lia)
                    ltac:(unfold K; lia)) as H.
      change (52 + 2046) with 2098 in H. lia.
    + intros _. reflexivity.
  - subst m2. rewrite shr_fexp_unfold by lia.
    replace (Z.max (bits (2 ^ 53) + e1 - 53) (-1074) - e1) with 1
      by (change (bits (2 ^ 53)) with 54; lia).
    cbn [shr iter_pos shr_record_of_loc]. change (2 ^ 53) with 9007199254740992.
    cbn [shr_1 shr_m finish].
    assert (Hval : 4503599627370496 * 2 ^ (e1 + 1 + K) = 9007199254740992 * 2 ^ (e1 + K)).
    { replace (e1 + 1 + K) with (1 + (e1 + K)) by lia.
      rewrite Z.pow_add_r by (unfold K; lia). change (2 ^ 1) with 2. ring. }
    destruct (Z.leb_spec (e1 + 1) 971) as [Hle | Hgt]; split.
    + intros _. exists 4503599627370496%positive, (e1 + 1). split; [reflexivity | exact Hval].
    + intros Hov. exfalso.
      pose proof (pow_bound_lt 9007199254740992 54 (e1 + K) 2044 ltac:(cbn; lia)
                    ltac:(lia) ltac:(unfold K; lia)) as H.
      change (54 + 2044) with 2098 in H. lia.
    + intros Hlt. exfalso.
      pose proof (pow_bound_ge 9007199254740992 53 (e1 + K) 2045 ltac:(cbn; lia)
                    ltac:(lia) ltac:(unfold K; lia)) as H.
      change (53 + 2045) with 2098 in H. lia.
    + intros _. reflexivity.
Qed.

Lemma bits_div_pow2 (m n : Z) :
  0 < m -> 0 <= n -> n < bits m -> bits (m / 2 ^ n) = bits m - n.
Proof.
  intros Hm Hn Hlt.
  pose proof (bits_spec m Hm) as [Hlo Hhi].
  pose proof (pow2_pos n Hn) as Hp.
  apply bits_unique; [lia |]. split.
  - apply Z.div_le_lower_bound; [lia |].
    rewrite <- Z.pow_add_r by lia. replace (n + (bits m - n - 1)) with (bits m - 1) by lia.
    assumption.
  - apply Z.div_lt_upper_bound; [lia |].
    rewrite <- Z.pow_add_r by lia. replace (n + (bits m - n)) with (bits m) by lia.
    assumption.
Qed.

Lemma round_even_range (m rem unit : Z) : m <= round_even m rem unit <= m + 1.
Proof. unfold round_even. destruct (_ || _)%bool; lia. Qed.

(** [binary_round_aux] on an exact mantissa that needs no left shift rounds
    the scaled magnitude with [rnd]. *)
Lemma binary_round_aux_exact (s : bool) (m : positive) (e : Z) :
  -1074 <= e -> e <= Z.max (bits (Z.pos m) + e - 53) (-1074) ->
  (rnd (Z.pos m * 2 ^ (e + K)) < 2 ^ 2098 ->
   exists m' e',
     binary_round_aux prec emax s (Z.pos m) e loc_Exact = S754_finite s m' e'
     /\ Z.pos m' * 2 ^ (e' + K) = rnd (Z.pos m * 2 ^ (e + K)))
  /\ (2 ^ 2098 <= rnd (Z.pos m * 2 ^ (e + K)) ->
      binary_round_aux prec emax s (Z.pos m) e loc_Exact = S754_infinity s).
Proof.
  intros He Hfe. rewrite binary_round_aux_unfold.
  pose proof (bits_pos (Z.pos m) ltac:(lia)) as Hb1.
  rewrite shr_fexp_unfold by lia.
  destruct (Z.max (bits (Z.pos m) + e - 53) (-1074) - e) as [| n | n] eqn:Hn; [| | lia].
  - (* no shift: the mantissa is kept *)
    cbn [shr shr_record_of_loc shr_m loc_of_shr_record round_nearest_even].
    assert (Hb : bits (Z.pos m) <= 53) by lia.
    rewrite rnd_exact by (unfold K; lia).
    apply finish_spec; [lia | lia |]. left. lia.
  - (* the mantissa is truncated by [n] bits and rounded *)
    cbn [shr].
    destruct (shr_round m n) as [Hm1 Hround].
    destruct (iter_pos shr_1 n (shr_record_of_loc (Z.pos m) loc_Exact)) as [m1 r1 s1] eqn:Hrec.
    cbn [shr_m] in Hm1. rewrite Hround. subst m1. clear Hround Hrec.
    assert (Hnb : Z.pos n = bits (Z.pos m) - 53) by lia.
    pose proof (pow2_pos (Z.pos n) ltac:(lia)) as Hpn.
    pose proof (pow2_pos (e + K) ltac:(unfold K; lia)) as Hpe.
    assert (Hbm1 : bits (Z.pos m / 2 ^ Z.pos n) = 53)
      by (rewrite bits_div_pow2 by lia; lia).
    pose proof (bits_spec (Z.pos m / 2 ^ Z.pos n)) as Hm1.
    assert (Hm1pos : 0 < Z.pos m / 2 ^ Z.pos n).
    { apply Z.div_str_pos. split; [lia |].
      pose proof (bits_spec (Z.pos m) ltac:(lia)) as [Hlo _].
      eapply Z.le_trans; [| exact Hlo]. apply Z.pow_le_mono_r; lia. }
    specialize (Hm1 Hm1pos). rewrite Hbm1 in Hm1.
    set (m1 := Z.pos m / 2 ^ Z.pos n) in *.
    set (rem := Z.pos m mod 2 ^ Z.pos n).
    pose proof (round_even_range m1 rem (2 ^ Z.pos n)) as Hm2.
    set (m2 := round_even m1 rem (2 ^ Z.pos n)) in *.
    (* the value of [rnd] *)
    assert (Hrnd : rnd (Z.pos m * 2 ^ (e + K)) = m2 * 2 ^ (e + Z.pos n + K)).
    { unfold rnd. rewrite bits_mul_pow2 by (unfold K; lia).
      destruct (Z.leb_spec (bits (Z.pos m) + (e + K)) 53) as [Hle | _];
        [unfold K in Hle; lia |].
      replace (bits (Z.pos m) + (e + K) - 53) with (Z.pos n + (e + K)) by lia.
      rewrite (Z.pow_add_r 2 (Z.pos n) (e + K)) by (unfold K; lia).
      rewrite Z.div_mul_cancel_r by lia.
      rewrite Z.mul_mod_distr_r by lia.
      rewrite round_even_scale by lia.
      fold m1 rem m2. replace (e + Z.pos n + K) with (Z.pos n + (e + K)) by lia.
      rewrite (Z.pow_add_r 2 (Z.pos n) (e + K)) by (unfold K; lia). reflexivity. }
    rewrite Hrnd.
    apply finish_spec; [lia | lia |].
    destruct (Z.eq_dec m2 (2 ^ 53)) as [Hc | Hnc]; [now right | left].
    assert (Hb2 : bits m2 = 53).
    { apply bits_unique; [lia |]. change (53 - 1) with 52 in *. lia. }
    lia.
Qed.

(** [binary_round] rounds the scaled magnitude with [rnd]. *)
Lemma binary_round_spec (s : bool) (p : positive) (e : Z) :
  -1074 <= e ->
  (rnd (Z.pos p * 2 ^ (e + K)) < 2 ^ 2098 ->
   exists m' e',
     binary_round prec emax s p e = S754_finite s m' e'
     /\ Z.pos m' * 2 ^ (e' + K) = rnd (Z.pos p * 2 ^ (e + K)))
  /\ (2 ^ 2098 <= rnd (Z.pos p * 2 ^ (e + K)) ->
      binary_round prec emax s p e = S754_infinity s).
Proof.
  intros He. unfold binary_round. rewrite fexp_eq, digits2_pos_log2.
  fold (bits (Z.pos p)). unfold shl_align.
  pose proof (bits_pos (Z.pos p) ltac:(lia)) as Hb1.
  destruct (Z.max (bits (Z.pos p) + e - 53) (-1074) - e) as [| d | d] eqn:Hd.
  - apply binary_round_aux_exact; lia.
  - apply binary_round_aux_exact; lia.
  - pose proof (iter_xO d p) as Hshift.
    set (mz := Pos.iter xO p d) in *.
    set (et := Z.max (bits (Z.pos p) + e - 53) (-1074)) in *.
    assert (Het : e = et + Z.pos d) by lia.
    assert (Hbz : bits (Z.pos mz) = bits (Z.pos p) + Z.pos d)
      by (rewrite Hshift; apply bits_mul_pow2; lia).
    assert (Hval : Z.pos p * 2 ^ (e + K) = Z.pos mz * 2 ^ (et + K)).
    { rewrite Hshift, Het. replace (et + Z.pos d + K) with (Z.pos d + (et + K)) by lia.
      rewrite (Z.pow_add_r 2 (Z.pos d) (et + K)) by (unfold et, K; lia). ring. }
    rewrite Hval. apply binary_round_aux_exact; [unfold et; lia |].
    rewrite Hbz. unfold et in *. lia.
Qed.

(** The magnitude and the sign of an integer mantissa. *)
Lemma binary_normalize_spec (z e : Z) :
  -1074 <= e -> z <> 0 ->
  (rnd (Z.abs z * 2 ^ (e + K)) < 2 ^ 2098 ->
   exists m' e',
     binary_normalize prec emax z e false = S754_finite (z <? 0) m' e'
     /\ Z.pos m' * 2 ^ (e' + K) = rnd (Z.abs z * 2 ^ (e + K)))
  /\ (2 ^ 2098 <= rnd (Z.abs z * 2 ^ (e + K)) ->
      binary_normalize prec emax z e false = S754_infinity (z <? 0)).
Proof.
  intros He Hz. destruct z as [| p | p]; [congruence | |]; cbn [binary_normalize Z.abs].
  - change (Z.pos p <? 0) with false. now apply binary_round_spec.
  - change (Z.neg p <? 0) with true. now apply binary_round_spec.
Qed.

(** *** The rounding function: nearest, monotone *)

Lemma rnd_cases (N : Z) :
  0 < N ->
  (bits N <= 53 /\ rnd N = N)
  \/ (53 < bits N /\
      exists m1 : Z,
        2 ^ 52 <= m1 < 2 ^ 53
        /\ m1 * 2 ^ (bits N - 53) <= N < (m1 + 1) * 2 ^ (bits N - 53)
        /\ (rnd N = m1 * 2 ^ (bits N - 53) \/ rnd N = (m1 + 1) * 2 ^ (bits N - 53))
        /\ Z.abs (rnd N - N) <= Z.abs (m1 * 2 ^ (bits N - 53) - N)
        /\ Z.abs (rnd N - N) <= Z.abs ((m1 + 1) * 2 ^ (bits N - 53) - N)).
Proof.
  intros HN. unfold rnd. destruct (Z.leb_spec (bits N) 53) as [Hle | Hgt]; [now left |].
  right. split; [assumption |].
  set (n := bits N - 53) in *. set (u := 2 ^ n).
  assert (Hu : 0 < u) by (apply pow2_pos; lia).
  exists (N / u).
  pose proof (Z.div_mod N u ltac:(lia)) as Hdm.
  pose proof (Z.mod_pos_bound N u Hu) as Hrem.
  assert (Hb : bits (N / u) = 53) by (unfold u; rewrite bits_div_pow2 by lia; lia).
  assert (Hpos : 0 < N / u).
  { apply Z.div_str_pos. split; [lia |].
    pose proof (bits_spec N HN) as [Hlo _]. eapply Z.le_trans; [| exact Hlo].
    apply Z.pow_le_mono_r; lia. }
  pose proof (bits_spec (N / u) Hpos) as Hm1. rewrite Hb in Hm1.
  change (53 - 1) with 52 in Hm1.
  split; [assumption |]. split; [nia |].
  unfold round_even.
  destruct (Z.ltb_spec u (2 * (N mod u))) as [Hup | Hdown]; cbn [orb].
  - split; [right; reflexivity |]. split; nia.
  - destruct (Z.eqb_spec u (2 * (N mod u))) as [Htie | Hnot]; cbn [andb].
    + destruct (Z.odd (N / u)); (split; [auto |]); split; nia.
    + split; [left; reflexivity |]. split; nia.
Qed.

Lemma rnd_pos (N : Z) : 0 < N -> 0 < rnd N.
Proof.
  intros HN. destruct (rnd_cases N HN) as [[_ ->] | [Hb [m1 [Hm1 [_ [Hr _]]]]]]; [assumption |].
  pose proof (pow2_pos (bits N - 53) ltac:(lia)).
  change (2 ^ 52) with 4503599627370496 in Hm1.
  destruct Hr as [-> | ->]; nia.
Qed.

(** No number of the format lies strictly between a truncation to 53 bits
    and its successor. *)
Lemma fmt_gap (m1 n f : Z) :
  0 <= n -> 2 ^ 52 <= m1 < 2 ^ 53 -> fmt f ->
  f <= m1 * 2 ^ n \/ (m1 + 1) * 2 ^ n <= f.
Proof.
  intros Hn Hm1 [m [j [Hm [Hj ->]]]].
  pose proof (pow2_pos n Hn) as Hu. pose proof (pow2_pos j Hj) as Hpj.
  destruct (Z.le_gt_cases n j) as [Hnj | Hjn].
  - replace j with ((j - n) + n) by lia. rewrite Z.pow_add_r by lia.
    pose proof (pow2_pos (j - n) ltac:(lia)) as Hq.
    rewrite Z.mul_assoc.
    destruct (Z.le_gt_cases (m * 2 ^ (j - n)) m1) as [Hle | Hgt].
    + left. apply Z.mul_le_mono_nonneg_r; lia.
    + right. apply Z.mul_le_mono_nonneg_r; lia.
  - left.
    assert (H1 : m * 2 ^ j <= 2 ^ 53 * 2 ^ j) by (apply Z.mul_le_mono_nonneg_r; lia).
    assert (H2 : 2 ^ 53 * 2 ^ j <= 2 ^ 52 * 2 ^ n).
    { replace n with ((n - j - 1) + 1 + j) by lia.
      rewrite !Z.pow_add_r by lia.
      pose proof (pow2_pos (n - j - 1) ltac:(lia)) as Hq.
      change (2 ^ 53) with (2 ^ 52 * 2). change (2 ^ 1) with 2.
      change (2 ^ 52) with 4503599627370496. nia. }
    assert (H3 : 2 ^ 52 * 2 ^ n <= m1 * 2 ^ n) by (apply Z.mul_le_mono_nonneg_r; lia).
    lia.
Qed.

Lemma rnd_nearest (N f : Z) : 0 < N -> fmt f -> Z.abs (rnd N - N) <= Z.abs (f - N).
Proof.
  intros HN Hf.
  destruct (rnd_cases N HN) as [[_ ->] | [Hb [m1 [Hm1 [Hbr [_ [Hlo Hhi]]]]]]]; [lia |].
  destruct (fmt_gap m1 (bits N - 53) f ltac:(lia) Hm1 Hf); lia.
Qed.

Lemma rnd_fmt (N : Z) : 0 < N -> fmt (rnd N).
Proof.
  intros HN.
  destruct (rnd_cases N HN) as [[Hb ->] | [Hb [m1 [Hm1 [_ [Hr _]]]]]].
  - exists N, 0. pose proof (bits_spec N HN) as [_ Hhi].
    assert (2 ^ bits N <= 2 ^ 53) by (apply Z.pow_le_mono_r; lia).
    repeat split; lia.
  - change (2 ^ 52) with 4503599627370496 in Hm1.
    change (2 ^ 53) with 9007199254740992 in Hm1.
    destruct Hr as [-> | ->].
    + exists m1, (bits N - 53). change (2 ^ 53) with 9007199254740992. repeat split; lia.
    + destruct (Z.eq_dec (m1 + 1) 9007199254740992) as [Hc | Hnc].
      * exists 4503599627370496, (bits N - 53 + 1).
        change (2 ^ 53) with 9007199254740992.
        repeat split; try lia.
        rewrite Hc, Z.pow_add_r by lia. change (2 ^ 1) with 2. ring.
      * exists (m1 + 1), (bits N - 53). change (2 ^ 53) with 9007199254740992.
        repeat split; lia.
Qed.

Lemma rnd_monotone (N1 N2 : Z) : 0 < N1 -> N1 <= N2 -> rnd N1 <= rnd N2.
Proof.
  intros H1 H12. destruct (Z.eq_dec N1 N2) as [-> | Hne]; [lia |].
  pose proof (rnd_nearest N1 (rnd N2) H1 (rnd_fmt N2 ltac:(lia))).
  pose proof (rnd_nearest N2 (rnd N1) ltac:(lia) (rnd_fmt N1 H1)).
  lia.
Qed.

(** *** Subtraction *)

Lemma shl_align_value (m : positive) (e ez : Z) :
  ez <= e -> Z.pos (fst (shl_align m e ez)) = Z.pos m * 2 ^ (e - ez).
Proof.
  intros H. unfold shl_align. destruct (ez - e) as [| d | d] eqn:Hd; cbn [fst]; try lia.
  - replace (e - ez) with 0 by lia. cbn. lia.
  - rewrite iter_xO. do 2 f_equal. lia.
Qed.

Lemma valid_scaled (s : bool) (m : positive) (e : Z) :
  valid_binary (S754_finite s m e) = true ->
  rnd (Z.pos m * 2 ^ (e + K)) = Z.pos m * 2 ^ (e + K)
  /\ Z.pos m * 2 ^ (e + K) < 2 ^ 2098.
Proof.
  intros V. apply valid_finite in V. destruct V as [He [Hb _]].
  split; [apply rnd_exact; unfold K; lia |].
  pose proof (bits_spec (Z.pos m) ltac:(lia)) as [_ Hhi].
  assert (H53 : Z.pos m < 2 ^ 53).
  { eapply Z.lt_le_trans; [exact Hhi |]. apply Z.pow_le_mono_r; lia. }
  apply (pow_bound_lt (Z.pos m) 53 (e + K) 2045); unfold K; lia.
Qed.

(** The difference of two finite numbers: a zero when they are equal, and
    otherwise the rounded magnitude of the exact difference with its sign,
    or an infinity when that overflows. *)
Lemma SFsub_spec (x y : spec_float) :
  valid_binary x = true -> valid_binary y = true ->
  finite x = true -> finite y = true ->
  (scaled x - scaled y = 0 -> exists s, SFsub prec emax x y = S754_zero s)
  /\ (scaled x - scaled y <> 0 ->
      (rnd (Z.abs (scaled x - scaled y)) < 2 ^ 2098 ->
       exists m e,
         SFsub prec emax x y = S754_finite (scaled x - scaled y <? 0) m e
         /\ Z.pos m * 2 ^ (e + K) = rnd (Z.abs (scaled x - scaled y)))
      /\ (2 ^ 2098 <= rnd (Z.abs (scaled x - scaled y)) ->
          SFsub prec emax x y = S754_infinity (scaled x - scaled y <? 0))).
Proof.
  intros Vx Vy Fx Fy.
  destruct x as [sx | sx | | sx mx ex]; try discriminate Fx;
    destruct y as [sy | sy | | sy my ey]; try discriminate Fy.
  - split; [intros _ | cbn [scaled]; lia].
    cbn [SFsub]. destruct sx, sy; eexists; reflexivity.
  - pose proof (valid_scaled _ _ _ Vy) as [Hr Hb].
    pose proof (valid_finite _ _ _ Vy) as [He _].
    pose proof (pow2_pos (ey + K) ltac:(unfold K; lia)) as Hp.
    cbn [SFsub scaled]. split; [destruct sy; nia |]. intros _.
    assert (Habs : Z.abs (0 - (if sy then Z.neg my else Z.pos my) * 2 ^ (ey + K))
                   = Z.pos my * 2 ^ (ey + K)) by (destruct sy; nia).
    assert (Hs : (0 - (if sy then Z.neg my else Z.pos my) * 2 ^ (ey + K) <? 0) = negb sy).
    { destruct sy; cbn [negb]; [apply Z.ltb_ge | apply Z.ltb_lt]; nia. }
    rewrite Habs, Hs, Hr. split; [| lia]. intros _. exists my, ey. split; reflexivity.
  - pose proof (valid_scaled _ _ _ Vx) as [Hr Hb].
    pose proof (valid_finite _ _ _ Vx) as [He _].
    pose proof (pow2_pos (ex + K) ltac:(unfold K; lia)) as Hp.
    cbn [SFsub scaled]. split; [destruct sx; nia |]. intros _.
    assert (Habs : Z.abs ((if sx then Z.neg mx else Z.pos mx) * 2 ^ (ex + K) - 0)
                   = Z.pos mx * 2 ^ (ex + K)) by (destruct sx; nia).
    assert (Hs : ((if sx then Z.neg mx else Z.pos mx) * 2 ^ (ex + K) - 0 <? 0) = sx).
    { destruct sx; [apply Z.ltb_lt | apply Z.ltb_ge]; nia. }
    rewrite Habs, Hs, Hr. split; [| lia]. intros _. exists mx, ex. split; reflexivity.
  - pose proof (valid_finite _ _ _ Vx) as [Hex _].
    pose proof (valid_finite _ _ _ Vy) as [Hey _].
    cbn [SFsub scaled].
    set (ez := Z.min ex ey).
    set (z := cond_Zopp sx (Z.pos (fst (shl_align mx ex ez)))
              - cond_Zopp sy (Z.pos (fst (shl_align my ey ez)))).
    pose proof (pow2_pos (ez + K) ltac:(unfold K, ez; lia)) as Hpz.
    assert (HD : (if sx then Z.neg mx else Z.pos mx) * 2 ^ (ex + K)
                 - (if sy then Z.neg my else Z.pos my) * 2 ^ (ey + K)
                 = z * 2 ^ (ez + K)).
    { unfold z. rewrite !shl_align_value by (unfold ez; lia).
      replace (ex + K) with ((ex - ez) + (ez + K)) by lia.
      replace (ey + K) with ((ey - ez) + (ez + K)) by lia.
      rewrite (Z.pow_add_r 2 (ex - ez) (ez + K)) by (unfold K, ez; lia).
      rewrite (Z.pow_add_r 2 (ey - ez) (ez + K)) by (unfold K, ez; lia).
      destruct sx, sy; cbn [cond_Zopp];
        change (Z.neg mx) with (- Z.pos mx); change (Z.neg my) with (- Z.pos my); ring. }
    rewrite HD.
    assert (Habs : Z.abs (z * 2 ^ (ez + K)) = Z.abs z * 2 ^ (ez + K)) by nia.
    assert (Hs : (z * 2 ^ (ez + K) <? 0) = (z <? 0)).
    { destruct (Z.ltb_spec z 0); [apply Z.ltb_lt | apply Z.ltb_ge]; nia. }
    rewrite Habs, Hs. split.
    + intros Hz. assert (z = 0) by nia. exists false.
      replace z with 0 by lia. reflexivity.
    + intros Hz. apply binary_normalize_spec; [unfold ez; lia | nia].
Qed.

(** *** Division of a number by one that is not smaller *)

Lemma round_nearest_even_range (m : Z) (l : location) :
  m <= round_nearest_even m l <= m + 1.
Proof.
  destruct l as [| []]; cbn [round_nearest_even]; try lia.
  destruct (Z.even m); lia.
Qed.

Lemma loc_of_record_of_loc (m : Z) (l : location) :
  loc_of_shr_record (shr_record_of_loc m l) = l.
Proof. destruct l as [| []]; reflexivity. Qed.

Lemma Zdigits2_bound (q : Z) : 0 <= q -> 0 <= Zdigits2 q /\ q < 2 ^ Zdigits2 q.
Proof.
  intros Hq. destruct (Z.eq_dec q 0) as [-> | Hne]; [cbn; lia |].
  rewrite Zdigits2_log2 by lia. fold (bits q).
  pose proof (bits_spec q ltac:(lia)). pose proof (bits_pos q ltac:(lia)). lia.
Qed.

Lemma Zdigits2_le (q t : Z) : 0 <= q <= 2 ^ t -> 0 <= t -> Zdigits2 q <= t + 1.
Proof.
  intros Hq Ht. destruct (Z.eq_dec q 0) as [-> | Hne]; [cbn; lia |].
  rewrite Zdigits2_log2 by lia. fold (bits q).
  apply bits_lt_pow2; [lia | lia |].
  rewrite Z.pow_add_r by lia.
  pose proof (pow2_pos t Ht). change (2 ^ 1) with 2. lia.
Qed.

(** The end of [binary_round_aux] for a small exponent. *)
Lemma finish_small (m2 e1 : Z) :
  0 <= m2 <= 2 ^ 53 -> -1074 <= e1 <= 900 ->
  (let '(mrs'', e'') := shr_fexp prec emax m2 e1 loc_Exact in finish false (shr_m mrs'') e'')
  = S754_zero false
  \/ exists m' e',
      (let '(mrs'', e'') := shr_fexp prec emax m2 e1 loc_Exact in
       finish false (shr_m mrs'') e'') = S754_finite false m' e'
      /\ Z.pos m' * 2 ^ (e' + K) = m2 * 2 ^ (e1 + K).
Proof.
  intros Hm He.
  destruct (Z.eq_dec m2 0) as [-> | Hne].
  - left. unfold shr_fexp. cbn [Zdigits2]. rewrite fexp_eq.
    rewrite shr_none by lia. reflexivity.
  - right. destruct (Z.eq_dec m2 (2 ^ 53)) as [-> | Hnc].
    + pose proof (finish_spec false (2 ^ 53) e1 ltac:(cbn; lia) ltac:(lia)
                    ltac:(right; reflexivity)) as [Hfin _].
      apply Hfin.
      apply (pow_bound_lt (2 ^ 53) 54 (e1 + K) 2044); unfold K; cbn; lia.
    + unfold shr_fexp. rewrite fexp_eq, Zdigits2_log2 by lia. fold (bits m2).
      assert (Hb : bits m2 <= 53) by (apply bits_lt_pow2; lia).
      rewrite shr_none by lia. cbn [shr_record_of_loc shr_m].
      destruct m2 as [| p | p]; try lia. cbn [finish].
      destruct (Z.leb_spec e1 971); [| lia]. exists p, e1. split; reflexivity.
Qed.

(** Rounding a quotient that is at most one yields at most one. *)
Lemma binary_round_aux_le_one (q e' : Z) (loc : location) :
  e' <= -53 -> 0 <= q <= 2 ^ (- e') -> (loc <> loc_Exact -> q < 2 ^ (- e')) ->
  binary_round_aux prec emax false q e' loc = S754_zero false
  \/ exists m e,
      binary_round_aux prec emax false q e' loc = S754_finite false m e
      /\ Z.pos m * 2 ^ (e + K) <= 2 ^ K.
Proof.
  intros He Hq Hloc.
  assert (Hstage : exists m2 e1 : Z,
             binary_round_aux prec emax false q e' loc
             = (let '(mrs'', e'') := shr_fexp prec emax m2 e1 loc_Exact in
                finish false (shr_m mrs'') e'')
             /\ -1074 <= e1 <= -52 /\ 0 <= m2 <= 2 ^ (- e1) /\ m2 <= 2 ^ 53).
  { rewrite binary_round_aux_unfold.
    pose proof (Zdigits2_bound q ltac:(lia)) as [HD0 HqD].
    pose proof (Zdigits2_le q (- e') Hq ltac:(lia)) as HD.
    unfold shr_fexp at 1. rewrite fexp_eq.
    set (D := Zdigits2 q) in *.
    assert (Hm0 : shr_m (shr_record_of_loc q loc) = q) by (destruct loc as [| []]; reflexivity).
    destruct (Z_le_gt_dec (Z.max (D + e' - 53) (-1074) - e') 0) as [Hn | Hn].
    - (* no shift *)
      rewrite shr_none by assumption. cbv beta iota. rewrite loc_of_record_of_loc, Hm0.
      pose proof (round_nearest_even_range q loc) as Hr.
      exists (round_nearest_even q loc), e'. split; [reflexivity |].
      split; [lia |]. split.
      + destruct loc as [| c]; [cbn [round_nearest_even]; lia |].
        specialize (Hloc ltac:(discriminate)). lia.
      + assert (2 ^ D <= 2 ^ 53) by (apply Z.pow_le_mono_r; lia). lia.
    - (* the quotient is truncated by [n] bits *)
      destruct (Z.max (D + e' - 53) (-1074) - e') as [| n | n] eqn:Hn'; try lia.
      cbn [shr].
      pose proof (iter_pos_shr_rel n (shr_record_of_loc q loc) ltac:(lia))
        as [h [low [Hm [Hlow [Hh [Hr [Hs Hpos]]]]]]].
      rewrite Hm0 in Hm.
      destruct (iter_pos shr_1 n (shr_record_of_loc q loc)) as [m1 r1 s1].
      cbv beta iota. cbn [shr_m shr_r shr_s] in *.
      set (half := 2 ^ (Z.pos n - 1)) in *.
      assert (Hhalf : 0 < half) by (apply pow2_pos; lia).
      set (e1 := e' + Z.pos n).
      assert (He1 : -1074 <= e1 <= -52) by (unfold e1; lia).
      assert (Hpow : 2 ^ (- e') = 2 ^ (- e1) * (2 * half)).
      { unfold half, e1. rewrite <- (Z.pow_succ_r 2 (Z.pos n - 1)) by lia.
        rewrite <- Z.pow_add_r by lia. f_equal. lia. }
      pose proof (pow2_pos (- e1) ltac:(lia)) as Hpe1.
      pose proof (round_nearest_even_range m1
                    (loc_of_shr_record {| shr_m := m1; shr_r := r1; shr_s := s1 |}))
        as Hrange.
      eexists _, e1. split; [reflexivity |]. split; [exact He1 |]. split.
      + split; [lia |].
        destruct (Z.eq_dec m1 (2 ^ (- e1))) as [Htop | Hnot].
        * (* the quotient is exactly one: nothing is shifted out *)
          assert (Hq1 : q = 2 ^ (- e')) by (destruct Hh; subst h; nia).
          assert (Hexact : loc = loc_Exact).
          { destruct loc as [| c]; [reflexivity |].
            specialize (Hloc ltac:(discriminate)). lia. }
          assert (h = 0 /\ low = 0) as [-> ->] by (destruct Hh; subst h; nia).
          subst loc. cbn in Hs, Hr. subst r1 s1.
          cbn [loc_of_shr_record round_nearest_even]. lia.
        * assert (m1 <= 2 ^ (- e1)) by (destruct Hh; subst h; nia). lia.
      + assert (Hm153 : m1 < 2 ^ 53).
        { assert (Hq53 : q < 2 ^ 53 * (2 * half)).
          { eapply Z.lt_le_trans; [exact HqD |].
            unfold half. rewrite <- (Z.pow_succ_r 2 (Z.pos n - 1)) by lia.
            rewrite <- Z.pow_add_r by lia. apply Z.pow_le_mono_r; lia. }
          destruct Hh; subst h; nia. }
        lia. }
  destruct Hstage as [m2 [e1 [-> [He1 [Hm2 Hm53]]]]].
  destruct (finish_small m2 e1 ltac:(lia) ltac:(lia)) as [Hz | [m [e [Hf Hv]]]];
    [now left | right].
  exists m, e. split; [assumption |]. rewrite Hv.
  replace K with ((- e1) + (e1 + K)) at 2 by lia.
  rewrite (Z.pow_add_r 2 (- e1) (e1 + K)) by (unfold K; lia).
  apply Z.mul_le_mono_nonneg_r; [| lia].
  pose proof (pow2_pos (e1 + K) ltac:(unfold K; lia)). lia.
Qed.
Lemma new_location_zero (n : Z) : new_location n 0 = loc_Exact.
Proof.
  unfold new_location, new_location_even, new_location_odd. destruct (Z.even n); reflexivity.
Qed.

Lemma scaled_le_ratio (ma mr ea er t : Z) :
  0 < ma -> 0 < mr -> -1074 <= ea -> -1074 <= er -> 0 <= t ->
  ma * 2 ^ (ea + K) <= mr * 2 ^ (er + K) ->
  ma * 2 ^ (ea - er + t) <= mr * 2 ^ t \/ ea - er + t < 0.
Proof.
  intros Ha Hr Hea Her Ht H.
  destruct (Z_lt_ge_dec (ea - er + t) 0) as [Hneg | Hs]; [now right | left].
  unfold K in H.
  pose proof (pow2_pos t Ht) as Hpt.
  destruct (Z_le_gt_dec er ea) as [Hle | Hgt].
  - replace (ea + 1074) with ((ea - er) + (er + 1074)) in H by lia.
    rewrite (Z.pow_add_r 2 (ea - er) (er + 1074)) in H by lia.
    pose proof (pow2_pos (er + 1074) ltac:(lia)) as Hp.
    rewrite (Z.pow_add_r 2 (ea - er) t) by lia.
    assert (ma * 2 ^ (ea - er) <= mr) by nia.
    nia.
  - replace (er + 1074) with ((er - ea) + (ea + 1074)) in H by lia.
    rewrite (Z.pow_add_r 2 (er - ea) (ea + 1074)) in H by lia.
    pose proof (pow2_pos (ea + 1074) ltac:(lia)) as Hp.
    replace t with ((ea - er + t) + (er - ea)) at 2 by lia.
    rewrite (Z.pow_add_r 2 (ea - er + t) (er - ea)) by lia.
    pose proof (pow2_pos (ea - er + t) ltac:(lia)) as Hq.
    assert (ma <= mr * 2 ^ (er - ea)) by nia.
    nia.
Qed.

(** The quotient of a positive number by one that is not smaller is at most
    one. *)
Lemma SFdiv_le_one (ma mr : positive) (ea er : Z) :
  -1074 <= ea -> -1074 <= er ->
  Z.pos ma * 2 ^ (ea + K) <= Z.pos mr * 2 ^ (er + K) ->
  SFdiv prec emax (S754_finite false ma ea) (S754_finite false mr er) = S754_zero false
  \/ exists m e,
      SFdiv prec emax (S754_finite false ma ea) (S754_finite false mr er)
      = S754_finite false m e
      /\ Z.pos m * 2 ^ (e + K) <= 2 ^ K.
Proof.
  intros Hea Her H.
  cbn [SFdiv xorb]. unfold SFdiv_core_binary.
  rewrite !Zdigits2_log2 by lia. fold (bits (Z.pos ma)) (bits (Z.pos mr)).
  rewrite fexp_eq.
  pose proof (bits_spec (Z.pos ma) ltac:(lia)) as [Ha1 Ha2].
  pose proof (bits_spec (Z.pos mr) ltac:(lia)) as [Hr1 Hr2].
  pose proof (bits_pos (Z.pos ma) ltac:(lia)) as Hba.
  pose proof (bits_pos (Z.pos mr) ltac:(lia)) as Hbr.
  set (da := bits (Z.pos ma)) in *. set (dr := bits (Z.pos mr)) in *.
  assert (Hd : da + ea <= dr + er).
  { assert (Hlt : 2 ^ (da - 1 + (ea + K)) < 2 ^ (dr + (er + K))).
    { rewrite (Z.pow_add_r 2 (da - 1) (ea + K)), (Z.pow_add_r 2 dr (er + K))
        by (unfold K; lia).
      pose proof (pow2_pos (ea + K) ltac:(unfold K; lia)).
      pose proof (pow2_pos (er + K) ltac:(unfold K; lia)).
      nia. }
    apply Z.pow_lt_mono_r_iff in Hlt; unfold K in *; lia. }
  set (e' := Z.min (Z.max (da + ea - (dr + er) - 53) (-1074)) (ea - er)).
  assert (He' : e' <= -53) by (unfold e'; lia).
  assert (Hs : 0 <= ea - er - e') by (unfold e'; lia).
  assert (Hm' : match ea - er - e' with
                | 0 => Z.pos ma
                | Z.pos _ => Z.shiftl (Z.pos ma) (ea - er - e')
                | Z.neg _ => 0
                end = Z.pos ma * 2 ^ (ea - er - e')).
  { destruct (ea - er - e') as [| s | s] eqn:Hse; [cbn; lia | | lia].
    now rewrite Z.shiftl_mul_pow2 by lia. }
  rewrite Hm'.
  pose proof (Z_div_mod (Z.pos ma * 2 ^ (ea - er - e')) (Z.pos mr) ltac:(lia)) as Hdiv.
  destruct (Z.div_eucl (Z.pos ma * 2 ^ (ea - er - e')) (Z.pos mr)) as [q r].
  destruct Hdiv as [Heq Hr].
  destruct (scaled_le_ratio (Z.pos ma) (Z.pos mr) ea er (- e')
              ltac:(lia) ltac:(lia) Hea Her ltac:(lia) H) as [Hratio | Hneg]; [| lia].
  replace (ea - er + - e') with (ea - er - e') in Hratio by lia.
  pose proof (pow2_pos (ea - er - e') Hs) as Hps.
  pose proof (pow2_pos (- e') ltac:(lia)) as Hpe.
  apply binary_round_aux_le_one; [assumption | split; nia |].
  intros Hloc.
  assert (Hr0 : r <> 0) by (intros ->; apply Hloc, new_location_zero).
  nia.
Qed.
(** *** Finite numbers and their order *)

Lemma is_finite_SF (x : float) : is_finite x = true -> finite (Prim2SF x) = true.
Proof.
  unfold is_finite, is_nan, is_infinity.
  rewrite !eqb_spec, abs_spec.
  destruct (Prim2SF x) as [s | s | | s m e]; try reflexivity.
  - destruct s; cbn; discriminate.
  - cbn. discriminate.
Qed.

Lemma SF_is_finite (x : float) : finite (Prim2SF x) = true -> is_finite x = true.
Proof.
  unfold is_finite, is_nan, is_infinity.
  rewrite !eqb_spec, abs_spec. intros F.
  pose proof (Prim2SF_valid x) as V. unfold SFeqb at 1.
  rewrite (compare_scaled _ _ V V F F), Z.compare_refl.
  destruct (Prim2SF x) as [s | s | | s m e]; try discriminate F; reflexivity.
Qed.

Lemma is_finite_not_nan (x : float) : is_finite x = true -> is_nan x = false.
Proof. unfold is_finite. destruct (is_nan x); [discriminate | reflexivity]. Qed.

Lemma compare_units (x y : float) :
  is_finite x = true -> is_finite y = true ->
  SFcompare (Prim2SF x) (Prim2SF y) = Some (units x ?= units y).
Proof.
  intros Fx Fy.
  apply compare_scaled; auto using Prim2SF_valid, is_finite_SF.
Qed.

Lemma ltb_units (x y : float) :
  is_finite x = true -> is_finite y = true -> (x <? y)%float = (units x <? units y).
Proof.
  intros Fx Fy. rewrite ltb_spec. unfold SFltb. rewrite (compare_units x y Fx Fy).
  unfold Z.ltb. destruct (units x ?= units y); reflexivity.
Qed.

Lemma leb_units (x y : float) :
  is_finite x = true -> is_finite y = true -> (x <=? y)%float = (units x <=? units y).
Proof.
  intros Fx Fy. rewrite leb_spec. unfold SFleb. rewrite (compare_units x y Fx Fy).
  unfold Z.leb. destruct (units x ?= units y); reflexivity.
Qed.

Lemma eqb_units (x y : float) :
  is_finite x = true -> is_finite y = true -> (x =? y)%float = (units x =? units y).
Proof.
  intros Fx Fy. rewrite eqb_spec. unfold SFeqb. rewrite (compare_units x y Fx Fy).
  destruct (Z.compare_spec (units x) (units y)) as [E | E | E];
    destruct (Z.eqb_spec (units x) (units y)); try reflexivity; lia.
Qed.
(** *** Minimum and maximum of finite numbers *)

Lemma min_step_finite (lo x : float) :
  is_finite lo = true -> is_finite x = true ->
  is_finite (min_step lo x) = true /\ units (min_step lo x) = Z.min (units lo) (units x).
Proof.
  intros Fl Fx. unfold min_step.
  rewrite (is_finite_not_nan _ Fl), (is_finite_not_nan _ Fx), (ltb_units x lo Fx Fl).
  destruct (Z.ltb_spec (units x) (units lo)); [split; [assumption | lia] |].
  rewrite (eqb_units x 0 Fx eq_refl), (eqb_units lo 0 Fl eq_refl).
  change (units 0) with 0.
  destruct (Z.eqb_spec (units x) 0), (Z.eqb_spec (units lo) 0), (get_sign x);
    cbn [andb]; split; try assumption; lia.
Qed.

Lemma max_step_finite (hi x : float) :
  is_finite hi = true -> is_finite x = true ->
  is_finite (max_step hi x) = true /\ units (max_step hi x) = Z.max (units hi) (units x).
Proof.
  intros Fh Fx. unfold max_step.
  rewrite (is_finite_not_nan _ Fh), (is_finite_not_nan _ Fx), (ltb_units hi x Fh Fx).
  destruct (Z.ltb_spec (units hi) (units x)); [split; [assumption | lia] |].
  rewrite (eqb_units x 0 Fx eq_refl), (eqb_units hi 0 Fh eq_refl).
  change (units 0) with 0.
  destruct (Z.eqb_spec (units x) 0), (Z.eqb_spec (units hi) 0), (get_sign x);
    cbn [andb negb]; split; try assumption; lia.
Qed.

Lemma min_step_first (x : float) : is_finite x = true -> min_step infinity x = x.
Proof.
  intros Fx. unfold min_step. change (is_nan infinity) with false. cbv iota.
  rewrite (is_finite_not_nan _ Fx), ltb_spec.
  apply is_finite_SF in Fx. change (Prim2SF infinity) with (S754_infinity false).
  destruct (Prim2SF x) as [s | s | | s m e]; try discriminate Fx; destruct s; reflexivity.
Qed.

Lemma max_step_first (x : float) : is_finite x = true -> max_step neg_infinity x = x.
Proof.
  intros Fx. unfold max_step. change (is_nan neg_infinity) with false. cbv iota.
  rewrite (is_finite_not_nan _ Fx), ltb_spec.
  apply is_finite_SF in Fx. change (Prim2SF neg_infinity) with (S754_infinity true).
  destruct (Prim2SF x) as [s | s | | s m e]; try discriminate Fx; destruct s; reflexivity.
Qed.

Lemma fold_min_finite (xs : list float) :
  forall lo : float,
    is_finite lo = true -> Forall (fun v => is_finite v = true) xs ->
    is_finite (fold_left min_step xs lo) = true
    /\ units (fold_left min_step xs lo) <= units lo
    /\ Forall (fun v => units (fold_left min_step xs lo) <= units v) xs.
Proof.
  induction xs as [| x xs IH]; intros lo Fl Fxs; cbn [fold_left].
  - repeat split; [assumption | lia | constructor].
  - inversion_clear Fxs as [| ? ? Fx Fxs'].
    destruct (min_step_finite lo x Fl Fx) as [Fm Vm].
    destruct (IH (min_step lo x) Fm Fxs') as [Ff [Hle Hall]].
    repeat split; [assumption | lia | constructor; [lia | assumption]].
Qed.

Lemma fold_max_finite (xs : list float) :
  forall hi : float,
    is_finite hi = true -> Forall (fun v => is_finite v = true) xs ->
    is_finite (fold_left max_step xs hi) = true
    /\ units hi <= units (fold_left max_step xs hi)
    /\ Forall (fun v => units v <= units (fold_left max_step xs hi)) xs.
Proof.
  induction xs as [| x xs IH]; intros hi Fh Fxs; cbn [fold_left].
  - repeat split; [assumption | lia | constructor].
  - inversion_clear Fxs as [| ? ? Fx Fxs'].
    destruct (max_step_finite hi x Fh Fx) as [Fm Vm].
    destruct (IH (max_step hi x) Fm Fxs') as [Ff [Hle Hall]].
    repeat split; [assumption | lia | constructor; [lia | assumption]].
Qed.

Lemma Math_min_finite (xs : list float) :
  xs <> [] -> Forall (fun v => is_finite v = true) xs ->
  is_finite (Math_min xs) = true
  /\ Forall (fun v => units (Math_min xs) <= units v) xs.
Proof.
  intros Hne Fxs. destruct xs as [| x xs]; [contradiction |].
  inversion_clear Fxs as [| ? ? Fx Fxs'].
  unfold Math_min. cbn [fold_left]. rewrite (min_step_first x Fx).
  destruct (fold_min_finite xs x Fx Fxs') as [Ff [Hle Hall]].
  split; [assumption | constructor; assumption].
Qed.

Lemma Math_max_finite (xs : list float) :
  xs <> [] -> Forall (fun v => is_finite v = true) xs ->
  is_finite (Math_max xs) = true
  /\ Forall (fun v => units v <= units (Math_max xs)) xs.
Proof.
  intros Hne Fxs. destruct xs as [| x xs]; [contradiction |].
  inversion_clear Fxs as [| ? ? Fx Fxs'].
  unfold Math_max. cbn [fold_left]. rewrite (max_step_first x Fx).
  destruct (fold_max_finite xs x Fx Fxs') as [Ff [Hle Hall]].
  split; [assumption | constructor; assumption].
Qed.
(** *** A normalized cell lies in the unit interval *)

Lemma unit_interval_zero (s : bool) (c : float) :
  Prim2SF c = S754_zero s -> in_unit_interval c = true.
Proof.
  intros Hc. unfold in_unit_interval. rewrite !leb_spec, Hc.
  destruct s; reflexivity.
Qed.

Lemma unit_interval_finite (c : float) (m : positive) (e : Z) :
  Prim2SF c = S754_finite false m e -> Z.pos m * 2 ^ (e + K) <= 2 ^ K ->
  in_unit_interval c = true.
Proof.
  intros Hc Hle. unfold in_unit_interval. rewrite !leb_spec.
  pose proof (Prim2SF_valid c) as Vc.
  assert (Fc : finite (Prim2SF c) = true) by now rewrite Hc.
  unfold SFleb.
  rewrite (compare_scaled (Prim2SF 0) (Prim2SF c) (Prim2SF_valid 0) Vc eq_refl Fc).
  rewrite (compare_scaled (Prim2SF c) (Prim2SF 1) Vc (Prim2SF_valid 1) Fc eq_refl).
  rewrite Hc. cbn [scaled]. change (scaled (Prim2SF 0)) with 0.
  change (scaled (Prim2SF 1)) with (2 ^ K).
  rewrite Hc in Vc. pose proof (valid_finite _ _ _ Vc) as [He _].
  pose proof (pow2_pos (e + K) ltac:(unfold K; lia)).
  destruct (Z.compare_spec 0 (Z.pos m * 2 ^ (e + K)));
    destruct (Z.compare_spec (Z.pos m * 2 ^ (e + K)) (2 ^ K)); try reflexivity; lia.
Qed.

Lemma unit_interval_cell (lo v hi : float) :
  is_finite lo = true -> is_finite v = true -> is_finite hi = true ->
  units lo <= units v <= units hi ->
  is_finite (hi - lo) = true -> (hi - lo =? 0)%float = false ->
  in_unit_interval ((v - lo) / (hi - lo)) = true.
Proof.
  intros Fl Fv Fh Hord Fr Hnz.
  pose proof (SFsub_spec (Prim2SF hi) (Prim2SF lo) (Prim2SF_valid hi) (Prim2SF_valid lo)
                (is_finite_SF hi Fh) (is_finite_SF lo Fl)) as [Hr0 Hr].
  pose proof (SFsub_spec (Prim2SF v) (Prim2SF lo) (Prim2SF_valid v) (Prim2SF_valid lo)
                (is_finite_SF v Fv) (is_finite_SF lo Fl)) as [Ha0 Ha].
  fold (units hi) (units lo) (units v) in *.
  change (SFsub prec emax (Prim2SF hi) (Prim2SF lo)) with (SF64sub (Prim2SF hi) (Prim2SF lo)) in *.
  change (SFsub prec emax (Prim2SF v) (Prim2SF lo)) with (SF64sub (Prim2SF v) (Prim2SF lo)) in *.
  rewrite <- sub_spec in *.
  pose proof (Prim2SF_valid (hi - lo)) as Vr. pose proof (Prim2SF_valid (v - lo)) as Va.
  assert (Hdiv := div_spec (v - lo) (hi - lo)).
  destruct (Z.eq_dec (units hi - units lo) 0) as [Hz | Hpos].
  { destruct (Hr0 Hz) as [s Hs]. rewrite eqb_spec, Hs in Hnz. destruct s; discriminate Hnz. }
  destruct (Hr Hpos) as [Hfin Hinf].
  rewrite Z.abs_eq in Hfin, Hinf by lia.
  destruct (Z_lt_ge_dec (rnd (units hi - units lo)) (2 ^ 2098)) as [Hsmall | Hbig].
  2: { apply is_finite_SF in Fr. rewrite (Hinf ltac:(lia)) in Fr. discriminate Fr. }
  destruct (Hfin Hsmall) as [mr [er [HR HRv]]].
  replace (units hi - units lo <? 0) with false in HR by (symmetry; apply Z.ltb_ge; lia).
  rewrite HR in Hdiv, Vr.
  destruct (Z.eq_dec (units v - units lo) 0) as [Hz | Hapos].
  { destruct (Ha0 Hz) as [s Hs]. rewrite Hs in Hdiv.
    apply (unit_interval_zero (xorb s false)). exact Hdiv. }
  destruct (Ha Hapos) as [Hafin _].
  rewrite Z.abs_eq in Hafin by lia.
  pose proof (rnd_monotone (units v - units lo) (units hi - units lo) ltac:(lia) ltac:(lia)).
  destruct (Hafin ltac:(lia)) as [ma [ea [HA HAv]]].
  replace (units v - units lo <? 0) with false in HA by (symmetry; apply Z.ltb_ge; lia).
  rewrite HA in Hdiv, Va.
  pose proof (valid_finite _ _ _ Va) as [Hea _].
  pose proof (valid_finite _ _ _ Vr) as [Her _].
  destruct (SFdiv_le_one ma mr ea er ltac:(lia) ltac:(lia) ltac:(lia)) as [Hq | [m [e [Hq Hle]]]].
  - apply (unit_interval_zero false). rewrite Hdiv. exact Hq.
  - apply (unit_interval_finite _ m e); [rewrite Hdiv; exact Hq | exact Hle].
Qed.

(** *** The boundary of a split *)

Lemma unit_interval_finite_number (f : float) :
  in_unit_interval f = true -> is_finite f = true.
Proof.
  unfold in_unit_interval. rewrite !leb_spec. intros H. apply SF_is_finite.
  change (Prim2SF 0) with (S754_zero false) in H.
  change (Prim2SF 1) with (S754_finite false 4503599627370496 (-52)) in H.
  destruct (Prim2SF f) as [[] | [] | | [] m e]; try reflexivity; discriminate H.
Qed.

Lemma unit_interval_units (f : float) :
  in_unit_interval f = true -> 0 <= units f <= 2 ^ K.
Proof.
  intros H. pose proof (unit_interval_finite_number f H) as Ff.
  unfold in_unit_interval in H.
  rewrite (leb_units 0 f eq_refl Ff), (leb_units f 1 Ff eq_refl) in H.
  change (units 0) with 0 in H. change (units 1) with (2 ^ K) in H.
  apply andb_true_iff in H. destruct H as [H0 H1].
  apply Z.leb_le in H0, H1. lia.
Qed.

(** The number of an array length below 2^53 is that length. *)
Lemma of_nat_spec (n : nat) :
  Z.of_nat n < 2 ^ 53 ->
  (n = 0%nat /\ Prim2SF (of_nat n) = S754_zero false)
  \/ (0 < Z.of_nat n
      /\ exists m e,
          Prim2SF (of_nat n) = S754_finite false m e
          /\ Z.pos m * 2 ^ (e + K) = Z.of_nat n * 2 ^ K).
Proof.
  intros Hn. unfold of_nat. rewrite of_uint63_spec, Uint63.of_Z_spec.
  assert (Hwb : 2 ^ 53 < Uint63.wB) by reflexivity.
  rewrite Z.mod_small by lia.
  destruct n as [| n']; [left; split; reflexivity | right].
  split; [lia |].
  pose proof (binary_normalize_spec (Z.of_nat (S n')) 0 ltac:(lia) ltac:(lia)) as [Hfin _].
  rewrite Z.abs_eq in Hfin by lia. change (0 + K) with K in Hfin.
  assert (Hb : bits (Z.of_nat (S n')) <= 53) by (apply bits_lt_pow2; lia).
  rewrite (rnd_exact (Z.of_nat (S n')) K ltac:(lia) Hb ltac:(unfold K; lia)) in Hfin.
  destruct Hfin as [m [e [Heq Hv]]].
  - apply (pow_bound_lt (Z.of_nat (S n')) 53 K 2045); unfold K; lia.
  - exists m, e. replace (Z.of_nat (S n') <? 0) with false in Heq
      by (symmetry; apply Z.ltb_ge; lia).
    split; assumption.
Qed.

(** The complement [1 - f] of a fraction is a fraction. *)
Lemma complement_spec (f : float) :
  in_unit_interval f = true ->
  (exists s, Prim2SF (1 - f) = S754_zero s)
  \/ (exists m e,
        Prim2SF (1 - f) = S754_finite false m e /\ Z.pos m * 2 ^ (e + K) <= 2 ^ K).
Proof.
  intros H. pose proof (unit_interval_units f H) as Hu.
  pose proof (unit_interval_finite_number f H) as Ff.
  pose proof (SFsub_spec (Prim2SF 1) (Prim2SF f) (Prim2SF_valid 1) (Prim2SF_valid f)
                eq_refl (is_finite_SF f Ff)) as [Hz Hnz].
  fold (units f) in *. change (scaled (Prim2SF 1)) with (2 ^ K) in *.
  rewrite sub_spec. change SF64sub with (SFsub prec emax).
  destruct (Z.eq_dec (2 ^ K - units f) 0) as [E | E]; [left; now apply Hz | right].
  destruct (Hnz E) as [Hfin _]. rewrite Z.abs_eq in Hfin by lia.
  assert (Hone : rnd (2 ^ K) = 2 ^ K).
  { rewrite <- (Z.mul_1_l (2 ^ K)). apply rnd_exact; [lia | cbn; lia | unfold K; lia]. }
  pose proof (rnd_monotone (2 ^ K - units f) (2 ^ K) ltac:(lia) ltac:(lia)) as Hmono.
  rewrite Hone in Hmono.
  assert (Hsmall : 2 ^ K < 2 ^ 2098) by (apply Z.pow_lt_mono_r; unfold K; lia).
  destruct (Hfin ltac:(lia)) as [m [e [Heq Hv]]].
  exists m, e. replace (2 ^ K - units f <? 0) with false in Heq
    by (symmetry; apply Z.ltb_ge; lia).
  split; [assumption | lia].
Qed.

Lemma bits_mul_ge (a b : Z) : 0 < a -> 0 < b -> bits a + bits b - 1 <= bits (a * b).
Proof.
  intros Ha Hb.
  pose proof (bits_spec a Ha) as [Ha1 _]. pose proof (bits_spec b Hb) as [Hb1 _].
  pose proof (bits_pos a Ha). pose proof (bits_pos b Hb).
  pose proof (pow2_pos (bits a - 1) ltac:(lia)). pose proof (pow2_pos (bits b - 1) ltac:(lia)).
  assert (2 ^ (bits a - 1 + (bits b - 1)) <= a * b) by (rewrite Z.pow_add_r by lia; nia).
  pose proof (bits_ge_pow2 (a * b) (bits a - 1 + (bits b - 1)) ltac:(lia) ltac:(assumption)).
  lia.
Qed.

(** The product of a length and of a fraction is at most that length. *)
Lemma SFmul_le (mx my : positive) (ex ey n : Z) :
  valid_binary (S754_finite false mx ex) = true ->
  valid_binary (S754_finite false my ey) = true ->
  0 < n < 2 ^ 53 ->
  Z.pos mx * 2 ^ (ex + K) = n * 2 ^ K ->
  Z.pos my * 2 ^ (ey + K) <= 2 ^ K ->
  SFmul prec emax (S754_finite false mx ex) (S754_finite false my ey) = S754_zero false
  \/ exists m e,
      SFmul prec emax (S754_finite false mx ex) (S754_finite false my ey)
      = S754_finite false m e
      /\ Z.pos m * 2 ^ (e + K) <= n * 2 ^ K.
Proof.
  intros Vx Vy Hn Hx Hy.
  pose proof (valid_finite _ _ _ Vx) as [Hex [Hbx Hnx]].
  pose proof (valid_finite _ _ _ Vy) as [Hey [Hby _]].
  pose proof (bits_spec (Z.pos mx) ltac:(lia)) as [_ Hmx].
  pose proof (bits_spec (Z.pos my) ltac:(lia)) as [_ Hmy].
  pose proof (bits_pos (Z.pos my) ltac:(lia)) as Hby1.
  assert (Hmx53 : Z.pos mx < 2 ^ 53).
  { eapply Z.lt_le_trans; [exact Hmx | apply Z.pow_le_mono_r; lia]. }
  assert (Hmy53 : Z.pos my < 2 ^ 53).
  { eapply Z.lt_le_trans; [exact Hmy | apply Z.pow_le_mono_r; lia]. }
  pose proof (pow2_pos K ltac:(unfold K; lia)) as HpK.
  assert (Hex52 : -52 <= ex).
  { destruct (Z_le_gt_dec (-52) ex) as [| Hlow]; [assumption | exfalso].
    pose proof (pow_bound_lt (Z.pos mx) 53 (ex + K) (K - 53) ltac:(lia) ltac:(lia)
                  ltac:(unfold K; lia)) as Hlt.
    replace (53 + (K - 53)) with K in Hlt by lia. nia. }
  assert (Hbx53 : bits (Z.pos mx) = 53) by lia.
  cbn [SFmul xorb]. rewrite Pos2Z.inj_mul.
  destruct (Z_le_gt_dec (-1074) (ex + ey)) as [Hbig | Hsmall].
  - (* the product is rounded to 53 bits *)
    right.
    pose proof (bits_mul_ge (Z.pos mx) (Z.pos my) ltac:(lia) ltac:(lia)) as Hbm.
    rewrite <- Pos2Z.inj_mul in *.
    destruct (binary_round_aux_exact false (mx * my) (ex + ey) Hbig ltac:(lia)) as [Hfin _].
    assert (Hprod : Z.pos (mx * my) * 2 ^ (ex + ey + K) <= n * 2 ^ K).
    { rewrite Pos2Z.inj_mul.
      assert (Hpow : 2 ^ (ex + ey + K) * 2 ^ K = 2 ^ (ex + K) * 2 ^ (ey + K)).
      { rewrite <- !Z.pow_add_r by (unfold K; lia). f_equal. lia. }
      pose proof (pow2_pos (ex + K) ltac:(unfold K; lia)).
      pose proof (pow2_pos (ey + K) ltac:(unfold K; lia)).
      pose proof (pow2_pos (ex + ey + K) ltac:(unfold K; lia)).
      assert (Z.pos mx * Z.pos my * 2 ^ (ex + ey + K) * 2 ^ K
              = (Z.pos mx * 2 ^ (ex + K)) * (Z.pos my * 2 ^ (ey + K))).
      { rewrite <- !Z.mul_assoc, Hpow. ring. }
      assert (Z.pos mx * Z.pos my * 2 ^ (ex + ey + K) * 2 ^ K <= n * 2 ^ K * 2 ^ K).
      { rewrite H2, Hx. apply Z.mul_le_mono_nonneg_l; lia. }
      nia. }
    assert (Hn53 : bits n <= 53) by (apply bits_lt_pow2; lia).
    pose proof (rnd_exact n K ltac:(lia) Hn53 ltac:(unfold K; lia)) as Hexact.
    pose proof (pow2_pos (ex + ey + K) ltac:(unfold K; lia)).
    pose proof (rnd_monotone (Z.pos (mx * my) * 2 ^ (ex + ey + K)) (n * 2 ^ K)
                  ltac:(apply Z.mul_pos_pos; lia) Hprod) as Hmono.
    rewrite Hexact in Hmono.
    assert (n * 2 ^ K < 2 ^ 2098).
    { apply (pow_bound_lt n 53 K 2045); unfold K; lia. }
    destruct (Hfin ltac:(lia)) as [m [e [Heq Hv]]].
    exists m, e. split; [assumption | lia].
  - (* the product is below the least normal number *)
    assert (Hq : Z.pos mx * Z.pos my <= 2 ^ (- (ex + ey))).
    { assert (Z.pos mx * Z.pos my < 2 ^ 53 * 2 ^ 53) by nia.
      assert (2 ^ 53 * 2 ^ 53 <= 2 ^ (- (ex + ey))).
      { rewrite <- Z.pow_add_r by lia. apply Z.pow_le_mono_r; lia. }
      lia. }
    destruct (binary_round_aux_le_one (Z.pos mx * Z.pos my) (ex + ey) loc_Exact
                ltac:(lia) ltac:(lia) ltac:(congruence)) as [Hz | [m [e [Heq Hv]]]].
    + left. assumption.
    + right. exists m, e. split; [assumption | nia].
Qed.

Lemma floor_le (p : float) (m : positive) (e n : Z) :
  Prim2SF p = S754_finite false m e -> 0 <= n ->
  Z.pos m * 2 ^ (e + K) <= n * 2 ^ K ->
  exists b, Math_floor p = IInt b /\ 0 <= b <= n.
Proof.
  intros Hp Hn Hle. pose proof (Prim2SF_valid p) as V. rewrite Hp in V.
  pose proof (valid_finite _ _ _ V) as [He _].
  unfold Math_floor. rewrite Hp. eexists. split; [reflexivity |].
  destruct (Z_le_gt_dec 0 e) as [Hpos | Hneg].
  - rewrite Z.shiftl_mul_pow2 by assumption.
    rewrite (Z.add_comm e K), (Z.pow_add_r 2 K e) in Hle by (unfold K; lia).
    pose proof (pow2_pos K ltac:(unfold K; lia)). pose proof (pow2_pos e Hpos).
    split; [lia | nia].
  - rewrite Z.shiftl_div_pow2 by lia.
    pose proof (pow2_pos (- e) ltac:(lia)) as Hpe.
    pose proof (pow2_pos (e + K) ltac:(unfold K; lia)) as Hpk.
    assert (Hsplit : 2 ^ K = 2 ^ (e + K) * 2 ^ (- e)).
    { rewrite <- Z.pow_add_r by (unfold K; lia). f_equal. lia. }
    rewrite Hsplit in Hle.
    split; [apply Z.div_pos; lia |].
    apply Z.div_le_upper_bound; [lia | nia].
Qed.

Lemma floor_zero (p : float) (s : bool) : Prim2SF p = S754_zero s -> Math_floor p = IInt 0.
Proof. intros Hp. unfold Math_floor. now rewrite Hp. Qed.

(** For a fraction [f], the boundary [floor(n * (1 - f))] is a whole number
    of rows between 0 and [n]. *)
Lemma boundary_of_fraction (n : nat) (f : float) :
  Z.of_nat n < 2 ^ 53 -> in_unit_interval f = true ->
  exists b, Math_floor (of_nat n * (1 - f)) = IInt b /\ 0 <= b <= Z.of_nat n.
Proof.
  intros Hn Hf.
  pose proof (mul_spec (of_nat n) (1 - f)) as Hmul. change SF64mul with (SFmul prec emax) in Hmul.
  pose proof (Prim2SF_valid (of_nat n)) as Vn. pose proof (Prim2SF_valid (1 - f)) as Vt.
  destruct (of_nat_spec n Hn) as [[-> Hzero] | [Hpos [mx [ex [Hx Hxv]]]]].
  - rewrite Hzero in Hmul. exists 0. split; [| cbn; lia].
    destruct (complement_spec f Hf) as [[s Ht] | [my [ey [Ht _]]]]; rewrite Ht in Hmul;
      eapply floor_zero; exact Hmul.
  - rewrite Hx in Hmul, Vn.
    destruct (complement_spec f Hf) as [[s Ht] | [my [ey [Ht Htv]]]]; rewrite Ht in Hmul, Vt.
    + exists 0. split; [eapply floor_zero; exact Hmul | lia].
    + destruct (SFmul_le mx my ex ey (Z.of_nat n) Vn Vt ltac:(lia) Hxv Htv)
        as [Hz | [m [e [Heq Hv]]]].
      * exists 0. split; [| lia]. eapply floor_zero. rewrite Hmul. exact Hz.
      * apply (floor_le _ m e); [rewrite Hmul; exact Heq | lia | exact Hv].
Qed.

(** *** The distance between the boundary and the exact one *)

(** A valid number that is large enough is normal. *)
Lemma valid_normal (m : positive) (e lower : Z) :
  valid_binary (S754_finite false m e) = true ->
  -1074 < lower -> 2 ^ (lower + 52 + K) <= Z.pos m * 2 ^ (e + K) ->
  bits (Z.pos m) = 53 /\ lower <= e.
Proof.
  intros V Hl Hv. pose proof (valid_finite _ _ _ V) as [He [Hb Hn]].
  pose proof (bits_spec (Z.pos m) ltac:(lia)) as [_ Hhi].
  assert (Hm53 : Z.pos m < 2 ^ 53).
  { eapply Z.lt_le_trans; [exact Hhi | apply Z.pow_le_mono_r; lia]. }
  assert (Hle : lower <= e).
  { destruct (Z_le_gt_dec lower e) as [| Hlow]; [assumption | exfalso].
    pose proof (pow_bound_lt (Z.pos m) 53 (e + K) (lower - 1 + K) ltac:(lia) ltac:(lia)
                  ltac:(unfold K; lia)) as Hlt.
    replace (53 + (lower - 1 + K)) with (lower + 52 + K) in Hlt by lia. lia. }
  split; [lia | assumption].
Qed.

(** Rounding moves a number by at most 2^-52 of itself. *)
Lemma rnd_error (N : Z) : 0 < N -> 2 ^ 52 * Z.abs (rnd N - N) <= N.
Proof.
  intros HN.
  destruct (rnd_cases N HN) as [[_ ->] | [Hb [m1 [Hm1 [Hbr [Hr _]]]]]].
  - rewrite Z.sub_diag. cbn. lia.
  - pose proof (pow2_pos (bits N - 53) ltac:(lia)) as Hu.
    change (2 ^ 52) with 4503599627370496 in *.
    destruct Hr as [-> | ->]; nia.
Qed.

Lemma floor_units (p : float) (m : positive) (e : Z) :
  Prim2SF p = S754_finite false m e ->
  Math_floor p = IInt (Z.pos m * 2 ^ (e + K) / 2 ^ K).
Proof.
  intros Hp. pose proof (Prim2SF_valid p) as V. rewrite Hp in V.
  pose proof (valid_finite _ _ _ V) as [He _].
  unfold Math_floor. rewrite Hp. f_equal.
  pose proof (pow2_pos K ltac:(unfold K; lia)) as HpK.
  destruct (Z_le_gt_dec 0 e) as [Hpos | Hneg].
  - rewrite Z.shiftl_mul_pow2 by assumption.
    rewrite (Z.pow_add_r 2 e K) by (unfold K; lia).
    rewrite Z.mul_assoc, Z.div_mul by lia. reflexivity.
  - rewrite Z.shiftl_div_pow2 by lia.
    pose proof (pow2_pos (- e) ltac:(lia)) as Hpe.
    pose proof (pow2_pos (e + K) ltac:(unfold K; lia)) as Hpk.
    assert (Hsplit : 2 ^ K = 2 ^ (- e) * 2 ^ (e + K)).
    { rewrite <- Z.pow_add_r by (unfold K; lia). f_equal. lia. }
    rewrite Hsplit, Z.div_mul_cancel_r by lia. reflexivity.
Qed.

Lemma floor_close (v w T : Z) : 0 < T -> Z.abs (v - w) < T -> Z.abs (v / T - w / T) <= 1.
Proof.
  intros HT Hd.
  assert (H1 : v / T <= w / T + 1).
  { rewrite <- (Z_div_plus w 1 T) by lia. apply Z.div_le_mono; lia. }
  assert (H2 : w / T <= v / T + 1).
  { rewrite <- (Z_div_plus v 1 T) by lia. apply Z.div_le_mono; lia. }
  lia.
Qed.

(** The complement [1 - f] of a fraction is the rounded exact complement. *)
Lemma complement_units (f : float) :
  in_unit_interval f = true ->
  (2 ^ K - units f = 0 /\ exists s, Prim2SF (1 - f) = S754_zero s)
  \/ (0 < 2 ^ K - units f
      /\ exists m e,
          Prim2SF (1 - f) = S754_finite false m e
          /\ Z.pos m * 2 ^ (e + K) = rnd (2 ^ K - units f)).
Proof.
  intros H. pose proof (unit_interval_units f H) as Hu.
  pose proof (unit_interval_finite_number f H) as Ff.
  pose proof (SFsub_spec (Prim2SF 1) (Prim2SF f) (Prim2SF_valid 1) (Prim2SF_valid f)
                eq_refl (is_finite_SF f Ff)) as [Hz Hnz].
  fold (units f) in *. change (scaled (Prim2SF 1)) with (2 ^ K) in *.
  rewrite sub_spec. change SF64sub with (SFsub prec emax).
  destruct (Z.eq_dec (2 ^ K - units f) 0) as [E | E]; [left; split; [exact E | now apply Hz] |].
  right. split; [lia |].
  destruct (Hnz E) as [Hfin _]. rewrite Z.abs_eq in Hfin by lia.
  assert (Hone : rnd (2 ^ K) = 2 ^ K).
  { rewrite <- (Z.mul_1_l (2 ^ K)). apply rnd_exact; [lia | cbn; lia | unfold K; lia]. }
  pose proof (rnd_monotone (2 ^ K - units f) (2 ^ K) ltac:(lia) ltac:(lia)) as Hmono.
  rewrite Hone in Hmono.
  assert (Hsmall : 2 ^ K < 2 ^ 2098) by (apply Z.pow_lt_mono_r; unfold K; lia).
  destruct (Hfin ltac:(lia)) as [m [e [Heq Hv]]].
  exists m, e. replace (2 ^ K - units f <? 0) with false in Heq
    by (symmetry; apply Z.ltb_ge; lia).
  split; assumption.
Qed.

(** The product of a length and of a fraction [t]: the rounded exact product,
    unless the product is far below one. *)
Lemma SFmul_units (mx my : positive) (ex ey n : Z) :
  valid_binary (S754_finite false mx ex) = true ->
  valid_binary (S754_finite false my ey) = true ->
  0 < n < 2 ^ 53 ->
  Z.pos mx * 2 ^ (ex + K) = n * 2 ^ K ->
  Z.pos my * 2 ^ (ey + K) <= 2 ^ K ->
  (exists m e,
      SFmul prec emax (S754_finite false mx ex) (S754_finite false my ey)
      = S754_finite false m e
      /\ Z.pos m * 2 ^ (e + K) = rnd (n * (Z.pos my * 2 ^ (ey + K))))
  \/ (n * (Z.pos my * 2 ^ (ey + K)) * 4 < 2 ^ K
      /\ (SFmul prec emax (S754_finite false mx ex) (S754_finite false my ey)
          = S754_zero false
          \/ exists m e,
              SFmul prec emax (S754_finite false mx ex) (S754_finite false my ey)
              = S754_finite false m e
              /\ Z.pos m * 2 ^ (e + K) <= 2 ^ K)).
Proof.
  intros Vx Vy Hn Hx Hy.
  pose proof (valid_finite _ _ _ Vx) as [Hex [Hbx Hnx]].
  pose proof (valid_finite _ _ _ Vy) as [Hey [Hby _]].
  pose proof (bits_spec (Z.pos my) ltac:(lia)) as [_ Hmy].
  pose proof (bits_pos (Z.pos my) ltac:(lia)) as Hby1.
  assert (Hmy53 : Z.pos my < 2 ^ 53).
  { eapply Z.lt_le_trans; [exact Hmy | apply Z.pow_le_mono_r; lia]. }
  pose proof (pow2_pos K ltac:(unfold K; lia)) as HpK.
  destruct (valid_normal mx ex (-52) Vx ltac:(lia)) as [Hbx53 Hex52].
  { replace (-52 + 52 + K) with K by lia. nia. }
  pose proof (pow2_pos (ex + K) ltac:(unfold K; lia)) as Hpx.
  pose proof (pow2_pos (ey + K) ltac:(unfold K; lia)) as Hpy.
  destruct (Z_le_gt_dec (-1074) (ex + ey)) as [Hbig | Hsmall].
  - left. cbn [SFmul xorb].
    pose proof (bits_mul_ge (Z.pos mx) (Z.pos my) ltac:(lia) ltac:(lia)) as Hbm.
    rewrite <- Pos2Z.inj_mul in Hbm.
    destruct (binary_round_aux_exact false (mx * my) (ex + ey) Hbig ltac:(lia)) as [Hfin _].
    pose proof (pow2_pos (ex + ey + K) ltac:(unfold K; lia)) as Hpxy.
    assert (Hprod : Z.pos (mx * my) * 2 ^ (ex + ey + K) = n * (Z.pos my * 2 ^ (ey + K))).
    { rewrite Pos2Z.inj_mul.
      assert (Hpow : 2 ^ (ex + ey + K) * 2 ^ K = 2 ^ (ex + K) * 2 ^ (ey + K)).
      { rewrite <- !Z.pow_add_r by (unfold K; lia). f_equal. lia. }
      assert (Heq : Z.pos mx * Z.pos my * 2 ^ (ex + ey + K) * 2 ^ K
                    = n * (Z.pos my * 2 ^ (ey + K)) * 2 ^ K).
      { rewrite <- !Z.mul_assoc, Hpow.
        replace (Z.pos mx * (Z.pos my * (2 ^ (ex + K) * 2 ^ (ey + K))))
          with ((Z.pos mx * 2 ^ (ex + K)) * (Z.pos my * 2 ^ (ey + K))) by ring.
        rewrite Hx. ring. }
      apply (Z.mul_reg_r _ _ (2 ^ K)); [lia | exact Heq]. }
    rewrite Hprod in Hfin.
    assert (Hle : n * (Z.pos my * 2 ^ (ey + K)) <= n * 2 ^ K)
      by (apply Z.mul_le_mono_nonneg_l; lia).
    assert (Hn53 : bits n <= 53) by (apply bits_lt_pow2; lia).
    pose proof (rnd_exact n K ltac:(lia) Hn53 ltac:(unfold K; lia)) as Hexact.
    pose proof (rnd_monotone (n * (Z.pos my * 2 ^ (ey + K))) (n * 2 ^ K)
                  ltac:(apply Z.mul_pos_pos; [lia | apply Z.mul_pos_pos; lia]) Hle) as Hmono.
    rewrite Hexact in Hmono.
    assert (n * 2 ^ K < 2 ^ 2098).
    { apply (pow_bound_lt n 53 K 2045); unfold K; lia. }
    apply Hfin. lia.
  - right. split.
    + assert (Ht : Z.pos my * 2 ^ (ey + K) < 2 ^ (53 + (K - 1023))).
      { apply pow_bound_lt; unfold K; lia. }
      assert (Hnt : n * (Z.pos my * 2 ^ (ey + K)) < 2 ^ 53 * 2 ^ (53 + (K - 1023))).
      { apply Z.mul_lt_mono_nonneg; lia. }
      assert (Hbound : 2 ^ 53 * 2 ^ (53 + (K - 1023)) * 4 <= 2 ^ K).
      { change 4 with (2 ^ 2). rewrite <- !Z.pow_add_r by (unfold K; lia).
        apply Z.pow_le_mono_r; unfold K; lia. }
      lia.
    + cbn [SFmul xorb]. rewrite Pos2Z.inj_mul.
      pose proof (bits_spec (Z.pos mx) ltac:(lia)) as [_ Hmx].
      rewrite Hbx53 in Hmx.
      assert (Hq : Z.pos mx * Z.pos my <= 2 ^ (- (ex + ey))).
      { assert (Z.pos mx * Z.pos my < 2 ^ 53 * 2 ^ 53) by nia.
        assert (2 ^ 53 * 2 ^ 53 <= 2 ^ (- (ex + ey))).
        { rewrite <- Z.pow_add_r by lia. apply Z.pow_le_mono_r; lia. }
        lia. }
      apply binary_round_aux_le_one; [lia | lia | congruence].
Qed.

(** For a fraction [f] and fewer than 2^50 rows, the boundary that the
    floating-point product gives is the exact one or next to it. *)
Lemma boundary_near_exact (n : nat) (f : float) :
  Z.of_nat n < 2 ^ 50 -> in_unit_interval f = true ->
  exists b,
    Math_floor (of_nat n * (1 - f)) = IInt b /\ Z.abs (b - exact_boundary n f) <= 1.
Proof.
  intros Hn Hf. unfold exact_boundary.
  assert (H5053 : 2 ^ 50 < 2 ^ 53) by reflexivity.
  pose proof (unit_interval_units f Hf) as Hu.
  pose proof (pow2_pos K ltac:(unfold K; lia)) as HpK.
  pose proof (mul_spec (of_nat n) (1 - f)) as Hmul. change SF64mul with (SFmul prec emax) in Hmul.
  pose proof (Prim2SF_valid (of_nat n)) as Vn. pose proof (Prim2SF_valid (1 - f)) as Vt.
  set (D := 2 ^ K - units f) in *.
  destruct (of_nat_spec n ltac:(lia)) as [[-> Hzero] | [Hpos [mx [ex [Hx Hxv]]]]].
  - rewrite Hzero in Hmul. exists 0. split; [| cbn; lia].
    destruct (complement_spec f Hf) as [[s Ht] | [my [ey [Ht _]]]]; rewrite Ht in Hmul;
      eapply floor_zero; exact Hmul.
  - rewrite Hx in Hmul, Vn.
    destruct (complement_units f Hf) as [[HD [s Ht]] | [HD [my [ey [Ht Htv]]]]];
      rewrite Ht in Hmul, Vt.
    + fold D in HD.
      exists 0. split; [eapply floor_zero; exact Hmul |]. rewrite HD, Z.mul_0_r. cbn. lia.
    + fold D in HD, Htv. pose proof (rnd_error D HD) as HeD.
      assert (Hone : rnd (2 ^ K) = 2 ^ K).
      { rewrite <- (Z.mul_1_l (2 ^ K)). apply rnd_exact; [lia | cbn; lia | unfold K; lia]. }
      pose proof (rnd_monotone D (2 ^ K) HD ltac:(lia)) as HtT. rewrite Hone in HtT.
      pose proof (rnd_pos D HD) as Htpos.
      set (t := rnd D) in *.
      change (2 ^ 52) with 4503599627370496 in *.
      change (2 ^ 50) with 1125899906842624 in *.
      destruct (SFmul_units mx my ex ey (Z.of_nat n) Vn Vt ltac:(lia) Hxv ltac:(lia))
        as [[m [e [Heq Hv]]] | [Htiny Hres]].
      * rewrite Htv in Hv.
        exists (Z.pos m * 2 ^ (e + K) / 2 ^ K).
        split; [apply floor_units; rewrite Hmul; exact Heq |].
        apply floor_close; [lia |]. rewrite Hv.
        assert (HP : 0 < Z.of_nat n * t) by (apply Z.mul_pos_pos; lia).
        pose proof (rnd_error (Z.of_nat n * t) HP) as HeP.
        change (2 ^ 52) with 4503599627370496 in HeP.
        assert (Hsum : Z.abs (rnd (Z.of_nat n * t) - Z.of_nat n * D)
                       <= Z.abs (rnd (Z.of_nat n * t) - Z.of_nat n * t)
                          + Z.of_nat n * Z.abs (t - D)).
        { replace (rnd (Z.of_nat n * t) - Z.of_nat n * D)
            with ((rnd (Z.of_nat n * t) - Z.of_nat n * t) + Z.of_nat n * (t - D)) by ring.
          eapply Z.le_trans; [apply Z.abs_triangle |].
          rewrite (Z.abs_mul (Z.of_nat n)), (Z.abs_eq (Z.of_nat n)) by lia. lia. }
        assert (HnT : Z.of_nat n * t <= Z.of_nat n * 2 ^ K)
          by (apply Z.mul_le_mono_nonneg_l; lia).
        assert (HnD : Z.of_nat n * D <= Z.of_nat n * 2 ^ K)
          by (apply Z.mul_le_mono_nonneg_l; lia).
        assert (H1 : 4503599627370496 * (Z.of_nat n * Z.abs (t - D)) <= Z.of_nat n * D).
        { replace (4503599627370496 * (Z.of_nat n * Z.abs (t - D)))
            with (Z.of_nat n * (4503599627370496 * Z.abs (t - D))) by ring.
          apply Z.mul_le_mono_nonneg_l; lia. }
        assert (H2 : 4503599627370496 * Z.abs (rnd (Z.of_nat n * t) - Z.of_nat n * D)
                     <= 2 * (Z.of_nat n * 2 ^ K)) by lia.
        assert (H3 : 2 * (Z.of_nat n * 2 ^ K) < 4503599627370496 * 2 ^ K).
        { replace (2 * (Z.of_nat n * 2 ^ K)) with ((2 * Z.of_nat n) * 2 ^ K) by ring.
          apply Z.mul_lt_mono_pos_r; lia. }
        assert (H4 : 4503599627370496 * Z.abs (rnd (Z.of_nat n * t) - Z.of_nat n * D)
                     < 4503599627370496 * 2 ^ K) by lia.
        apply Z.mul_lt_mono_pos_l in H4; lia.
      * rewrite Htv in Htiny.
        assert (HD2 : D <= 2 * t).
        { assert (4503599627370496 * Z.abs (t - D) <= D) by exact HeD. lia. }
        assert (HnD : Z.of_nat n * D <= Z.of_nat n * (2 * t))
          by (apply Z.mul_le_mono_nonneg_l; lia).
        assert (Hex0 : Z.of_nat n * D / 2 ^ K = 0).
        { apply Z.div_small. split; [apply Z.mul_nonneg_nonneg; lia | lia]. }
        rewrite Hex0.
        destruct Hres as [Hz | [m [e [Heq Hv]]]].
        -- exists 0. split; [eapply floor_zero; rewrite Hmul; exact Hz | cbn; lia].
        -- destruct (floor_le (of_nat n * (1 - f)) m e 1) as [b [Hb Hrange]];
             [rewrite Hmul; exact Heq | lia | lia |].
           exists b. split; [exact Hb | lia].
Qed.

#[local] Close Scope Z_scope.

(** ** Decision tree: degenerate training sets *)

(** C2. Fitting the decision tree on an empty training set raises: no label
    is observed, the table of counts has no entry, and [reduce] without an
    initial value raises a [TypeError] on the empty array, whatever the depth
    and size limits. *)
Theorem decisionTreeClassifier_empty_raises :
  forall maxDepth minSamplesSplit : Z,
    decisionTreeClassifier [] [] maxDepth minSamplesSplit = Some (Throw TypeError).
Proof.
  intros md ms. unfold decisionTreeClassifier. cbn.
  destruct ((md <=? 0)%Z || (0 <? ms)%Z); reflexivity.
Qed.

Lemma dedupe_step_same {A} (eqb : A -> A -> bool) (v : A) (ys : list A) :
  eqb v v = true ->
  (forall l, In l ys -> l = v) ->
  fold_left (fun seen x => if existsb (eqb x) seen then seen else seen ++ [x]) ys [v] = [v].
Proof.
  intros Hrefl. induction ys as [| a ys IH]; intros Hall; [reflexivity |].
  cbn [fold_left]. rewrite (Hall a (or_introl eq_refl)).
  cbn [existsb]. rewrite Hrefl. cbn [orb].
  apply IH. intros l Hl. apply Hall. now right.
Qed.

Lemma dedupe_constant {A} (eqb : A -> A -> bool) (v : A) (ys : list A) :
  eqb v v = true ->
  ys <> [] ->
  (forall l, In l ys -> l = v) ->
  dedupe eqb ys = [v].
Proof.
  intros Hrefl Hne Hall. destruct ys as [| a ys]; [congruence |].
  unfold dedupe. cbn [fold_left existsb app].
  rewrite (Hall a (or_introl eq_refl)).
  apply dedupe_step_same; [assumption |].
  intros l Hl. apply Hall. now right.
Qed.

Lemma predict_leaf (z : Z) (X : matrix) :
  predictDecisionTree X (Leaf (VInt z)) = Ok (map (fun _ => VInt z) X).
Proof.
  induction X as [| x X IH]; [reflexivity |].
  cbn [predictDecisionTree predictSingle bind map]. rewrite IH. reflexivity.
Qed.

(** C7. A tree built from a non-empty training set whose labels all equal
    [v] is the single leaf [v], and predicts [v] for every row of every input
    matrix. *)
Theorem single_label_tree_predicts_label :
  forall (X_train : matrix) (y_train : list Z) (v : Z) (maxDepth minSamplesSplit : Z)
         (X : matrix),
    y_train <> [] ->
    (forall l, In l y_train -> l = v) ->
    decisionTreeClassifier X_train y_train maxDepth minSamplesSplit = Some (Ok (Leaf (VInt v)))
    /\ predictDecisionTree X (Leaf (VInt v)) = Ok (map (fun _ => VInt v) X).
Proof.
  intros Xt y v md ms X Hne Hall. split; [| apply predict_leaf].
  unfold decisionTreeClassifier. cbn [buildTree].
  rewrite (dedupe_constant value_eqb (VInt v)); [reflexivity | | |].
  - cbn. apply Z.eqb_refl.
  - destruct y; [congruence | discriminate].
  - intros l Hl. apply in_map_iff in Hl. destruct Hl as [z [<- Hz]].
    now rewrite (Hall z Hz).
Qed.

Lemma single_label_tree_witness :
  decisionTreeClassifier [[1%float]; [2%float]] [1%Z; 1%Z] 5 2 = Some (Ok (Leaf (VInt 1)))
  /\ predictDecisionTree [[7%float]; []] (Leaf (VInt 1)) = Ok [VInt 1; VInt 1].
Proof.
  apply (single_label_tree_predicts_label [[1%float]; [2%float]] [1%Z; 1%Z] 1%Z 5%Z 2%Z
           [[7%float]; []]).
  - discriminate.
  - intros l [<- | [<- | []]]; reflexivity.
Defined.

(** ** Train/test split without shuffling *)

Lemma read_all {A} (xs : list A) (from : nat) (pre : list A) :
  length pre = from ->
  map (fun i => array_get (map Some (pre ++ xs)) i) (map Some (seq from (length xs)))
  = map Some xs.
Proof.
  revert from pre. induction xs as [| x xs IH]; intros from pre Hpre; [reflexivity |].
  cbn [length seq map]. f_equal.
  - cbn [array_get]. rewrite nth_error_map, nth_error_app2 by lia.
    replace (from - length pre) with O by lia. reflexivity.
  - replace (pre ++ x :: xs) with ((pre ++ [x]) ++ xs) by (rewrite <- app_assoc; reflexivity).
    apply IH. rewrite length_app. cbn. lia.
Qed.

Lemma read_prefix {A} (xs : list A) (n k : nat) :
  n = length xs ->
  map (fun i => array_get (map Some xs) i) (firstn k (map Some (seq 0 n)))
  = map Some (firstn k xs).
Proof.
  intros ->. rewrite <- firstn_map, <- (firstn_map Some). f_equal.
  apply (read_all xs 0 []). reflexivity.
Qed.

Lemma read_suffix {A} (xs : list A) (n k : nat) :
  n = length xs ->
  map (fun i => array_get (map Some xs) i) (skipn k (map Some (seq 0 n)))
  = map Some (skipn k xs).
Proof.
  intros ->. rewrite <- skipn_map, <- (skipn_map Some). f_equal.
  apply (read_all xs 0 []). reflexivity.
Qed.

Lemma relative_index_le (len : nat) (i : integral) : relative_index len i <= len.
Proof. destruct i as [| | z |]; cbn; try lia. destruct (z <? 0)%Z eqn:E; lia. Qed.

Lemma slice_prefix {A} (xs : list A) (e : integral) :
  slice xs (IInt 0) (Some e) = firstn (relative_index (length xs) e) xs.
Proof.
  unfold slice. cbn [relative_index Z.ltb Z.compare Z.to_nat].
  rewrite Nat.min_0_l, Nat.sub_0_r. reflexivity.
Qed.

Lemma slice_suffix {A} (xs : list A) (s : integral) :
  slice xs s None = skipn (relative_index (length xs) s) xs.
Proof.
  unfold slice. apply firstn_all2. rewrite length_skipn. lia.
Qed.

Lemma trainTestSplit_at_split_point (X : matrix) (y : list Z) (f : number) (w : World) :
  length X = length y ->
  trainTestSplit X y f false w
  = ({| X_train := map Some (firstn (split_point (length X) f) X);
        X_test := map Some (skipn (split_point (length X) f) X);
        y_train := map Some (firstn (split_point (length X) f) y);
        y_test := map Some (skipn (split_point (length X) f) y) |}, w).
Proof.
  intros Hlen. unfold trainTestSplit, seqJS, ret.
  rewrite slice_prefix, slice_suffix, length_map, length_seq.
  fold (split_point (length X) f).
  rewrite !read_prefix, !read_suffix by (reflexivity || assumption).
  reflexivity.
Qed.

Lemma split_point_nonnegative (n : nat) (f : number) (b : Z) :
  Math_floor (of_nat n * (1 - f))%float = IInt b -> (0 <= b)%Z ->
  split_point n f = Nat.min (Z.to_nat b) n.
Proof.
  intros Hb Hpos. unfold split_point. rewrite Hb. cbn [relative_index].
  destruct (Z.ltb_spec b 0); [lia | reflexivity].
Qed.

Lemma firstn_min {A} (xs : list A) (k : nat) :
  firstn (Nat.min k (length xs)) xs = firstn k xs.
Proof.
  destruct (Nat.le_ge_cases k (length xs)).
  - now rewrite Nat.min_l.
  - rewrite Nat.min_r by assumption. now rewrite !firstn_all2 by lia.
Qed.

Lemma skipn_min {A} (xs : list A) (k : nat) :
  skipn (Nat.min k (length xs)) xs = skipn k xs.
Proof.
  destruct (Nat.le_ge_cases k (length xs)).
  - now rewrite Nat.min_l.
  - rewrite Nat.min_r by assumption. now rewrite !skipn_all2 by lia.
Qed.

(** C1, as stated, fails: for 90 rows and the fraction 0.3 the floor of the
    exact product [n * (1 - f)] is 63, and the train part has 62 rows. *)
Lemma exact_boundary_counterexample :
  exact_boundary 90 0.3%float = 63%Z
  /\ X_train (fst (trainTestSplit (repeat [0%float] 90) (repeat 0%Z 90) 0.3%float false
                     {| tape := fun _ => 0%Z; cursor := 0 |}))
     <> map Some (firstn (Z.to_nat (exact_boundary 90 0.3%float)) (repeat [0%float] 90)).
Proof.
  split; [vm_compute; reflexivity |].
  intros H. apply (f_equal (@length (option (list number)))) in H.
  vm_compute in H. discriminate H.
Qed.

(** C1 (amended). Without shuffling, and for index-aligned [X] and [y], the
    split cuts both at one row [k <= n] and leaves the generator untouched:
    the train part is the first [k] rows and labels in their order, the test
    part the remaining ones, so the two parts are disjoint and together are
    the input.  The row is the boundary [b] that the code computes in
    floating point as [Math.floor(n * (1 - f))], whenever that is a
    non-negative integer.  For a fraction [0 <= f <= 1] (and fewer than 2^53
    rows) it is such an integer, at most [n], and the train part has exactly
    [b] rows; [b] is the floor of the exact product or next to it (for fewer
    than 2^50 rows).  For 100 rows and [f = 0.25] the train part is rows
    [0, 75) and the test part rows [75, 100). *)
Theorem trainTestSplit_unshuffled_partition :
  forall (X : matrix) (y : list Z) (f : number) (w : World),
    length X = length y ->
    (exists k : nat,
        k <= length X /\
        trainTestSplit X y f false w
        = ({| X_train := map Some (firstn k X); X_test := map Some (skipn k X);
              y_train := map Some (firstn k y); y_test := map Some (skipn k y) |}, w) /\
        firstn k X ++ skipn k X = X /\ firstn k y ++ skipn k y = y /\
        length (firstn k X) = length (firstn k y) /\
        length (skipn k X) = length (skipn k y))
    /\ (forall b : Z,
          Math_floor (of_nat (length X) * (1 - f))%float = IInt b -> (0 <= b)%Z ->
          trainTestSplit X y f false w
          = ({| X_train := map Some (firstn (Z.to_nat b) X);
                X_test := map Some (skipn (Z.to_nat b) X);
                y_train := map Some (firstn (Z.to_nat b) y);
                y_test := map Some (skipn (Z.to_nat b) y) |}, w))
    /\ ((Z.of_nat (length X) < 2 ^ 53)%Z -> in_unit_interval f = true ->
        exists b : Z,
          Math_floor (of_nat (length X) * (1 - f))%float = IInt b
          /\ (0 <= b <= Z.of_nat (length X))%Z
          /\ trainTestSplit X y f false w
             = ({| X_train := map Some (firstn (Z.to_nat b) X);
                   X_test := map Some (skipn (Z.to_nat b) X);
                   y_train := map Some (firstn (Z.to_nat b) y);
                   y_test := map Some (skipn (Z.to_nat b) y) |}, w)
          /\ length (firstn (Z.to_nat b) X) = Z.to_nat b
          /\ length (firstn (Z.to_nat b) y) = Z.to_nat b
          /\ ((Z.of_nat (length X) < 2 ^ 50)%Z ->
              (Z.abs (b - exact_boundary (length X) f) <= 1)%Z))
    /\ (length X = 100 ->
        trainTestSplit X y 0.25%float false w
        = ({| X_train := map Some (firstn 75 X); X_test := map Some (skipn 75 X);
              y_train := map Some (firstn 75 y); y_test := map Some (skipn 75 y) |}, w)
        /\ length (firstn 75 X) = 75 /\ length (skipn 75 X) = 25).
Proof.
  intros X y f w Hlen.
  assert (Hboundary : forall b : Z,
             Math_floor (of_nat (length X) * (1 - f))%float = IInt b -> (0 <= b)%Z ->
             trainTestSplit X y f false w
             = ({| X_train := map Some (firstn (Z.to_nat b) X);
                   X_test := map Some (skipn (Z.to_nat b) X);
                   y_train := map Some (firstn (Z.to_nat b) y);
                   y_test := map Some (skipn (Z.to_nat b) y) |}, w)).
  { intros b Hb Hpos. rewrite trainTestSplit_at_split_point by assumption.
    rewrite (split_point_nonnegative _ _ b Hb Hpos).
    rewrite firstn_min, skipn_min.
    rewrite Hlen at 1 2. rewrite firstn_min, skipn_min. reflexivity. }
  split; [| split; [| split]].
  - exists (split_point (length X) f). split; [apply relative_index_le |].
    split; [now apply trainTestSplit_at_split_point |].
    rewrite !firstn_skipn, !length_firstn, !length_skipn, Hlen. auto.
  - exact Hboundary.
  - intros Hn Hf. destruct (boundary_of_fraction (length X) f Hn Hf) as [b [Hb Hrange]].
    exists b. split; [exact Hb |]. split; [exact Hrange |].
    split; [apply Hboundary; [exact Hb | lia] |].
    split; [rewrite length_firstn; lia |]. split; [rewrite length_firstn, <- Hlen; lia |].
    intros Hn50. destruct (boundary_near_exact (length X) f Hn50 Hf) as [b' [Hb' Hnear]].
    rewrite Hb in Hb'. injection Hb' as <-. exact Hnear.
  - intros H100. rewrite trainTestSplit_at_split_point by assumption.
    rewrite H100.
    replace (split_point 100 0.25%float) with 75 by (vm_compute; reflexivity).
    rewrite length_firstn, length_skipn, H100. auto.
Qed.

Lemma trainTestSplit_unshuffled_witness :
  fst (trainTestSplit [[1]; [2]; [3]; [4]]%float [1; 0; 1; 0]%Z 0.25%float false
         {| tape := fun _ => 0%Z; cursor := 0 |})
  = {| X_train := [Some [1]; Some [2]; Some [3]]%float; X_test := [Some [4]]%float;
       y_train := [Some 1; Some 0; Some 1]%Z; y_test := [Some 0%Z] |}.
Proof.
  destruct (trainTestSplit_unshuffled_partition [[1]; [2]; [3]; [4]]%float [1; 0; 1; 0]%Z
              0.25%float {| tape := fun _ => 0%Z; cursor := 0 |} eq_refl) as [_ [Hb _]].
  rewrite (Hb 3%Z); [reflexivity | vm_compute; reflexivity | lia].
Defined.

(** ** Sets and sorting *)

Section Dedupe.

Context {A : Type} (eqb : A -> A -> bool).
Hypothesis eqb_spec : forall a b, eqb a b = true <-> a = b.

Lemma existsb_eqb_In (x : A) (seen : list A) : existsb (eqb x) seen = true <-> In x seen.
Proof.
  rewrite existsb_exists. split.
  - intros [b [Hb Heq]]. apply eqb_spec in Heq. now subst.
  - intros Hin. exists x. split; [assumption | now apply eqb_spec].
Qed.

Lemma dedupe_fold_In (xs seen : list A) (x : A) :
  In x (fold_left (fun seen x => if existsb (eqb x) seen then seen else seen ++ [x]) xs seen)
  <-> In x seen \/ In x xs.
Proof.
  revert seen. induction xs as [| a xs IH]; intros seen; cbn [fold_left].
  - cbn. tauto.
  - rewrite IH. destruct (existsb (eqb a) seen) eqn:E.
    + apply existsb_eqb_In in E. cbn. split; [tauto |].
      intros [H | [<- | H]]; auto.
    + rewrite in_app_iff. cbn. tauto.
Qed.

Lemma dedupe_fold_NoDup (xs seen : list A) :
  NoDup seen ->
  NoDup (fold_left (fun seen x => if existsb (eqb x) seen then seen else seen ++ [x]) xs seen).
Proof.
  revert seen. induction xs as [| a xs IH]; intros seen Hnd; cbn [fold_left]; [assumption |].
  apply IH. destruct (existsb (eqb a) seen) eqn:E; [assumption |].
  apply NoDup_app; [assumption | repeat constructor; intros [] | ].
  intros x Hin [<- | []]. apply existsb_eqb_In in Hin. congruence.
Qed.

Lemma dedupe_In (xs : list A) (x : A) : In x (dedupe eqb xs) <-> In x xs.
Proof. unfold dedupe. rewrite dedupe_fold_In. cbn. tauto. Qed.

Lemma dedupe_NoDup (xs : list A) : NoDup (dedupe eqb xs).
Proof. apply dedupe_fold_NoDup. constructor. Qed.

End Dedupe.

Section Sorting.

Context {A : Type} (lt : A -> A -> bool).

Lemma insert_sorted_perm (x : A) (l : list A) : Permutation (insert_sorted lt x l) (x :: l).
Proof.
  induction l as [| y l IH]; cbn [insert_sorted]; [reflexivity |].
  destruct (lt x y); [reflexivity |].
  rewrite IH. apply perm_swap.
Qed.

Lemma sort_fold_perm (xs acc : list A) :
  Permutation (fold_left (fun acc x => insert_sorted lt x acc) xs acc) (acc ++ xs).
Proof.
  revert acc. induction xs as [| x xs IH]; intros acc; cbn [fold_left].
  - now rewrite app_nil_r.
  - rewrite IH, insert_sorted_perm. apply Permutation_middle.
Qed.

Lemma sort_by_perm (xs : list A) : Permutation (sort_by lt xs) xs.
Proof. apply (sort_fold_perm xs []). Qed.

End Sorting.

Lemma insert_sorted_Z (x : Z) (l : list Z) :
  StronglySorted Z.le l -> StronglySorted Z.le (insert_sorted Z_lt_cmp x l).
Proof.
  induction 1 as [| y l Hs IH Hall]; cbn [insert_sorted].
  - repeat constructor.
  - unfold Z_lt_cmp at 1. destruct (Z.ltb_spec (x - y) 0).
    + constructor; [now constructor |].
      constructor; [lia |].
      eapply Forall_impl; [| exact Hall]. cbn. intros; lia.
    + constructor; [assumption |].
      eapply Permutation_Forall; [symmetry; apply insert_sorted_perm |].
      constructor; [lia | assumption].
Qed.

Lemma sort_fold_Z (xs acc : list Z) :
  StronglySorted Z.le acc ->
  StronglySorted Z.le (fold_left (fun acc x => insert_sorted Z_lt_cmp x acc) xs acc).
Proof.
  revert acc. induction xs as [| x xs IH]; intros acc Hs; cbn [fold_left]; [assumption |].
  apply IH. now apply insert_sorted_Z.
Qed.

Lemma sorted_NoDup_strict (l : list Z) :
  StronglySorted Z.le l -> NoDup l -> StronglySorted Z.lt l.
Proof.
  induction 1 as [| y l Hs IH Hall]; intros Hnd; constructor.
  - apply IH. now inversion Hnd.
  - inversion Hnd as [| ? ? Hnotin Hnd']; subst.
    rewrite Forall_forall in *. intros z Hz.
    specialize (Hall z Hz). assert (y <> z) by (intros ->; contradiction). lia.
Qed.

Lemma Zeqb_spec' (a b : Z) : (a =? b)%Z = true <-> a = b.
Proof. apply Z.eqb_eq. Qed.

Lemma observed_labels_In (yTrue yPred : list Z) (z : Z) :
  In z (observed_labels yTrue yPred) <-> In z yTrue \/ In z yPred.
Proof.
  unfold observed_labels. rewrite <- in_app_iff.
  rewrite <- (dedupe_In Z.eqb Zeqb_spec' (yTrue ++ yPred)).
  split; apply Permutation_in; [| symmetry]; apply sort_by_perm.
Qed.

Lemma observed_labels_NoDup (yTrue yPred : list Z) : NoDup (observed_labels yTrue yPred).
Proof.
  unfold observed_labels.
  eapply Permutation_NoDup; [symmetry; apply sort_by_perm |].
  apply (dedupe_NoDup Z.eqb Zeqb_spec').
Qed.

Lemma observed_labels_sorted (yTrue yPred : list Z) :
  StronglySorted Z.lt (observed_labels yTrue yPred).
Proof.
  apply sorted_NoDup_strict; [| apply observed_labels_NoDup].
  apply (sort_fold_Z _ []). constructor.
Qed.

(** ** Evaluation metrics *)

Lemma indexOf_In (labels : list Z) (v : Z) :
  In v labels -> exists i, indexOf labels v = Some i.
Proof.
  induction labels as [| l labels IH]; intros Hin; [destruct Hin |].
  cbn [indexOf]. destruct (Z.eqb_spec l v); [now exists O |].
  destruct Hin as [-> | Hin]; [congruence |].
  destruct (IH Hin) as [i ->]. now exists (S i).
Qed.

Lemma increment_map (f : Z -> nat) (labels : list Z) (v : Z) (i : nat) :
  NoDup labels -> indexOf labels v = Some i ->
  increment (map f labels) i
  = map (fun l => f l + if (l =? v)%Z then 1 else 0) labels.
Proof.
  revert i. induction labels as [| l labels IH]; intros i Hnd Hi; [discriminate |].
  inversion Hnd as [| ? ? Hnotin Hnd']; subst.
  cbn [indexOf] in Hi. cbn [map]. destruct (Z.eqb_spec l v) as [-> | Hne].
  - injection Hi as <-. cbn [increment]. f_equal; [lia |].
    apply map_ext_in. intros z Hz.
    destruct (Z.eqb_spec z v); [subst; contradiction | lia].
  - destruct (indexOf labels v) as [i' |] eqn:E; [| discriminate].
    injection Hi as <-. cbn [increment]. f_equal; [lia |].
    now apply IH.
Qed.

Lemma increment_cell_map (g : Z -> Z -> nat) (rows cols : list Z) (a p : Z) (ia ip : nat) :
  NoDup rows -> NoDup cols ->
  indexOf rows a = Some ia -> indexOf cols p = Some ip ->
  increment_cell (map (fun r => map (g r) cols) rows) ia ip
  = map (fun r => map (fun c => g r c + if (r =? a)%Z && (c =? p)%Z then 1 else 0) cols) rows.
Proof.
  intros Hrows Hcols Ha Hp. revert ia Hrows Ha.
  induction rows as [| r rows IH]; intros ia Hrows Ha; [discriminate |].
  inversion Hrows as [| ? ? Hnotin Hrows']; subst.
  cbn [indexOf] in Ha. cbn [map]. destruct (Z.eqb_spec r a) as [-> | Hne].
  - injection Ha as <-. cbn [increment_cell]. f_equal.
    + rewrite (increment_map _ _ p) by assumption.
      apply map_ext. intros c. reflexivity.
    + apply map_ext_in. intros z Hz. apply map_ext. intros c.
      destruct (Z.eqb_spec z a); [subst; contradiction | cbn; lia].
  - destruct (indexOf rows a) as [i' |] eqn:E; [| discriminate].
    injection Ha as <-. cbn [increment_cell]. f_equal.
    + apply map_ext. intros c. destruct (Z.eqb_spec r a); [contradiction | cbn; lia].
    + now apply IH.
Qed.

Lemma pair_count_snoc (a p t q : Z) (pairs : list (Z * Z)) :
  pair_count a p (pairs ++ [(t, q)])
  = pair_count a p pairs + if (a =? t)%Z && (p =? q)%Z then 1 else 0.
Proof.
  unfold pair_count. rewrite filter_app, length_app. cbn [filter fst snd].
  rewrite (Z.eqb_sym t a), (Z.eqb_sym q p).
  destruct ((a =? t)%Z && (p =? q)%Z); reflexivity.
Qed.

(** The counters after the pairs [done] have been tallied. *)
Lemma tally_fold (labels yPred yTrue : list Z) (done : list (Z * Z)) (i : nat) :
  NoDup labels ->
  (forall z, In z yTrue -> In z labels) ->
  (forall z, In z yPred -> In z labels) ->
  fst (fold_left (tally labels yPred) yTrue
         (map (fun a => map (fun p => pair_count a p done) labels) labels, i))
  = map (fun a => map (fun p => pair_count a p (done ++ combine yTrue (skipn i yPred))) labels)
        labels.
Proof.
  intros Hnd HT HP. revert done i.
  induction yTrue as [| t yTrue IH]; intros done i; cbn [fold_left].
  - cbn. now rewrite app_nil_r.
  - unfold tally at 2.
    destruct (indexOf_In labels t (HT t (or_introl eq_refl))) as [ia Hia]. rewrite Hia.
    destruct (nth_error yPred i) as [q |] eqn:Hq.
    + assert (Hin : In q labels) by (apply HP; eapply nth_error_In; eassumption).
      destruct (indexOf_In labels q Hin) as [ip Hip]. rewrite Hip.
      rewrite (increment_cell_map _ _ _ t q) by assumption.
      assert (Hskip : skipn i yPred = q :: skipn (S i) yPred).
      { clear - Hq. revert i Hq. induction yPred as [| y yPred IHy]; intros [| i] Hq;
          try discriminate; cbn in *.
        - now injection Hq as ->.
        - now apply IHy. }
      rewrite Hskip. cbn [combine].
      replace (done ++ (t, q) :: combine yTrue (skipn (S i) yPred))
        with ((done ++ [(t, q)]) ++ combine yTrue (skipn (S i) yPred))
        by (rewrite <- app_assoc; reflexivity).
      rewrite <- IH by (intros; apply HT; now right).
      do 3 f_equal. apply map_ext. intros a. apply map_ext. intros p.
      now rewrite pair_count_snoc.
    + apply nth_error_None in Hq. rewrite (skipn_all2 yPred) by assumption.
      rewrite combine_nil, app_nil_r.
      rewrite IH by (intros; apply HT; now right).
      rewrite (skipn_all2 yPred) by lia. now rewrite combine_nil, app_nil_r.
Qed.

Lemma confusionMatrix_counts (yTrue yPred : list Z) :
  confusionMatrix yTrue yPred
  = map (fun a => map (fun p => pair_count a p (aligned_pairs yTrue yPred))
                      (observed_labels yTrue yPred))
        (observed_labels yTrue yPred).
Proof.
  unfold confusionMatrix.
  change (map (fun _ => map (fun _ => O) (observed_labels yTrue yPred))
              (observed_labels yTrue yPred))
    with (map (fun a : Z => map (fun p : Z => pair_count a p [])
                             (observed_labels yTrue yPred))
              (observed_labels yTrue yPred)).
  rewrite tally_fold.
  - reflexivity.
  - apply observed_labels_NoDup.
  - intros z Hz. apply observed_labels_In. now left.
  - intros z Hz. apply observed_labels_In. now right.
Qed.

Lemma matching_agreements (yTrue yPred : list Z) (i : nat) :
  length (matching_from i yTrue yPred) = agreements (combine yTrue (skipn i yPred)).
Proof.
  revert i. induction yTrue as [| t yTrue IH]; intros i; [reflexivity |].
  cbn [matching_from]. destruct (nth_error yPred i) as [q |] eqn:Hq.
  - assert (Hskip : skipn i yPred = q :: skipn (S i) yPred).
    { clear - Hq. revert i Hq. induction yPred as [| y yPred IHy]; intros [| i] Hq;
        try discriminate; cbn in *.
      - now injection Hq as ->.
      - now apply IHy. }
    rewrite Hskip. cbn [combine]. unfold agreements. cbn [filter fst snd].
    destruct (t =? q)%Z; cbn [length]; rewrite IH; reflexivity.
  - apply nth_error_None in Hq. rewrite (skipn_all2 yPred) by assumption.
    rewrite combine_nil, IH, (skipn_all2 yPred) by lia. now rewrite combine_nil.
Qed.

(** C8. On true labels [0,0,1,1] and predictions [0,1,1,0] the confusion
    matrix is [[1,1],[1,1]] over the label order [0,1] and the accuracy is
    0.5.  In general the labels of the matrix are the distinct labels of both
    vectors in strictly ascending order, cell [i][j] counts the aligned pairs
    whose true label is the i-th and whose predicted label is the j-th of
    them, and the accuracy is the number of aligned positions with equal
    labels divided by the number of true labels, 0 when there is none. *)
Theorem evaluation_metrics :
  confusionMatrix [0; 0; 1; 1]%Z [0; 1; 1; 0]%Z = [[1; 1]; [1; 1]]
  /\ observed_labels [0; 0; 1; 1]%Z [0; 1; 1; 0]%Z = [0; 1]%Z
  /\ calculateAccuracy [0; 0; 1; 1]%Z [0; 1; 1; 0]%Z = 0.5%float
  /\ forall yTrue yPred : list Z,
      StronglySorted Z.lt (observed_labels yTrue yPred)
      /\ (forall z, In z (observed_labels yTrue yPred) <-> In z yTrue \/ In z yPred)
      /\ confusionMatrix yTrue yPred
         = map (fun a => map (fun p => pair_count a p (aligned_pairs yTrue yPred))
                             (observed_labels yTrue yPred))
               (observed_labels yTrue yPred)
      /\ calculateAccuracy yTrue yPred
         = match yTrue with
           | [] => 0%float
           | _ => (of_nat (agreements (aligned_pairs yTrue yPred)) / of_nat (length yTrue))%float
           end.
Proof.
  split; [reflexivity |]. split; [reflexivity |]. split; [reflexivity |].
  intros yTrue yPred.
  split; [apply observed_labels_sorted |].
  split; [apply observed_labels_In |].
  split; [apply confusionMatrix_counts |].
  unfold calculateAccuracy. destruct yTrue as [| t yTrue]; [reflexivity |].
  now rewrite matching_agreements.
Qed.

(** ** Property keys *)

#[local] Open Scope string_scope.



Lemma parse_digits_uint (u : Decimal.uint) (acc : Z) :
  parse_digits 10 (DecimalString.NilEmpty.string_of_uint u) acc = uint_value u acc.
Proof.
  revert acc. induction u; intros acc; cbn [DecimalString.NilEmpty.string_of_uint uint_value];
    [reflexivity | ..]; cbn [parse_digits]; apply IHu.
Qed.

Lemma uint_value_pos (u : Decimal.uint) (a : positive) :
  uint_value u (Z.pos a) = Z.pos (Pos.of_uint_acc u a).
Proof.
  revert a. induction u; intros a; cbn [uint_value Pos.of_uint_acc]; [reflexivity | ..];
    rewrite <- IHu; f_equal; lia.
Qed.

Lemma uint_value_zero (u : Decimal.uint) : uint_value u 0 = Z.of_N (Pos.of_uint u).
Proof.
  induction u; cbn [uint_value Pos.of_uint]; [reflexivity | exact IHu | ..];
    cbn [Z.mul Z.add]; rewrite uint_value_pos; reflexivity.
Qed.

Lemma parse_digits_pos (p : positive) :
  parse_digits 10 (DecimalString.NilEmpty.string_of_uint (Pos.to_uint p)) 0 = Z.pos p.
Proof.
  rewrite parse_digits_uint, uint_value_zero, DecimalPos.Unsigned.of_to. reflexivity.
Qed.

Lemma string_of_uint_digits (u : Decimal.uint) :
  all_digits (DecimalString.NilEmpty.string_of_uint u) = true.
Proof. induction u; cbn; auto. Qed.

Lemma parseInt_digits (s : string) :
  s <> "" -> all_digits s = true ->
  parseInt s = VInt (parse_digits 10 s 0)
  /\ parseInt (String "-" s) = VInt (- parse_digits 10 s 0).
Proof.
  intros Hne Hd. destruct s as [| c s']; [congruence |].
  cbn [all_digits] in Hd.
  destruct c as [[] [] [] [] [] [] [] []]; cbn in Hd; try discriminate Hd;
    try (split; reflexivity).
  destruct s' as [| c' s'']; [split; reflexivity |].
  cbn [all_digits] in Hd.
  destruct c' as [[] [] [] [] [] [] [] []]; cbn in Hd; try discriminate Hd;
    split; reflexivity.
Qed.

Lemma to_uint_string_nonempty (p : positive) :
  DecimalString.NilEmpty.string_of_uint (Pos.to_uint p) <> "".
Proof.
  pose proof (DecimalPos.Unsigned.to_uint_nonnil p) as Hnn.
  destruct (Pos.to_uint p); [congruence | ..]; discriminate.
Qed.

Lemma parseInt_decimal (z : Z) : parseInt (decimal z) = VInt z.
Proof.
  destruct z as [| p | p]; [reflexivity | |]; cbn [decimal].
  - destruct (parseInt_digits _ (to_uint_string_nonempty p) (string_of_uint_digits _))
      as [-> _].
    now rewrite parse_digits_pos.
  - destruct (parseInt_digits _ (to_uint_string_nonempty p) (string_of_uint_digits _))
      as [_ ->].
    now rewrite parse_digits_pos.
Qed.

Lemma decimal_inj (a b : Z) : decimal a = decimal b -> a = b.
Proof.
  intros H. pose proof (parseInt_decimal a) as Ha. rewrite H, parseInt_decimal in Ha.
  now injection Ha.
Qed.

Lemma decimal_eqb (a b : Z) : String.eqb (decimal a) (decimal b) = (a =? b)%Z.
Proof.
  destruct (Z.eqb_spec a b) as [-> | Hne]; [apply String.eqb_refl |].
  apply String.eqb_neq. intros H. now apply decimal_inj in H.
Qed.

(** The labels whose key is an array index. *)
Lemma array_index_decimal (z : Z) :
  array_index (decimal z) = if (0 <=? z)%Z && (z <? 4294967295)%Z then Some z else None.
Proof.
  unfold array_index. destruct z as [| p | p].
  - reflexivity.
  - cbn [decimal]. rewrite parse_digits_pos.
    change (DecimalString.NilEmpty.string_of_uint (Pos.to_uint p)) with (decimal (Z.pos p)).
    rewrite String.eqb_refl. reflexivity.
  - reflexivity.
Qed.

(** ** The table of counts *)

#[local] Close Scope string_scope.

Lemma toKey_plain (z : Z) : plain_label z -> toKey (VInt z) = decimal z.
Proof.
  unfold plain_label, toKey, Number_toString. intros H.
  destruct (Z.ltb_spec (Z.abs z) (10 ^ 21)); [reflexivity | lia].
Qed.

Lemma dedupe_snoc {A} (eqb : A -> A -> bool) (xs : list A) (a : A) :
  dedupe eqb (xs ++ [a])
  = if existsb (eqb a) (dedupe eqb xs) then dedupe eqb xs else dedupe eqb xs ++ [a].
Proof. unfold dedupe. rewrite fold_left_app. reflexivity. Qed.

Lemma count_labels_snoc (ys : list value) (v : value) :
  count_labels (ys ++ [v]) = count_step (count_labels ys) v.
Proof. unfold count_labels. rewrite fold_left_app. reflexivity. Qed.

Section CountTable.

Variable f : Z -> nat.

Let entry (z : Z) : string * nat := (decimal z, f z).

Lemma lookup_entry_in (a : Z) (l : list Z) :
  In a l -> lookup (decimal a) (map entry l) = Some (f a).
Proof.
  induction l as [| z l IH]; intros Hin; [destruct Hin |].
  cbn [map lookup entry]. rewrite decimal_eqb.
  destruct (Z.eqb_spec z a) as [-> | Hne]; [reflexivity |].
  destruct Hin as [-> | Hin]; [congruence | now apply IH].
Qed.

Lemma lookup_entry_notin (a : Z) (l : list Z) :
  ~ In a l -> lookup (decimal a) (map entry l) = None.
Proof.
  induction l as [| z l IH]; intros Hnotin; [reflexivity |].
  cbn [map lookup entry]. rewrite decimal_eqb.
  destruct (Z.eqb_spec z a) as [-> | Hne]; [exfalso; apply Hnotin; now left |].
  apply IH. intros H. apply Hnotin. now right.
Qed.

Lemma store_entry_notin (a : Z) (c : nat) (l : list Z) :
  ~ In a l -> store (decimal a) c (map entry l) = map entry l ++ [(decimal a, c)].
Proof.
  induction l as [| z l IH]; intros Hnotin; [reflexivity |].
  cbn [map store entry app]. rewrite decimal_eqb.
  destruct (Z.eqb_spec z a) as [-> | Hne]; [exfalso; apply Hnotin; now left |].
  fold (entry z). f_equal. apply IH. intros H. apply Hnotin. now right.
Qed.

Lemma store_entry_in (a : Z) (c : nat) (l : list Z) :
  NoDup l -> In a l ->
  store (decimal a) c (map entry l)
  = map (fun z => (decimal z, if (z =? a)%Z then c else f z)) l.
Proof.
  induction l as [| z l IH]; intros Hnd Hin; [destruct Hin |].
  inversion Hnd as [| ? ? Hnotin Hnd']; subst.
  cbn [map store entry]. rewrite decimal_eqb.
  destruct (Z.eqb_spec z a) as [-> | Hne].
  - f_equal. apply map_ext_in. intros q Hq. unfold entry.
    destruct (Z.eqb_spec q a); [subst; contradiction | reflexivity].
  - f_equal. destruct Hin as [-> | Hin]; [congruence | now apply IH].
Qed.

End CountTable.

Lemma occurrences_snoc (pre : list Z) (a z : Z) :
  occurrences z (pre ++ [a]) = occurrences z pre + if (z =? a)%Z then 1 else 0.
Proof.
  unfold occurrences. rewrite count_occ_app. cbn [count_occ].
  destruct (Z.eq_dec a z) as [-> | Hne].
  - now rewrite Z.eqb_refl.
  - destruct (Z.eqb_spec z a); [congruence | reflexivity].
Qed.

Lemma occurrences_notin (pre : list Z) (a : Z) : ~ In a pre -> occurrences a pre = 0.
Proof. intros H. now apply count_occ_not_In. Qed.

(** The table built from plain labels: one entry per distinct label, in
    order of first occurrence, holding the number of its occurrences. *)
Lemma count_labels_plain (y : list Z) :
  Forall plain_label y ->
  count_labels (map VInt y)
  = map (fun z => (decimal z, occurrences z y)) (dedupe Z.eqb y).
Proof.
  induction y as [| a pre IH] using rev_ind; intros Hplain; [reflexivity |].
  apply Forall_app in Hplain. destruct Hplain as [Hpre Ha]. inversion_clear Ha as [| ? ? Hpa _].
  rewrite map_app. cbn [map]. rewrite count_labels_snoc, dedupe_snoc.
  unfold count_step. rewrite (toKey_plain a Hpa), (IH Hpre).
  destruct (existsb (Z.eqb a) (dedupe Z.eqb pre)) eqn:E.
  - apply (existsb_eqb_In Z.eqb Zeqb_spec') in E.
    rewrite (lookup_entry_in (fun z => occurrences z pre)) by assumption.
    rewrite (store_entry_in (fun z => occurrences z pre))
      by (assumption || apply (dedupe_NoDup Z.eqb Zeqb_spec')).
    apply map_ext. intros z. rewrite occurrences_snoc.
    destruct (Z.eqb_spec z a) as [-> | _]; f_equal; lia.
  - assert (Hnotin : ~ In a (dedupe Z.eqb pre)).
    { intros H. apply (existsb_eqb_In Z.eqb Zeqb_spec') in H. congruence. }
    rewrite (lookup_entry_notin (fun z => occurrences z pre)) by assumption.
    rewrite (store_entry_notin (fun z => occurrences z pre)) by assumption.
    rewrite map_app. cbn [map]. f_equal.
    + apply map_ext_in. intros z Hz. rewrite occurrences_snoc.
      destruct (Z.eqb_spec z a) as [-> | _]; [contradiction | f_equal; lia].
    + rewrite occurrences_snoc, Z.eqb_refl, occurrences_notin; [reflexivity |].
      intros H. apply Hnotin. now apply (dedupe_In Z.eqb Zeqb_spec').
Qed.

Lemma filter_map_comm {A B} (p : B -> bool) (g : A -> B) (l : list A) :
  filter p (map g l) = map g (filter (fun x => p (g x)) l).
Proof.
  induction l as [| x l IH]; [reflexivity |].
  cbn [map filter]. destruct (p (g x)); cbn [map]; now rewrite IH.
Qed.

Section SortMap.

Context {A B : Type} (ltA : A -> A -> bool) (ltB : B -> B -> bool) (g : A -> B).
Variable P : A -> Prop.
Hypothesis lt_compat : forall a b, P a -> P b -> ltB (g a) (g b) = ltA a b.

Lemma insert_sorted_map (x : A) (l : list A) :
  P x -> Forall P l ->
  insert_sorted ltB (g x) (map g l) = map g (insert_sorted ltA x l).
Proof.
  intros Hx. induction 1 as [| y l Hy Hl IH]; [reflexivity |].
  cbn [map insert_sorted]. rewrite lt_compat by assumption.
  destruct (ltA x y); cbn [map]; [reflexivity | now rewrite IH].
Qed.

Lemma insert_sorted_Forall (x : A) (l : list A) :
  P x -> Forall P l -> Forall P (insert_sorted ltA x l).
Proof.
  intros Hx Hl. eapply Permutation_Forall; [symmetry; apply insert_sorted_perm |].
  now constructor.
Qed.

Lemma sort_fold_map (xs acc : list A) :
  Forall P xs -> Forall P acc ->
  fold_left (fun acc x => insert_sorted ltB x acc) (map g xs) (map g acc)
  = map g (fold_left (fun acc x => insert_sorted ltA x acc) xs acc).
Proof.
  intros Hxs. revert acc. induction Hxs as [| x xs Hx Hxs IH]; intros acc Hacc; [reflexivity |].
  cbn [map fold_left]. rewrite insert_sorted_map by assumption.
  apply IH. now apply insert_sorted_Forall.
Qed.

Lemma sort_by_map (xs : list A) :
  Forall P xs -> sort_by ltB (map g xs) = map g (sort_by ltA xs).
Proof. intros H. apply (sort_fold_map xs []); [assumption | constructor]. Qed.

End SortMap.

Lemma Object_entries_plain (c : Z -> nat) (l : list Z) :
  Object_entries (map (fun z => (decimal z, c z)) l)
  = map (fun z => (decimal z, c z))
        (sort_by Z_lt_cmp (filter index_label l)
         ++ filter (fun z => negb (index_label z)) l).
Proof.
  unfold Object_entries. rewrite !filter_map_comm, map_app. f_equal.
  - rewrite (filter_ext _ index_label).
    + apply (sort_by_map Z_lt_cmp index_lt _ (fun z => index_label z = true)).
      * intros a b Ha Hb. unfold index_lt. cbn [fst].
        rewrite !array_index_decimal. fold (index_label a) (index_label b).
        rewrite Ha, Hb. unfold Z_lt_cmp.
        destruct (Z.ltb_spec a b), (Z.ltb_spec (a - b) 0); reflexivity || lia.
      * apply Forall_forall. intros z Hz. now apply filter_In in Hz.
    + intros z. unfold is_index. cbn [fst]. rewrite array_index_decimal.
      fold (index_label z). now destruct (index_label z).
  - apply f_equal, filter_ext. intros z. unfold is_index. cbn [fst].
    rewrite array_index_decimal. fold (index_label z). now destruct (index_label z).
Qed.

(** [reduce((a, b) => a[1] > b[1] ? a : b)] keeps the last of the heaviest
    elements. *)
Lemma reduce_last_max {A} (w : A -> nat) (es : list A) (e : A) :
  exists before after,
    e :: es = before ++ fold_left (fun a b => if w b <? w a then a else b) es e :: after
    /\ (forall x, In x before ->
                  w x <= w (fold_left (fun a b => if w b <? w a then a else b) es e))
    /\ (forall x, In x after ->
                  w x < w (fold_left (fun a b => if w b <? w a then a else b) es e)).
Proof.
  revert e. induction es as [| b es IH]; intros e.
  - exists [], []. cbn. repeat split; intros x [].
  - cbn [fold_left]. destruct (Nat.ltb_spec (w b) (w e)) as [Hlt | Hge].
    + destruct (IH e) as [before [after [Heq [Hb Ha]]]].
      set (r := fold_left (fun a b => if w b <? w a then a else b) es e) in *.
      destruct before as [| e' before].
      * cbn in Heq. injection Heq as Hr Hes. exists [], (b :: after).
        cbn. rewrite <- Hr, <- Hes. repeat split; [intros x [] |].
        intros x [<- | Hx]; [assumption | rewrite Hr; apply Ha; now rewrite <- Hes].
      * cbn in Heq. injection Heq as He' Hes. subst e'.
        exists (e :: b :: before), after. cbn. rewrite Hes. repeat split.
        -- intros x [<- | [<- | Hx]].
           ++ apply Hb. now left.
           ++ specialize (Hb e (or_introl eq_refl)). lia.
           ++ apply Hb. now right.
        -- assumption.
    + destruct (IH b) as [before [after [Heq [Hb Ha]]]].
      set (r := fold_left (fun a b => if w b <? w a then a else b) es b) in *.
      exists (e :: before), after. cbn. rewrite Heq. repeat split; [| assumption].
      intros x [<- | Hx]; [| now apply Hb].
      destruct before as [| b' before].
      * cbn in Heq. injection Heq as Hr _. rewrite <- Hr. assumption.
      * cbn in Heq. injection Heq as Hb' _. subst b'.
        specialize (Hb b (or_introl eq_refl)). lia.
Qed.

Lemma reduce_map {A B} (g : A -> B) (wA : A -> nat) (wB : B -> nat) (es : list A) (e : A) :
  (forall a, wB (g a) = wA a) ->
  fold_left (fun a b => if wB b <? wB a then a else b) (map g es) (g e)
  = g (fold_left (fun a b => if wA b <? wA a then a else b) es e).
Proof.
  intros Hw. revert e. induction es as [| b es IH]; intros e; [reflexivity |].
  cbn [map fold_left]. rewrite !Hw. destruct (wA b <? wA e); apply IH.
Qed.

Lemma label_enumeration_In (y : list Z) (z : Z) : In z (label_enumeration y) <-> In z y.
Proof.
  unfold label_enumeration. rewrite in_app_iff.
  rewrite <- (dedupe_In Z.eqb Zeqb_spec' y z).
  assert (Hs : In z (sort_by Z_lt_cmp (filter index_label (dedupe Z.eqb y)))
               <-> In z (filter index_label (dedupe Z.eqb y))).
  { split; apply Permutation_in; [| symmetry]; apply sort_by_perm. }
  rewrite Hs, !filter_In. destruct (index_label z); cbn; intuition congruence.
Qed.

(** The majority vote on plain labels: a label that no label outnumbers, and
    the last such label in the order of enumeration. *)
Lemma majority_plain (y : list Z) :
  y <> [] -> Forall plain_label y ->
  exists p before after,
    label_enumeration y = before ++ p :: after
    /\ (forall q, In q before -> occurrences q y <= occurrences p y)
    /\ (forall q, In q after -> occurrences q y < occurrences p y)
    /\ majority (map VInt y) = Ok (VInt p).
Proof.
  intros Hne Hplain. unfold majority.
  rewrite (count_labels_plain y Hplain), Object_entries_plain.
  fold (label_enumeration y).
  destruct (label_enumeration y) as [| z zs] eqn:Henum.
  - exfalso. destruct y as [| a y]; [congruence |].
    assert (H : In a (label_enumeration (a :: y))) by (apply label_enumeration_In; now left).
    rewrite Henum in H. destruct H.
  - cbn [map].
    rewrite (reduce_map (fun z => (decimal z, occurrences z y))
                        (fun z => occurrences z y) snd) by reflexivity.
    cbn [fst]. rewrite parseInt_decimal.
    destruct (reduce_last_max (fun z => occurrences z y) zs z)
      as [before [after [Heq [Hb Ha]]]].
    eexists _, before, after. repeat split; eassumption.
Qed.

(** ** Decision tree: majority leaves *)

Lemma dedupe_fold_VInt (y seen : list Z) :
  fold_left (fun seen x => if existsb (value_eqb x) seen then seen else seen ++ [x])
            (map VInt y) (map VInt seen)
  = map VInt (fold_left (fun seen x => if existsb (Z.eqb x) seen then seen else seen ++ [x])
                        y seen).
Proof.
  revert seen. induction y as [| a y IH]; intros seen; [reflexivity |].
  cbn [map fold_left].
  assert (He : existsb (value_eqb (VInt a)) (map VInt seen) = existsb (Z.eqb a) seen).
  { clear. induction seen as [| s seen IHs]; [reflexivity |]. cbn. now rewrite IHs. }
  rewrite He. destruct (existsb (Z.eqb a) seen); [apply IH |].
  rewrite <- IH, map_app. reflexivity.
Qed.

Lemma dedupe_map_VInt (y : list Z) :
  dedupe value_eqb (map VInt y) = map VInt (dedupe Z.eqb y).
Proof. apply (dedupe_fold_VInt y []). Qed.

Lemma dedupe_nonempty (y : list Z) : y <> [] -> dedupe Z.eqb y <> [].
Proof.
  intros Hne Hd. destruct y as [| a y]; [congruence |].
  assert (H : In a (dedupe Z.eqb (a :: y))) by (apply (dedupe_In Z.eqb Zeqb_spec'); now left).
  rewrite Hd in H. destruct H.
Qed.

(** C4 (amended). With [maxDepth = 0] and a non-empty vector of plain integer
    labels, the tree is a single leaf whatever the features are.  Its
    prediction [p] is a label that no other label outnumbers; among the
    labels with as many occurrences it is the one enumerated last by the table
    of counts (array-index labels ascending, then the others by first
    occurrence): every label enumerated after [p] has strictly fewer
    occurrences.  [predictDecisionTree] returns [p] for every row. *)
Theorem depth_zero_majority_leaf :
  forall (X_train : matrix) (y_train : list Z) (minSamplesSplit : Z) (X : matrix),
    y_train <> [] ->
    Forall plain_label y_train ->
    exists (p : Z) (before after : list Z),
      label_enumeration y_train = before ++ p :: after
      /\ (forall q, In q before -> occurrences q y_train <= occurrences p y_train)
      /\ (forall q, In q after -> occurrences q y_train < occurrences p y_train)
      /\ decisionTreeClassifier X_train y_train 0 minSamplesSplit = Some (Ok (Leaf (VInt p)))
      /\ predictDecisionTree X (Leaf (VInt p)) = Ok (map (fun _ => VInt p) X).
Proof.
  intros Xt y ms X Hne Hplain.
  unfold decisionTreeClassifier. cbn [buildTree]. rewrite dedupe_map_VInt.
  destruct (dedupe Z.eqb y) as [| l [| l2 rest]] eqn:Hd.
  - now apply dedupe_nonempty in Hd.
  - exists l, [], []. unfold label_enumeration. rewrite Hd. cbn [filter].
    repeat split; try (intros q []); try apply predict_leaf.
    destruct (index_label l); reflexivity.
  - destruct (majority_plain y Hne Hplain) as [p [before [after [He [Hb [Ha Hm]]]]]].
    exists p, before, after. repeat split; try assumption; try apply predict_leaf.
    cbn [map Z.leb Z.compare orb]. unfold majority_leaf. rewrite Hm. reflexivity.
Qed.

Lemma depth_zero_majority_witness :
  exists (p : Z) (before after : list Z),
    label_enumeration [1; 0; 1]%Z = before ++ p :: after
    /\ (forall q, In q before -> occurrences q [1; 0; 1]%Z <= occurrences p [1; 0; 1]%Z)
    /\ (forall q, In q after -> occurrences q [1; 0; 1]%Z < occurrences p [1; 0; 1]%Z)
    /\ decisionTreeClassifier [[1]; [2]; [3]]%float [1; 0; 1]%Z 0 2 = Some (Ok (Leaf (VInt p)))
    /\ predictDecisionTree [[5]]%float (Leaf (VInt p)) = Ok (map (fun _ => VInt p) [[5]]%float).
Proof.
  apply (depth_zero_majority_leaf [[1]; [2]; [3]]%float [1; 0; 1]%Z 2%Z [[5]]%float).
  - discriminate.
  - repeat constructor; unfold plain_label; cbn; lia.
Defined.

(** C4, as stated, fails: on the labels [0, 1] the two labels tie, the first
    label enumerated is 0, and the leaf predicts 1. *)
Lemma depth_zero_tie_counterexample :
  ~ (exists p : Z,
        first_majority [0; 1]%Z = Some p
        /\ decisionTreeClassifier [[0]; [0]]%float [0; 1]%Z 0 2 = Some (Ok (Leaf (VInt p)))).
Proof.
  intros [p [Hfirst Htree]].
  vm_compute in Hfirst. vm_compute in Htree. congruence.
Qed.

(** ** Decision tree: the recursion *)


Lemma split_from_spec (X : matrix) (feature : nat) (threshold : number) (idx : nat) :
  length (fst (split_from idx X feature threshold))
  + length (snd (split_from idx X feature threshold)) = length X
  /\ Forall (fun i => i < idx + length X) (fst (split_from idx X feature threshold))
  /\ Forall (fun i => i < idx + length X) (snd (split_from idx X feature threshold)).
Proof.
  revert idx. induction X as [| row X IH]; intros idx; cbn [split_from].
  - cbn. auto.
  - destruct (IH (S idx)) as [Hlen [Hl Hr]].
    destruct (split_from (S idx) X feature threshold) as [l r].
    cbn [fst snd length] in *.
    assert (Hw : forall i, i < S idx + length X -> i < idx + S (length X)) by (intros; lia).
    destruct (get row feature <=? threshold)%float; cbn [fst snd length];
      repeat split; try lia;
      try (constructor; [lia |]); eapply Forall_impl; try eassumption; exact Hw.
Qed.

Lemma try_split_keeps (X : matrix) (y : list value) (cur : number) (feature : nat)
    (best : Best) (threshold : number) :
  bestGain best = 0%float \/ proper_split X (bestFeature best) (bestThreshold best) ->
  bestGain (try_split X y cur feature best threshold) = 0%float
  \/ proper_split X (bestFeature (try_split X y cur feature best threshold))
                  (bestThreshold (try_split X y cur feature best threshold)).
Proof.
  intros Hinv. unfold try_split.
  destruct (split_indices X feature threshold) as [l r] eqn:E.
  destruct l as [| i l]; [assumption |]. destruct r as [| j r]; [assumption |].
  match goal with |- context [if ?c then _ else _] => destruct c end; [| assumption].
  right. cbn [bestFeature bestThreshold]. unfold proper_split. rewrite E.
  split; discriminate.
Qed.

Lemma fold_left_keeps {A B} (P : A -> Prop) (step : A -> B -> A) (xs : list B) (a : A) :
  (forall a b, P a -> P (step a b)) -> P a -> P (fold_left step xs a).
Proof.
  intros Hstep. revert a. induction xs as [| x xs IH]; intros a Ha; [assumption |].
  cbn [fold_left]. apply IH. now apply Hstep.
Qed.

(** A best gain other than zero was recorded for a proper split. *)
Lemma find_best_split_proper (X : matrix) (y : list value) :
  (bestGain (find_best_split X y) =? 0)%float = false ->
  proper_split X (bestFeature (find_best_split X y)) (bestThreshold (find_best_split X y)).
Proof.
  intros Hgain.
  assert (Hinv : bestGain (find_best_split X y) = 0%float
                 \/ proper_split X (bestFeature (find_best_split X y))
                                 (bestThreshold (find_best_split X y))).
  { unfold find_best_split.
    apply (fold_left_keeps
             (fun best => bestGain best = 0%float
                          \/ proper_split X (bestFeature best) (bestThreshold best))).
    - intros best feature Hbest.
      apply (fold_left_keeps
               (fun best => bestGain best = 0%float
                            \/ proper_split X (bestFeature best) (bestThreshold best)));
        [| assumption].
      intros b t Hb. now apply try_split_keeps.
    - now left. }
  destruct Hinv as [Hz | Hp]; [| assumption].
  rewrite Hz in Hgain. discriminate Hgain.
Qed.










(** ** Prediction has no hidden state *)

(** The shuffled split, by contrast, consumes the generator. *)
Lemma shuffled_split_not_deterministic :
  ~ deterministic (trainTestSplit [[1]; [2]; [3]; [4]]%float [1; 0; 1; 0]%Z 0.25%float true).
Proof.
  intros H.
  destruct (H {| tape := fun _ => 0%Z; cursor := 0 |} {| tape := fun _ => 0%Z; cursor := 0 |})
    as [_ Hw].
  apply (f_equal cursor) in Hw. vm_compute in Hw. discriminate Hw.
Qed.

Lemma skipn_step {A} (xs : list A) (i : nat) (x : A) :
  nth_error xs i = Some x -> skipn i xs = x :: skipn (S i) xs.
Proof.
  revert i. induction xs as [| a xs IH]; intros i H; [destruct i; discriminate H |].
  destruct i as [| i]; [injection H as ->; reflexivity |].
  cbn [nth_error] in H. rewrite !skipn_cons. now apply IH.
Qed.

Lemma reduce_turns_runs (s : Store) (x weights : address) (xs ws : list number) :
  number_arrays s x = Some xs -> number_arrays s weights = Some ws ->
  forall (turns i : nat) (sum : number),
    i + turns = length xs ->
    reduce_turns i turns x weights sum s = (Some (Ok (dot_from i (skipn i xs) ws sum)), s).
Proof.
  intros Hx Hw. induction turns as [| turns IH]; intros i sum Hlen.
  - rewrite skipn_all2 by lia. reflexivity.
  - cbn [reduce_turns]. unfold and_then, object_at. rewrite Hx.
    destruct (nth_error xs i) as [xi |] eqn:Hi.
    + rewrite Hw, IH by lia. rewrite (skipn_step xs i xi Hi). reflexivity.
    + apply nth_error_None in Hi. lia.
Qed.

Lemma Array_reduce_runs (s : Store) (x weights : address) (xs ws : list number) :
  number_arrays s x = Some xs -> number_arrays s weights = Some ws ->
  Array_reduce x weights s = (Some (Ok (dot xs ws)), s).
Proof.
  intros Hx Hw. unfold Array_reduce, and_then, object_at. rewrite Hx.
  now rewrite (reduce_turns_runs s x weights xs ws Hx Hw (length xs) 0 0%float eq_refl).
Qed.

(** The rows of the matrix at [X], by address and by content. *)
Lemma matrix_at_rows (s : Store) (X : address) (M : matrix) :
  matrix_at s X = Some M ->
  exists rows, row_arrays s X = Some rows
               /\ Forall2 (fun x xs => number_arrays s x = Some xs) rows M.
Proof.
  unfold matrix_at. destruct (row_arrays s X) as [rows |]; [| discriminate].
  intros H. exists rows. split; [reflexivity |].
  revert M H. induction rows as [| x rows IH]; intros M H; cbn [fold_right] in H.
  - injection H as <-. constructor.
  - destruct (number_arrays s x) as [xs |] eqn:Hx; [| discriminate H].
    destruct (fold_right _ (Some []) rows) as [m |]; [| discriminate H].
    injection H as <-. constructor; [exact Hx | now apply IH].
Qed.

(** A callback that returns [f xs] on every row, and leaves the store as it
    is, makes [map] return the image of the matrix. *)
Lemma map_turns_runs {B} (s : Store) (X : address) (rows : list address) (M : matrix)
    (callback : address -> Op B) (f : list number -> Result B) :
  row_arrays s X = Some rows ->
  Forall2 (fun x xs => number_arrays s x = Some xs) rows M ->
  (forall x xs, number_arrays s x = Some xs -> callback x s = (Some (f xs), s)) ->
  forall (turns k : nat),
    k + turns = length rows ->
    map_turns k turns X callback s
    = (Some (fold_right (fun xs rest => bind (f xs) (fun b =>
                                        bind rest (fun bs => Ok (b :: bs))))
                        (Ok []) (skipn k M)), s).
Proof.
  intros HX Hrows Hcb. pose proof (Forall2_length Hrows) as Hlen.
  induction turns as [| turns IH]; intros k Hk.
  - rewrite skipn_all2 by lia. reflexivity.
  - cbn [map_turns]. unfold and_then at 1. unfold object_at. rewrite HX.
    destruct (nth_error rows k) as [x |] eqn:Hx; [| apply nth_error_None in Hx; lia].
    destruct (nth_error M k) as [xs |] eqn:Hxs; [| apply nth_error_None in Hxs; lia].
    assert (Hcell : number_arrays s x = Some xs).
    { clear - Hrows Hx Hxs. revert k Hx Hxs.
      induction Hrows as [| x0 xs0 rows M H0 Hrest IHr]; intros k Hx Hxs;
        [destruct k; discriminate Hx |].
      destruct k as [| k]; cbn [nth_error] in Hx, Hxs.
      - injection Hx as <-. injection Hxs as <-. exact H0.
      - now apply (IHr k). }
    rewrite (skipn_step M k xs Hxs). cbn [fold_right].
    unfold and_then. rewrite (Hcb x xs Hcell).
    destruct (f xs) as [b | e]; cbn [bind]; [| reflexivity].
    rewrite (IH (S k)) by lia.
    destruct (fold_right _ (Ok []) (skipn (S k) M)) as [bs | e]; reflexivity.
Qed.

Lemma Array_map_runs {B} (s : Store) (X : address) (M : matrix)
    (callback : address -> Op B) (f : list number -> Result B) :
  matrix_at s X = Some M ->
  (forall x xs, number_arrays s x = Some xs -> callback x s = (Some (f xs), s)) ->
  Array_map X callback s
  = (Some (fold_right (fun xs rest => bind (f xs) (fun b =>
                                      bind rest (fun bs => Ok (b :: bs))))
                      (Ok []) M), s).
Proof.
  intros HM Hcb. destruct (matrix_at_rows s X M HM) as [rows [HX Hrows]].
  unfold Array_map, and_then at 1, object_at. rewrite HX.
  now rewrite (map_turns_runs s X rows M callback f HX Hrows Hcb (length rows) 0 eq_refl).
Qed.

Lemma predictLogistic_stored_runs (Math_exp : number -> number) (s : Store)
    (X weights : address) (bias : number) (M : matrix) (ws : list number) :
  matrix_at s X = Some M -> number_arrays s weights = Some ws ->
  predictLogistic_stored Math_exp X weights bias s
  = (Some (Ok (predictLogistic Math_exp M ws bias)), s).
Proof.
  intros HM Hw. unfold predictLogistic_stored.
  rewrite (Array_map_runs s X M _
             (fun xs => Ok (if (0.5 <=? sigmoid Math_exp (dot xs ws + bias))%float
                            then 1%Z else 0%Z)) HM).
  - do 2 f_equal. unfold predictLogistic. clear HM.
    induction M as [| xs M IH]; [reflexivity |].
    cbn [fold_right map]. rewrite IH. reflexivity.
  - intros x xs Hx. unfold and_then. now rewrite (Array_reduce_runs s x weights xs ws Hx Hw).
Qed.

Lemma predictSingle_stored_runs (s : Store) (x : address) (xs : list number) :
  number_arrays s x = Some xs ->
  forall (t : TreeNode) (a : address) (fuel : nat),
    tree_at s a t -> tree_height t < fuel ->
    predictSingle_stored fuel x (Some a) s = (Some (predictSingle xs t), s).
Proof.
  intros Hx t a fuel Ht. revert fuel.
  induction Ht as [a n Hn Hp | a n f th l r tl tr Hn Hp Hf Hth Hl Hr Htl IHl Htr IHr];
    intros fuel Hfuel; (destruct fuel as [| fuel]; [lia |]);
    cbn [predictSingle_stored]; unfold and_then at 1; unfold object_at at 1; rewrite Hn.
  - cbn [predictSingle]. destruct (prediction_of n); [reflexivity | reflexivity | contradiction].
  - rewrite Hp. unfold and_then, object_at. rewrite Hx, Hf, Hth, Hl, Hr.
    cbn [tree_height] in Hfuel. cbn [predictSingle to_number].
    assert (Hcell : to_number (nth_error xs f) = get xs f).
    { unfold get, to_number. destruct (nth_error xs f) as [v |] eqn:E.
      - symmetry. now apply nth_error_nth.
      - symmetry. apply nth_overflow. now apply nth_error_None. }
    rewrite Hcell.
    destruct (get xs f <=? th)%float; [apply IHl | apply IHr]; lia.
Qed.

Lemma predictDecisionTree_stored_runs (s : Store) (X tree : address) (M : matrix)
    (t : TreeNode) (fuel : nat) :
  matrix_at s X = Some M -> tree_at s tree t -> tree_height t < fuel ->
  predictDecisionTree_stored fuel X tree s = (Some (predictDecisionTree M t), s).
Proof.
  intros HM Ht Hfuel. unfold predictDecisionTree_stored.
  rewrite (Array_map_runs s X M _ (fun xs => predictSingle xs t) HM).
  - do 2 f_equal. clear HM. induction M as [| xs M IH]; [reflexivity |].
    cbn [fold_right predictDecisionTree]. now rewrite IH.
  - intros x xs Hx. now apply predictSingle_stored_runs.
Qed.

(** C9. A prediction reads its arguments and writes nothing: run in a store
    that holds the matrix [M] at [X], the weights [ws] (or the tree [t]) at
    the model's address, [predictLogistic] and [predictDecisionTree] return
    what [M] and the model determine, and leave every object and the pseudo
    random generator as they were.  Hence two calls on the same arguments
    return the same vector: the second call, and any call made in a store
    where the arguments hold the same contents, returns what the first one
    did. *)
Theorem prediction_deterministic :
  forall (Math_exp : number -> number) (s1 s2 : Store) (X weights tree : address)
         (bias : number) (M : matrix) (ws : list number) (t : TreeNode) (fuel : nat),
    matrix_at s1 X = Some M -> number_arrays s1 weights = Some ws -> tree_at s1 tree t ->
    matrix_at s2 X = Some M -> number_arrays s2 weights = Some ws -> tree_at s2 tree t ->
    tree_height t < fuel ->
    predictLogistic_stored Math_exp X weights bias s1
    = (Some (Ok (predictLogistic Math_exp M ws bias)), s1)
    /\ predictDecisionTree_stored fuel X tree s1 = (Some (predictDecisionTree M t), s1)
    /\ output (and_then (predictLogistic_stored Math_exp X weights bias) (fun _ =>
               predictLogistic_stored Math_exp X weights bias) s1)
       = output (predictLogistic_stored Math_exp X weights bias s1)
    /\ output (predictLogistic_stored Math_exp X weights bias s2)
       = output (predictLogistic_stored Math_exp X weights bias s1)
    /\ output (predictDecisionTree_stored fuel X tree s2)
       = output (predictDecisionTree_stored fuel X tree s1).
Proof.
  intros Math_exp s1 s2 X weights tree bias M ws t fuel HM1 Hw1 Ht1 HM2 Hw2 Ht2 Hfuel.
  pose proof (predictLogistic_stored_runs Math_exp s1 X weights bias M ws HM1 Hw1) as HL1.
  pose proof (predictLogistic_stored_runs Math_exp s2 X weights bias M ws HM2 Hw2) as HL2.
  pose proof (predictDecisionTree_stored_runs s1 X tree M t fuel HM1 Ht1 Hfuel) as HT1.
  pose proof (predictDecisionTree_stored_runs s2 X tree M t fuel HM2 Ht2 Hfuel) as HT2.
  repeat split; try assumption.
  - unfold and_then. now rewrite HL1, HL1.
  - now rewrite HL1, HL2.
  - now rewrite HT1, HT2.
Qed.

Lemma prediction_deterministic_witness :
  output (predictDecisionTree_stored 2 1 30
            {| number_arrays := fun a => match a with
                                         | 10 => Some [1; 2]%float
                                         | 11 => Some [3; 0]%float
                                         | 20 => Some [0.5; -0.5]%float
                                         | _ => None
                                         end;
               row_arrays := fun a => match a with 1 => Some [10; 11] | _ => None end;
               tree_objects := fun a =>
                 match a with
                 | 30 => Some {| prediction_of := VUndef; feature_of := Some 0;
                                 threshold_of := Some 2%float;
                                 left_of := Some 31; right_of := Some 32 |}
                 | 31 => Some {| prediction_of := VInt 0; feature_of := None;
                                 threshold_of := None; left_of := None; right_of := None |}
                 | 32 => Some {| prediction_of := VInt 1; feature_of := None;
                                 threshold_of := None; left_of := None; right_of := None |}
                 | _ => None
                 end;
               generator := {| tape := fun _ => 0%Z; cursor := 7 |} |})
  = Some (Ok [VInt 0; VInt 1]).
Proof.
  pose (numbers := fun a : address => match a with
                                     | 10 => Some [1; 2]%float
                                     | 11 => Some [3; 0]%float
                                     | 20 => Some [0.5; -0.5]%float
                                     | _ => None
                                     end).
  pose (rows := fun a : address => match a with 1 => Some [10; 11] | _ => None end).
  pose (leaf0 := {| prediction_of := VInt 0; feature_of := None;
                   threshold_of := None; left_of := None; right_of := None |}).
  pose (leaf1 := {| prediction_of := VInt 1; feature_of := None;
                   threshold_of := None; left_of := None; right_of := None |}).
  pose (root := {| prediction_of := VUndef; feature_of := Some 0;
                  threshold_of := Some 2%float;
                  left_of := Some 31; right_of := Some 32 |}).
  pose (nodes := fun a : address => match a with
                                   | 30 => Some root
                                   | 31 => Some leaf0
                                   | 32 => Some leaf1
                                   | _ => None
                                   end).
  pose (s1 := {| number_arrays := numbers; row_arrays := rows; tree_objects := nodes;
                generator := {| tape := fun _ => 0%Z; cursor := 0 |} |}).
  pose (s2 := {| number_arrays := numbers; row_arrays := rows; tree_objects := nodes;
                generator := {| tape := fun _ => 0%Z; cursor := 7 |} |}).
  change (output (predictDecisionTree_stored 2 1 30 s2) = Some (Ok [VInt 0; VInt 1])).
  assert (Htree : forall s, tree_objects s = nodes ->
                            tree_at s 30 (Node 0 2%float (Leaf (VInt 0)) (Leaf (VInt 1)))).
  { intros s Hs.
    apply (node_at s 30 root 0 2%float 31 32); try reflexivity; try (rewrite Hs; reflexivity).
    - apply (leaf_at s 31 leaf0); [rewrite Hs; reflexivity | discriminate].
    - apply (leaf_at s 32 leaf1); [rewrite Hs; reflexivity | discriminate]. }
  destruct (prediction_deterministic (fun x => x) s1 s2 1 20 30 0%float
              [[1; 2]; [3; 0]]%float [0.5; -0.5]%float
              (Node 0 2%float (Leaf (VInt 0)) (Leaf (VInt 1))) 2
              eq_refl eq_refl (Htree s1 eq_refl) eq_refl eq_refl (Htree s2 eq_refl)
              ltac:(cbn; lia))
    as [_ [Hrun [_ [_ Hsame]]]].
  rewrite Hsame, Hrun. reflexivity.
Defined.

(** ** Scalers *)

(** C5. A constant column does not always map to zeros: the mean of three
    cells 0.1 is computed as 0.10000000000000002, the deviations are not
    zero, the standard deviation is their magnitude, and every cell of the
    column becomes -1. *)
Theorem standardScaler_constant_column :
  standardScaler [[0.1]; [0.1]; [0.1]]%float = [[-1]; [-1]; [-1]]%float
  /\ column_mean [0.1; 0.1; 0.1]%float = 0.10000000000000002%float.
Proof. split; vm_compute; reflexivity. Qed.

Lemma mapi_from_ext {A B} (f g : A -> nat -> B) (k : nat) (xs : list A) :
  (forall x j, k <= j < k + length xs -> f x j = g x j) ->
  mapi_from f k xs = mapi_from g k xs.
Proof.
  revert k. induction xs as [| x xs IH]; intros k H; [reflexivity |].
  cbn [mapi_from]. f_equal.
  - apply H. cbn [length]. lia.
  - apply IH. intros y j Hj. apply H. cbn [length]. lia.
Qed.

Lemma mapi_from_length {A B} (f : A -> nat -> B) (k : nat) (xs : list A) :
  length (mapi_from f k xs) = length xs.
Proof. revert k. induction xs as [| x xs IH]; intros k; cbn; [reflexivity | now rewrite IH]. Qed.

Lemma get_map_seq (f : nat -> number) (n j : nat) :
  j < n -> get (map f (seq 0 n)) j = f j.
Proof.
  intros Hj. unfold get.
  rewrite (nth_indep _ nan (f 0)) by (now rewrite length_map, length_seq).
  rewrite (map_nth f (seq 0 n) 0 j), seq_nth by assumption. reflexivity.
Qed.

Lemma fold_push_range (limit : nat) (data : matrix) (js : list nat) :
  length data <= limit ->
  forall mins maxs : list number,
    fold_left (push_range limit data) js (Ok (mins, maxs))
    = Ok (mins ++ map (fun j => Math_min (column data j)) js,
          maxs ++ map (fun j => Math_max (column data j)) js).
Proof.
  intros Hlen. induction js as [| j js IH]; intros mins maxs; cbn [fold_left map].
  - now rewrite !app_nil_r.
  - unfold push_range at 2. cbn [bind]. unfold spread_call, column.
    rewrite length_map. destruct (Nat.leb_spec (length data) limit) as [_ | Hgt]; [| lia].
    cbn [bind]. rewrite IH, <- !app_assoc. reflexivity.
Qed.

Lemma fold_push_range_raised (limit : nat) (data : matrix) (js : list nat) (e : Error) :
  fold_left (push_range limit data) js (Throw e) = Throw e.
Proof. induction js as [| j js IH]; [reflexivity | exact IH]. Qed.

Lemma fold_push_range_raises (limit : nat) (data : matrix) (js : list nat)
    (mins maxs : list number) :
  limit < length data -> js <> [] ->
  fold_left (push_range limit data) js (Ok (mins, maxs)) = Throw RangeError.
Proof.
  intros Hlen Hjs. destruct js as [| j js]; [contradiction |]. cbn [fold_left].
  unfold push_range at 2. cbn [bind]. unfold spread_call, column.
  rewrite length_map. destruct (Nat.leb_spec (length data) limit) as [Hle | _]; [lia |].
  cbn [bind]. apply fold_push_range_raised.
Qed.

Lemma minMaxScaler_cells (limit : nat) (X : matrix) :
  rectangular X -> length X <= limit ->
  minMaxScaler limit X = Ok (map (fun row => mapi (fun v j => normalized X j v) row) X).
Proof.
  intros Hrect Hlen. unfold minMaxScaler. destruct X as [| row0 X']; [reflexivity |].
  rewrite (fold_push_range limit (row0 :: X') _ Hlen). cbn [bind app]. f_equal.
  apply map_ext_in. intros row Hrow. apply mapi_from_ext. intros v j [_ Hj].
  rewrite (Hrect row Hrow) in Hj. cbn [hd] in Hj.
  rewrite !get_map_seq by lia. reflexivity.
Qed.

(** A matrix with a column and with more rows than a call takes arguments
    is not normalized: the first spread call raises. *)
Lemma minMaxScaler_raises (limit : nat) (X : matrix) :
  limit < length X -> hd [] X <> [] -> minMaxScaler limit X = Throw RangeError.
Proof.
  intros Hlen Hw. unfold minMaxScaler. destruct X as [| row0 X']; [cbn in Hlen; lia |].
  cbn [hd] in Hw. rewrite (fold_push_range_raises limit (row0 :: X')); [reflexivity | assumption |].
  destruct row0; [contradiction | discriminate].
Qed.

Lemma mapi_from_Forall {A B} (P : B -> Prop) (f : A -> nat -> B) (k : nat) (xs : list A) :
  (forall j x, nth_error xs j = Some x -> P (f x (k + j))) ->
  Forall P (mapi_from f k xs).
Proof.
  revert k. induction xs as [| x xs IH]; intros k H; cbn [mapi_from]; constructor.
  - rewrite <- (Nat.add_0_r k). now apply H.
  - apply IH. intros j y Hy. replace (S k + j) with (k + S j) by lia. now apply H.
Qed.

Lemma get_nth_error (row : list number) (j : nat) (v : number) :
  nth_error row j = Some v -> get row j = v.
Proof. intros H. unfold get. now apply nth_error_nth. Qed.

Lemma column_finite (X : matrix) (j : nat) :
  rectangular X -> j < length (hd [] X) ->
  Forall (Forall (fun v => is_finite v = true)) X ->
  Forall (fun v => is_finite v = true) (column X j).
Proof.
  intros Hrect Hj Hfin. unfold column. apply Forall_map, Forall_forall.
  intros row Hrow. rewrite Forall_forall in Hfin. specialize (Hfin row Hrow).
  rewrite Forall_forall in Hfin. apply Hfin. unfold get. apply nth_In.
  now rewrite (Hrect row Hrow).
Qed.

(** In a column of finite numbers whose range is finite, every normalized
    cell lies in the unit interval. *)
Lemma normalized_in_unit_interval (X : matrix) (j : nat) (v : number) :
  Forall (fun x => is_finite x = true) (column X j) -> In v (column X j) ->
  is_finite (Math_max (column X j) - Math_min (column X j))%float = true ->
  in_unit_interval (normalized X j v) = true.
Proof.
  intros Hfin Hv Hrange. unfold normalized.
  destruct (Math_max (column X j) - Math_min (column X j) =? 0)%float eqn:Hz; [reflexivity |].
  assert (Hne : column X j <> []) by (intros E; rewrite E in Hv; contradiction).
  destruct (Math_min_finite _ Hne Hfin) as [Flo Hlo].
  destruct (Math_max_finite _ Hne Hfin) as [Fhi Hhi].
  rewrite Forall_forall in Hfin, Hlo, Hhi.
  apply unit_interval_cell; auto.
Qed.

(** C6, as stated, fails: when the range of a column overflows, a cell is
    NaN, which is not in [0, 1] (in every engine whose calls take two
    arguments). *)
Lemma minMaxScaler_overflow_counterexample :
  ~ (forall max_arguments : nat,
        2 <= max_arguments ->
        exists M : matrix,
          minMaxScaler max_arguments [[1e308]; [-1e308]]%float = Ok M
          /\ Forall (Forall (fun cell => in_unit_interval cell = true)) M).
Proof.
  intros H. destruct (H 2 (le_n 2)) as [M [HM Hall]].
  vm_compute in HM. injection HM as <-.
  inversion_clear Hall as [| ? ? Hrow _]. inversion_clear Hrow as [| ? ? Hcell _].
  vm_compute in Hcell. discriminate Hcell.
Qed.

(** C6 (amended). For every rectangular matrix with no more rows than a call
    takes arguments, min-max normalization returns a matrix of the same
    shape whose cell at column [j] is 0 when the range [max - min] of that
    column is zero and [(input - min) / (max - min)], computed in floating
    point, otherwise; when every cell of the input is a finite number and
    the range of every column is finite (it does not overflow), every cell
    of the result lies in [0, 1]; the empty matrix is returned unchanged.
    A matrix with a column and with more rows than a call takes arguments
    raises a [RangeError] instead. *)
Theorem minMaxScaler_shape_and_cells :
  forall (max_arguments : nat) (X : matrix),
    rectangular X ->
    length X <= max_arguments ->
    exists M : matrix,
      minMaxScaler max_arguments X = Ok M
      /\ M = map (fun row => mapi (fun v j => normalized X j v) row) X
      /\ map (@length number) M = map (@length number) X
      /\ (forall (j : nat) (v : number),
            (Math_max (column X j) - Math_min (column X j) =? 0)%float = true ->
            normalized X j v = 0%float)
      /\ (forall (j : nat) (v : number),
            (Math_max (column X j) - Math_min (column X j) =? 0)%float = false ->
            normalized X j v
            = ((v - Math_min (column X j))
               / (Math_max (column X j) - Math_min (column X j)))%float)
      /\ (Forall (Forall (fun v => is_finite v = true)) X ->
          (forall j : nat,
              j < length (hd [] X) ->
              is_finite (Math_max (column X j) - Math_min (column X j))%float = true) ->
          Forall (Forall (fun cell => in_unit_interval cell = true)) M)
      /\ minMaxScaler max_arguments [] = Ok []
      /\ (forall X' : matrix,
            max_arguments < length X' -> hd [] X' <> [] ->
            minMaxScaler max_arguments X' = Throw RangeError).
Proof.
  intros limit X Hrect Hlen.
  exists (map (fun row => mapi (fun v j => normalized X j v) row) X).
  split; [now apply minMaxScaler_cells |]. split; [reflexivity |]. repeat split.
  - rewrite map_map. apply map_ext. intros row. apply mapi_from_length.
  - intros j v H. unfold normalized. now rewrite H.
  - intros j v H. unfold normalized. now rewrite H.
  - intros Hfin Hrange. apply Forall_map, Forall_forall. intros row Hrow.
    apply mapi_from_Forall. intros j v Hv. cbn [Nat.add].
    assert (Hj : j < length (hd [] X)).
    { rewrite <- (Hrect row Hrow). apply nth_error_Some. now rewrite Hv. }
    apply normalized_in_unit_interval.
    + now apply column_finite.
    + unfold column. apply in_map_iff. exists row. split; [now apply get_nth_error | assumption].
    + now apply Hrange.
  - intros X' Hlong Hw. now apply minMaxScaler_raises.
Qed.

Lemma minMaxScaler_shape_and_cells_witness :
  exists M : matrix,
    minMaxScaler 3 [[1; 5]; [2; 5]; [4; 5]]%float = Ok M
    /\ M = map (fun row => mapi (fun v j => normalized [[1; 5]; [2; 5]; [4; 5]]%float j v) row)
               [[1; 5]; [2; 5]; [4; 5]]%float
    /\ Forall (Forall (fun cell => in_unit_interval cell = true)) M.
Proof.
  assert (Hrect : rectangular [[1; 5]; [2; 5]; [4; 5]]%float)
    by (intros row [<- | [<- | [<- | []]]]; reflexivity).
  destruct (minMaxScaler_shape_and_cells 3 [[1; 5]; [2; 5]; [4; 5]]%float Hrect (le_n 3))
    as [M [Hrun [Hcells [_ [_ [_ [Hunit _]]]]]]].
  exists M. split; [exact Hrun |]. split; [exact Hcells |].
  apply Hunit.
  - repeat constructor.
  - intros [| [| j]] Hj; [reflexivity | reflexivity | cbn in Hj; lia].
Defined.

(** * Further properties *)

(** ** Evaluation metrics: totals *)

Lemma list_sum_cons (x : nat) (l : list nat) : list_sum (x :: l) = x + list_sum l.
Proof. reflexivity. Qed.

Lemma list_sum_map_add {A} (a b : A -> nat) (l : list A) :
  list_sum (map (fun x => a x + b x) l) = list_sum (map a l) + list_sum (map b l).
Proof.
  induction l as [| x l IH]; [reflexivity |].
  cbn [map]. rewrite !list_sum_cons, IH. lia.
Qed.

Lemma list_sum_map_zero {A} (l : list A) : list_sum (map (fun _ => 0) l) = 0.
Proof. induction l as [| x l IH]; [reflexivity |]. cbn [map]. now rewrite list_sum_cons, IH. Qed.

Lemma sum_indicator (x : Z) (L : list Z) :
  NoDup L -> In x L -> list_sum (map (fun p => if (x =? p)%Z then 1 else 0) L) = 1.
Proof.
  induction L as [| l L IH]; intros Hnd Hin; [contradiction |].
  inversion_clear Hnd as [| ? ? Hnotin Hnd']. cbn [map]. rewrite list_sum_cons.
  destruct (Z.eqb_spec x l) as [-> | Hne].
  - assert (Hz : list_sum (map (fun p => if (l =? p)%Z then 1 else 0) L) = 0).
    { clear IH Hin Hnd'. induction L as [| q L IH]; [reflexivity |].
      cbn [map]. rewrite list_sum_cons. destruct (Z.eqb_spec l q) as [-> | _].
      - exfalso. apply Hnotin. now left.
      - rewrite IH; [reflexivity |]. intros H. apply Hnotin. now right. }
    rewrite Hz. reflexivity.
  - destruct Hin as [-> | Hin]; [contradiction |]. now rewrite IH.
Qed.

(** Counting the pairs that satisfy [f] class by class of [g] counts each of
    them once. *)
Lemma count_by_class {A} (f : A -> bool) (g : A -> Z) (L : list Z) (pairs : list A) :
  NoDup L -> Forall (fun tp => In (g tp) L) pairs ->
  list_sum (map (fun p => length (filter (fun tp => f tp && (g tp =? p)%Z) pairs)) L)
  = length (filter f pairs).
Proof.
  intros Hnd. induction pairs as [| tp pairs IH]; intros Hall.
  - cbn. apply list_sum_map_zero.
  - inversion_clear Hall as [| ? ? Htp Hall'].
    transitivity (list_sum (map (fun p => (if f tp then if (g tp =? p)%Z then 1 else 0 else 0)
                                          + length (filter (fun tp => f tp && (g tp =? p)%Z) pairs))
                                L)).
    + f_equal. apply map_ext. intros p. cbn [filter].
      destruct (f tp), (g tp =? p)%Z; reflexivity.
    + rewrite list_sum_map_add, (IH Hall'). cbn [filter].
      destruct (f tp); cbn [length].
      * now rewrite (sum_indicator _ _ Hnd Htp).
      * now rewrite list_sum_map_zero.
Qed.

Lemma trace_from_map (c : Z -> Z -> nat) (L pre post : list Z) :
  L = pre ++ post ->
  trace_from (length pre) (map (fun a => map (c a) L) post)
  = list_sum (map (fun a => c a a) post).
Proof.
  revert pre. induction post as [| a post IH]; intros pre HL; [reflexivity |].
  cbn [map trace_from]. rewrite list_sum_cons. f_equal.
  - rewrite HL.
    set (ca := c a).
    rewrite (nth_indep _ 0 (ca a)) by (rewrite length_map, length_app; cbn; lia).
    rewrite (map_nth ca (pre ++ a :: post) a (length pre)).
    now rewrite nth_middle.
  - replace (S (length pre)) with (length (pre ++ [a])) by (rewrite length_app; cbn; lia).
    apply IH. rewrite HL, <- app_assoc. reflexivity.
Qed.

Lemma combine_fst_In (yTrue yPred : list Z) :
  Forall (fun tp => In (fst tp) (observed_labels yTrue yPred)) (combine yTrue yPred).
Proof.
  apply Forall_forall. intros [a p] Hin. apply observed_labels_In. left.
  now apply in_combine_l in Hin.
Qed.

Lemma combine_snd_In (yTrue yPred : list Z) :
  Forall (fun tp => In (snd tp) (observed_labels yTrue yPred)) (combine yTrue yPred).
Proof.
  apply Forall_forall. intros [a p] Hin. apply observed_labels_In. right.
  now apply in_combine_r in Hin.
Qed.

Lemma trace_agreements (yTrue yPred : list Z) :
  trace (confusionMatrix yTrue yPred) = agreements (aligned_pairs yTrue yPred).
Proof.
  rewrite confusionMatrix_counts. unfold trace.
  change 0 with (@length Z []).
  rewrite (trace_from_map (fun a p => pair_count a p (aligned_pairs yTrue yPred))
             (observed_labels yTrue yPred) [] (observed_labels yTrue yPred) eq_refl).
  unfold pair_count, agreements, aligned_pairs.
  rewrite <- (count_by_class (fun tp => (fst tp =? snd tp)%Z) fst
                (observed_labels yTrue yPred) (combine yTrue yPred)
                (observed_labels_NoDup yTrue yPred) (combine_fst_In yTrue yPred)).
  f_equal. apply map_ext. intros a. f_equal. apply filter_ext. intros [t p]. cbn [fst snd].
  destruct (Z.eqb_spec t a) as [-> | Hta], (Z.eqb_spec p a) as [-> | Hpa];
    cbn [andb]; try rewrite Z.eqb_refl; try reflexivity.
  - symmetry. apply andb_false_iff. left. apply Z.eqb_neq. congruence.
  - symmetry. apply andb_false_iff. right. reflexivity.
  - symmetry. apply andb_false_r.
Qed.

(** X1. The accuracy is the diagonal sum of the confusion matrix of the same
    two vectors, divided by the number of true labels. *)
Theorem accuracy_is_trace_over_length :
  forall yTrue yPred : list Z,
    yTrue <> [] ->
    calculateAccuracy yTrue yPred
    = (of_nat (trace (confusionMatrix yTrue yPred)) / of_nat (length yTrue))%float.
Proof.
  intros yTrue yPred Hne. rewrite trace_agreements.
  unfold calculateAccuracy. destruct yTrue as [| t yTrue']; [contradiction |].
  now rewrite matching_agreements.
Qed.

Lemma accuracy_is_trace_witness :
  calculateAccuracy [0; 1; 1]%Z [0; 1; 0]%Z
  = (of_nat (trace (confusionMatrix [0; 1; 1]%Z [0; 1; 0]%Z)) / of_nat 3)%float.
Proof. apply (accuracy_is_trace_over_length [0; 1; 1]%Z [0; 1; 0]%Z). discriminate. Defined.

Lemma pair_count_row (a : Z) (yTrue yPred : list Z) :
  list_sum (map (fun p => pair_count a p (combine yTrue yPred)) (observed_labels yTrue yPred))
  = length (filter (fun tp => (fst tp =? a)%Z) (combine yTrue yPred)).
Proof.
  unfold pair_count.
  apply (count_by_class (fun tp => (fst tp =? a)%Z) snd).
  - apply observed_labels_NoDup.
  - apply combine_snd_In.
Qed.

Lemma filter_fst_combine (a : Z) (yTrue yPred : list Z) :
  length yTrue <= length yPred ->
  length (filter (fun tp => (fst tp =? a)%Z) (combine yTrue yPred)) = occurrences a yTrue.
Proof.
  unfold occurrences. revert yPred.
  induction yTrue as [| t yTrue IH]; intros yPred Hlen; [reflexivity |].
  destruct yPred as [| p yPred]; [cbn in Hlen; lia |].
  cbn [combine filter fst count_occ]. cbn [length] in Hlen.
  destruct (Z.eqb_spec t a) as [E1 | E1]; destruct (Z.eq_dec t a) as [E2 | E2];
    try contradiction; cbn [length]; rewrite IH by lia; reflexivity.
Qed.

Lemma list_sum_occurrences (L y : list Z) :
  NoDup L -> (forall z, In z y -> In z L) ->
  list_sum (map (fun a => occurrences a y) L) = length y.
Proof.
  intros Hnd Hin. unfold occurrences.
  induction y as [| t y IH]; [apply list_sum_map_zero |].
  transitivity (list_sum (map (fun a => (if (t =? a)%Z then 1 else 0) + count_occ Z.eq_dec y a) L)).
  - f_equal. apply map_ext. intros a. cbn [count_occ].
    destruct (Z.eq_dec t a) as [-> | Hne].
    + now rewrite Z.eqb_refl.
    + destruct (Z.eqb_spec t a); [contradiction | reflexivity].
  - rewrite list_sum_map_add, sum_indicator; [| assumption | apply Hin; now left].
    cbn [length]. change (1 + ?n) with (S n). f_equal.
    apply IH. intros z Hz. apply Hin. now right.
Qed.

(** X2. The confusion matrix is square over the observed labels.  When
    every true label has a prediction, the row of a label sums to the number
    of its occurrences among the true labels, and all cells together sum to
    the number of true labels. *)
Theorem confusionMatrix_totals :
  forall yTrue yPred : list Z,
    length yTrue <= length yPred ->
    length (confusionMatrix yTrue yPred) = length (observed_labels yTrue yPred)
    /\ Forall (fun row => length row = length (observed_labels yTrue yPred))
              (confusionMatrix yTrue yPred)
    /\ map (@list_sum) (confusionMatrix yTrue yPred)
       = map (fun a => occurrences a yTrue) (observed_labels yTrue yPred)
    /\ list_sum (map (@list_sum) (confusionMatrix yTrue yPred)) = length yTrue.
Proof.
  intros yTrue yPred Hlen. rewrite confusionMatrix_counts. unfold aligned_pairs.
  assert (Hrows : map (@list_sum)
                    (map (fun a => map (fun p => pair_count a p (combine yTrue yPred))
                                       (observed_labels yTrue yPred))
                         (observed_labels yTrue yPred))
                  = map (fun a => occurrences a yTrue) (observed_labels yTrue yPred)).
  { rewrite map_map. apply map_ext. intros a.
    rewrite pair_count_row. now apply filter_fst_combine. }
  repeat split.
  - now rewrite length_map.
  - apply Forall_map, Forall_forall. intros a _. now rewrite length_map.
  - exact Hrows.
  - rewrite Hrows. apply list_sum_occurrences; [apply observed_labels_NoDup |].
    intros z Hz. apply observed_labels_In. now left.
Qed.

Lemma confusionMatrix_totals_witness :
  map (@list_sum) (confusionMatrix [0; 1; 1]%Z [0; 1; 0]%Z)
  = map (fun a => occurrences a [0; 1; 1]%Z) (observed_labels [0; 1; 1]%Z [0; 1; 0]%Z).
Proof.
  apply (confusionMatrix_totals [0; 1; 1]%Z [0; 1; 0]%Z). cbn. lia.
Defined.

(** ** Evaluation metrics: the range of the accuracy *)

#[local] Open Scope Z_scope.

Lemma div_eucl_exact (a b : Z) : 0 < b -> Z.div_eucl (a * b) b = (a, 0).
Proof.
  intros Hb. pose proof (Z_div_mod (a * b) b ltac:(lia)) as H.
  destruct (Z.div_eucl (a * b) b) as [q r]. destruct H as [Heq Hr].
  assert (q = a) by nia. subst q. f_equal. lia.
Qed.

(** A finite number divided by itself is 1. *)
Lemma SFdiv_self (s : bool) (m : positive) (e : Z) :
  SFdiv prec emax (S754_finite s m e) (S754_finite s m e)
  = S754_finite false 4503599627370496 (-52).
Proof.
  cbn [SFdiv]. unfold SFdiv_core_binary.
  rewrite !Z.sub_diag. change (Z.min (fexp prec emax 0) 0) with (-53).
  change (0 - -53) with 53.
  rewrite Z.shiftl_mul_pow2 by lia.
  rewrite (Z.mul_comm (Z.pos m)), div_eucl_exact by lia.
  rewrite new_location_zero. destruct s; reflexivity.
Qed.

Lemma div_self (x : float) :
  is_finite x = true -> (x =? 0)%float = false -> (x / x)%float = 1%float.
Proof.
  intros Fx Hnz. apply is_finite_SF in Fx.
  rewrite eqb_spec in Hnz. change (Prim2SF 0) with (S754_zero false) in Hnz.
  rewrite (float_of_SF (x / x) (S754_finite false 4503599627370496 (-52))); [reflexivity |].
  rewrite div_spec. change SF64div with (SFdiv prec emax).
  destruct (Prim2SF x) as [[] | [] | | s m e]; try discriminate Fx; try discriminate Hnz.
  apply SFdiv_self.
Qed.

Lemma of_nat_self (n : nat) :
  0 < Z.of_nat n < 2 ^ 53 -> (of_nat n / of_nat n)%float = 1%float.
Proof.
  intros Hn. destruct (of_nat_spec n ltac:(lia)) as [[-> _] | [_ [m [e [Hx _]]]]]; [lia |].
  apply div_self.
  - apply SF_is_finite. now rewrite Hx.
  - rewrite eqb_spec, Hx. reflexivity.
Qed.

(** The quotient of two lengths, the first of which is not the larger. *)
Lemma of_nat_ratio (a n : nat) :
  (a <= n)%nat -> 0 < Z.of_nat n < 2 ^ 53 ->
  in_unit_interval (of_nat a / of_nat n) = true.
Proof.
  intros Hle Hn.
  pose proof (div_spec (of_nat a) (of_nat n)) as Hdiv.
  change SF64div with (SFdiv prec emax) in Hdiv.
  pose proof (Prim2SF_valid (of_nat a)) as Va. pose proof (Prim2SF_valid (of_nat n)) as Vn.
  destruct (of_nat_spec n ltac:(lia)) as [[-> _] | [_ [mn [en [Hxn Hvn]]]]]; [lia |].
  rewrite Hxn in Hdiv, Vn. pose proof (valid_finite _ _ _ Vn) as [Hen _].
  destruct (of_nat_spec a ltac:(lia)) as [[-> Hza] | [Hapos [ma [ea [Hxa Hva]]]]].
  - rewrite Hza in Hdiv. apply (unit_interval_zero false). exact Hdiv.
  - rewrite Hxa in Hdiv, Va. pose proof (valid_finite _ _ _ Va) as [Hea _].
    pose proof (pow2_pos K ltac:(unfold K; lia)).
    destruct (SFdiv_le_one ma mn ea en ltac:(lia) ltac:(lia) ltac:(nia))
      as [Hq | [m [e [Hq Hv]]]].
    + apply (unit_interval_zero false). rewrite Hdiv. exact Hq.
    + apply (unit_interval_finite _ m e); [rewrite Hdiv; exact Hq | exact Hv].
Qed.

#[local] Close Scope Z_scope.

Lemma agreements_le (pairs : list (Z * Z)) : agreements pairs <= length pairs.
Proof. unfold agreements. apply filter_length_le. Qed.

Lemma agreements_self (y extra : list Z) : agreements (combine y (y ++ extra)) = length y.
Proof.
  unfold agreements. induction y as [| t y IH]; [reflexivity |].
  cbn [app combine filter fst snd]. rewrite Z.eqb_refl. cbn [length]. now rewrite IH.
Qed.

(** X3. The accuracy over fewer than 2^32 labels lies in [0, 1]; it is
    exactly 1 when every true label is predicted, whatever predictions
    follow them. *)
Theorem calculateAccuracy_range :
  forall yTrue yPred : list Z,
    array_length (length yTrue) ->
    in_unit_interval (calculateAccuracy yTrue yPred) = true
    /\ (forall extra : list Z,
          yTrue <> [] -> calculateAccuracy yTrue (yTrue ++ extra) = 1%float).
Proof.
  intros yTrue yPred Hlen. unfold array_length in Hlen.
  assert (H53 : (2 ^ 32 < 2 ^ 53)%Z) by reflexivity.
  split.
  - unfold calculateAccuracy. destruct yTrue as [| t yTrue']; [reflexivity |].
    rewrite matching_agreements. apply of_nat_ratio.
    + etransitivity; [apply agreements_le |]. rewrite length_combine. apply Nat.le_min_l.
    + cbn [length] in *. lia.
  - intros extra Hne. unfold calculateAccuracy.
    destruct yTrue as [| t yTrue']; [contradiction |].
    rewrite matching_agreements. cbn [skipn]. rewrite agreements_self.
    apply of_nat_self. cbn [length] in *. lia.
Qed.

Lemma calculateAccuracy_range_witness :
  in_unit_interval (calculateAccuracy [0; 1; 1]%Z [0; 1; 0]%Z) = true.
Proof.
  apply (calculateAccuracy_range [0; 1; 1]%Z [0; 1; 0]%Z). unfold array_length. cbn. lia.
Defined.

(** ** Scalers: columns *)

Lemma nth_mapi_from {A B} (f : A -> nat -> B) (k j : nat) (xs : list A) (d : A) (d' : B) :
  j < length xs -> nth j (mapi_from f k xs) d' = f (nth j xs d) (k + j).
Proof.
  revert k j. induction xs as [| x xs IH]; intros k j Hj; [cbn in Hj; lia |].
  destruct j as [| j]; cbn [mapi_from nth].
  - now rewrite Nat.add_0_r.
  - rewrite IH by (cbn in Hj; lia). f_equal. lia.
Qed.

Lemma get_mapi (f : number -> nat -> number) (row : list number) (j : nat) :
  j < length row -> get (mapi f row) j = f (get row j) j.
Proof. intros Hj. unfold get, mapi. now rewrite (nth_mapi_from f 0 j row nan nan). Qed.


(** The column of a min-max normalized matrix is the normalized column. *)
Lemma minMaxScaler_column (limit : nat) (X M : matrix) (j : nat) :
  rectangular X -> length X <= limit -> j < length (hd [] X) ->
  minMaxScaler limit X = Ok M ->
  column M j = map (normalized X j) (column X j).
Proof.
  intros Hrect Hlen Hj HM. rewrite (minMaxScaler_cells limit X Hrect Hlen) in HM.
  injection HM as <-. unfold column.
  rewrite !map_map. apply map_ext_in. intros row Hrow.
  apply get_mapi. now rewrite (Hrect row Hrow).
Qed.

(** *** NaN *)



Lemma nan_sub (x : float) : (nan - x)%float = nan.
Proof.
  apply (float_of_SF _ S754_nan). rewrite sub_spec.
  change (Prim2SF nan) with S754_nan. reflexivity.
Qed.















(** *** The range is attained *)

Lemma min_step_choice (lo x : number) : min_step lo x = lo \/ min_step lo x = x.
Proof.
  unfold min_step.
  destruct (is_nan lo); [now left |]. destruct (is_nan x); [now right |].
  destruct (x <? lo)%float; [now right |].
  destruct ((x =? 0) && (lo =? 0) && get_sign x)%float; [now right | now left].
Qed.

Lemma max_step_choice (hi x : number) : max_step hi x = hi \/ max_step hi x = x.
Proof.
  unfold max_step.
  destruct (is_nan hi); [now left |]. destruct (is_nan x); [now right |].
  destruct (hi <? x)%float; [now right |].
  destruct ((x =? 0) && (hi =? 0) && negb (get_sign x))%float; [now right | now left].
Qed.

Lemma fold_choice (step : number -> number -> number) (xs : list number) (a : number) :
  (forall a x, step a x = a \/ step a x = x) ->
  In (fold_left step xs a) (a :: xs).
Proof.
  intros Hstep. revert a. induction xs as [| x xs IH]; intros a; [now left |].
  cbn [fold_left]. destruct (IH (step a x)) as [H | H].
  - destruct (Hstep a x) as [E | E]; [left | right; left];
      (transitivity (step a x); [symmetry; exact E | exact H]).
  - right. right. assumption.
Qed.

Lemma Math_min_In (xs : list number) :
  xs <> [] -> Forall (fun v => is_finite v = true) xs -> In (Math_min xs) xs.
Proof.
  intros Hne Fxs. destruct xs as [| x xs]; [contradiction |].
  inversion_clear Fxs as [| ? ? Fx _].
  unfold Math_min. cbn [fold_left]. rewrite (min_step_first x Fx).
  apply fold_choice, min_step_choice.
Qed.

Lemma Math_max_In (xs : list number) :
  xs <> [] -> Forall (fun v => is_finite v = true) xs -> In (Math_max xs) xs.
Proof.
  intros Hne Fxs. destruct xs as [| x xs]; [contradiction |].
  inversion_clear Fxs as [| ? ? Fx _].
  unfold Math_max. cbn [fold_left]. rewrite (max_step_first x Fx).
  apply fold_choice, max_step_choice.
Qed.

#[local] Open Scope Z_scope.

Lemma sub_self_zero (x : float) :
  is_finite x = true -> exists s, Prim2SF (x - x) = S754_zero s.
Proof.
  intros Fx. rewrite sub_spec. change SF64sub with (SFsub prec emax).
  apply (SFsub_spec (Prim2SF x) (Prim2SF x) (Prim2SF_valid x) (Prim2SF_valid x)
           (is_finite_SF x Fx) (is_finite_SF x Fx)).
  lia.
Qed.

Lemma zero_div_finite (z r : float) (s : bool) :
  Prim2SF z = S754_zero s -> is_finite r = true -> (r =? 0)%float = false ->
  (z / r =? 0)%float = true.
Proof.
  intros Hz Fr Hnz. apply is_finite_SF in Fr.
  rewrite eqb_spec in Hnz. rewrite eqb_spec, div_spec, Hz.
  change (Prim2SF 0) with (S754_zero false) in *.
  destruct (Prim2SF r) as [[] | [] | | [] m e]; try discriminate Fr; try discriminate Hnz;
    destruct s; reflexivity.
Qed.

#[local] Close Scope Z_scope.

(** X5. In a column of finite numbers whose range [max - min] is finite and
    not zero, the minimum and the maximum are cells of the column; the
    minimum is normalized to 0 (of either sign) and the maximum to exactly
    1, so both ends of the unit interval occur in that column of the matrix
    that [minMaxScaler] returns. *)
Theorem minMaxScaler_attains_bounds :
  forall (max_arguments : nat) (X : matrix) (j : nat),
    rectangular X -> length X <= max_arguments -> j < length (hd [] X) ->
    Forall (fun v => is_finite v = true) (column X j) ->
    is_finite (Math_max (column X j) - Math_min (column X j))%float = true ->
    (Math_max (column X j) - Math_min (column X j) =? 0)%float = false ->
    exists M : matrix,
      minMaxScaler max_arguments X = Ok M
      /\ In (Math_min (column X j)) (column X j)
      /\ In (Math_max (column X j)) (column X j)
      /\ (normalized X j (Math_min (column X j)) =? 0)%float = true
      /\ normalized X j (Math_max (column X j)) = 1%float
      /\ In 1%float (column M j)
      /\ In (normalized X j (Math_min (column X j))) (column M j).
Proof.
  intros limit X j Hrect Hlen Hj Hfin Hrange Hnz.
  assert (Hne : column X j <> []).
  { destruct X as [| row0 X']; [cbn in Hj; lia | discriminate]. }
  pose proof (Math_min_In _ Hne Hfin) as Hlo. pose proof (Math_max_In _ Hne Hfin) as Hhi.
  destruct (Math_min_finite _ Hne Hfin) as [Flo _].
  assert (Hone : normalized X j (Math_max (column X j)) = 1%float).
  { unfold normalized. rewrite Hnz. now apply div_self. }
  assert (Hzero : (normalized X j (Math_min (column X j)) =? 0)%float = true).
  { unfold normalized. rewrite Hnz.
    destruct (sub_self_zero _ Flo) as [s Hs]. now apply (zero_div_finite _ _ s). }
  eexists. split; [apply (minMaxScaler_cells limit X Hrect Hlen) |].
  rewrite (minMaxScaler_column limit X _ j Hrect Hlen Hj (minMaxScaler_cells limit X Hrect Hlen)).
  repeat split; try assumption.
  - rewrite <- Hone. now apply in_map.
  - now apply in_map.
Qed.

Lemma minMaxScaler_attains_bounds_witness :
  exists M : matrix,
    minMaxScaler 3 [[1; 5]; [2; 7]; [4; 6]]%float = Ok M /\ In 1%float (column M 0).
Proof.
  destruct (minMaxScaler_attains_bounds 3 [[1; 5]; [2; 7]; [4; 6]]%float 0)
    as [M [HM [_ [_ [_ [_ [Hone _]]]]]]].
  - intros row [<- | [<- | [<- | []]]]; reflexivity.
  - cbn. lia.
  - cbn. lia.
  - repeat constructor.
  - reflexivity.
  - reflexivity.
  - exists M. split; assumption.
Defined.

(** ** Decision tree: size of the tree *)

Ltac majority_leaf_case H :=
  unfold majority_leaf, bind in H;
  match type of H with
  | Some (match ?m with _ => _ end) = _ =>
      destruct m; inversion H; subst; cbn [tree_depth tree_leaves]; lia
  end.

Lemma buildTree_size (maxDepth minSamplesSplit : Z) :
  forall (fuel : nat) (X : matrix) (y : list value) (depth : Z) (tree : TreeNode),
    buildTree fuel maxDepth minSamplesSplit X y depth = Some (Ok tree) ->
    (tree_depth tree <= Z.max (maxDepth - depth) 0)%Z
    /\ tree_leaves tree <= Nat.max 1 (length X).
Proof.
  induction fuel as [| fuel IH]; intros X y depth tree H; [discriminate |].
  cbn [buildTree] in H.
  assert (Hrest :
    (if (maxDepth <=? depth)%Z || (Z.of_nat (length X) <? minSamplesSplit)%Z
     then Some (majority_leaf y)
     else
       let best := find_best_split X y in
       if (bestGain best =? 0)%float then Some (majority_leaf y)
       else
         let (leftIndices, rightIndices) :=
           split_indices X (bestFeature best) (bestThreshold best) in
         match buildTree fuel maxDepth minSamplesSplit
                         (select_rows X leftIndices) (select_labels y leftIndices)
                         (depth + 1) with
         | None => None
         | Some (Throw e) => Some (Throw e)
         | Some (Ok l) =>
             match buildTree fuel maxDepth minSamplesSplit
                             (select_rows X rightIndices) (select_labels y rightIndices)
                             (depth + 1) with
             | None => None
             | Some (Throw e) => Some (Throw e)
             | Some (Ok r) =>
                 Some (Ok (Node (bestFeature best) (bestThreshold best) l r))
             end
         end) = Some (Ok tree) ->
    (tree_depth tree <= Z.max (maxDepth - depth) 0)%Z
    /\ tree_leaves tree <= Nat.max 1 (length X)).
  { clear H. intros H.
    destruct ((maxDepth <=? depth)%Z || (Z.of_nat (length X) <? minSamplesSplit)%Z) eqn:Hc;
      [majority_leaf_case H |].
    cbv zeta in H.
    destruct (bestGain (find_best_split X y) =? 0)%float eqn:Hg; [majority_leaf_case H |].
    pose proof (find_best_split_proper X y Hg) as [Hl Hr].
    pose proof (split_from_spec X (bestFeature (find_best_split X y))
                  (bestThreshold (find_best_split X y)) 0) as [Hlen _].
    unfold split_indices in *.
    destruct (split_from 0 X (bestFeature (find_best_split X y))
                (bestThreshold (find_best_split X y))) as [li ri].
    cbn [fst snd] in *.
    destruct (buildTree fuel maxDepth minSamplesSplit (select_rows X li)
                (select_labels y li) (depth + 1)) as [[l | e] |] eqn:El; try discriminate H.
    destruct (buildTree fuel maxDepth minSamplesSplit (select_rows X ri)
                (select_labels y ri) (depth + 1)) as [[r | e] |] eqn:Er; try discriminate H.
    injection H as <-.
    apply IH in El, Er. destruct El as [Dl Ll], Er as [Dr Lr].
    unfold select_rows in Ll, Lr. rewrite length_map in Ll, Lr.
    apply orb_false_iff in Hc. destruct Hc as [Hd _]. apply Z.leb_gt in Hd.
    cbn [tree_depth tree_leaves].
    destruct li as [| i0 li]; [contradiction |]. destruct ri as [| i1 ri]; [contradiction |].
    cbn [length] in *. split; lia. }
  destruct (dedupe value_eqb y) as [| label [| l2 rest]]; [now apply Hrest | | now apply Hrest].
  injection H as <-. cbn [tree_depth tree_leaves]. lia.
Qed.

(** X6. A tree that [decisionTreeClassifier] returns is at most [maxDepth]
    tests deep and has at most as many leaves as there are training rows. *)
Theorem decisionTreeClassifier_size :
  forall (X_train : matrix) (y_train : list Z) (maxDepth minSamplesSplit : Z)
         (tree : TreeNode),
    decisionTreeClassifier X_train y_train maxDepth minSamplesSplit = Some (Ok tree) ->
    (tree_depth tree <= Z.max maxDepth 0)%Z
    /\ tree_leaves tree <= Nat.max 1 (length X_train).
Proof.
  intros X y maxDepth mss tree H. unfold decisionTreeClassifier in H.
  apply buildTree_size in H. now rewrite Z.sub_0_r in H.
Qed.

Lemma decisionTreeClassifier_size_witness :
  (tree_depth (Node 0 1.5%float (Leaf (VInt 0)) (Leaf (VInt 1))) <= Z.max 5 0)%Z
  /\ tree_leaves (Node 0 1.5%float (Leaf (VInt 0)) (Leaf (VInt 1))) <= Nat.max 1 2.
Proof.
  apply (decisionTreeClassifier_size [[1]; [2]]%float [0; 1]%Z 5 2).
  vm_compute. reflexivity.
Defined.

(** ** Decision tree: training sets that are not split *)

Lemma same_value_zero_refl (v : option number) : same_value_zero v v = true.
Proof.
  destruct v as [x |]; [| reflexivity]. cbn [same_value_zero].
  unfold is_nan. destruct (x =? x)%float; reflexivity.
Qed.

Lemma midpoints_singleton (v : option number) : midpoints (sort_numbers [v]) = [].
Proof. destruct v; reflexivity. Qed.

Lemma candidate_thresholds_constant (X : matrix) (j : nat) :
  constant_columns X -> j < length (hd [] X) -> candidate_thresholds X j = [].
Proof.
  intros Hconst Hj. unfold candidate_thresholds.
  destruct X as [| row0 X']; [reflexivity |].
  rewrite (dedupe_constant same_value_zero (set_element (read row0 j))).
  - apply midpoints_singleton.
  - apply same_value_zero_refl.
  - discriminate.
  - intros l Hl. apply in_map_iff in Hl. destruct Hl as [row [<- Hrow]].
    f_equal. now apply Hconst.
Qed.

Lemma fold_left_unchanged {A B} (step : A -> B -> A) (xs : list B) (a : A) :
  (forall b, In b xs -> step a b = a) -> fold_left step xs a = a.
Proof.
  induction xs as [| x xs IH]; intros H; [reflexivity |].
  cbn [fold_left]. rewrite (H x (or_introl eq_refl)). apply IH.
  intros b Hb. apply H. now right.
Qed.

Lemma find_best_split_constant (X : matrix) (y : list value) :
  constant_columns X -> bestGain (find_best_split X y) = 0%float.
Proof.
  intros Hconst. unfold find_best_split.
  assert (Hw : match X with [] => 0 | row0 :: _ => length row0 end = length (hd [] X))
    by (destruct X; reflexivity).
  rewrite Hw, fold_left_unchanged; [reflexivity |].
  intros j Hj. apply in_seq in Hj.
  now rewrite candidate_thresholds_constant by (assumption || lia).
Qed.

Lemma dedupe_singleton (y : list Z) (l : Z) :
  dedupe Z.eqb y = [l] -> forall z, In z y -> z = l.
Proof.
  intros Hd z Hz. apply (dedupe_In Z.eqb Zeqb_spec') in Hz. rewrite Hd in Hz.
  destruct Hz as [<- | []]. reflexivity.
Qed.

Lemma occurrences_all (y : list Z) (l : Z) :
  (forall z, In z y -> z = l) -> occurrences l y = length y.
Proof.
  unfold occurrences. induction y as [| a y IH]; intros H; [reflexivity |].
  cbn [count_occ length]. rewrite (H a (or_introl eq_refl)).
  destruct (Z.eq_dec l l); [| contradiction]. f_equal. apply IH. intros z Hz. apply H. now right.
Qed.

Lemma occurrences_le_length (y : list Z) (q : Z) : occurrences q y <= length y.
Proof. apply count_occ_bound. Qed.

(** X7. A non-empty training set of plain labels is not split when it has
    fewer rows than [minSamplesSplit], when [maxDepth] is not positive, or
    when no feature tells two rows apart: the tree is then a single leaf,
    and its prediction is a training label that no label outnumbers. *)
Theorem unsplit_training_set_is_leaf :
  forall (X_train : matrix) (y_train : list Z) (maxDepth minSamplesSplit : Z),
    y_train <> [] ->
    Forall plain_label y_train ->
    (Z.of_nat (length X_train) < minSamplesSplit)%Z \/ (maxDepth <= 0)%Z
    \/ constant_columns X_train ->
    exists p : Z,
      decisionTreeClassifier X_train y_train maxDepth minSamplesSplit
      = Some (Ok (Leaf (VInt p)))
      /\ In p y_train
      /\ forall q : Z, occurrences q y_train <= occurrences p y_train.
Proof.
  intros X y maxDepth mss Hne Hplain Hcase.
  unfold decisionTreeClassifier. cbn [buildTree]. rewrite dedupe_map_VInt.
  destruct (dedupe Z.eqb y) as [| l [| l2 rest]] eqn:Hd.
  - now apply dedupe_nonempty in Hd.
  - pose proof (dedupe_singleton y l Hd) as Hall.
    exists l. split; [reflexivity |]. split.
    + apply (dedupe_In Z.eqb Zeqb_spec'). rewrite Hd. now left.
    + intros q. rewrite (occurrences_all y l Hall). apply occurrences_le_length.
  - destruct (majority_plain y Hne Hplain) as [p [before [after [He [Hb [Ha Hm]]]]]].
    exists p.
    assert (Hp : In p y).
    { apply label_enumeration_In. rewrite He. apply in_elt. }
    assert (Hmax : forall q, occurrences q y <= occurrences p y).
    { intros q. destruct (in_dec Z.eq_dec q y) as [Hq | Hq].
      - apply label_enumeration_In in Hq. rewrite He in Hq.
        apply in_app_or in Hq. destruct Hq as [Hq | [<- | Hq]].
        + now apply Hb.
        + lia.
        + apply Nat.lt_le_incl. now apply Ha.
      - unfold occurrences. rewrite (proj1 (count_occ_not_In Z.eq_dec y q) Hq). lia. }
    split; [| split; assumption].
    cbn [map]. unfold majority_leaf. rewrite Hm. cbn [bind].
    destruct ((maxDepth <=? 0)%Z || (Z.of_nat (length X) <? mss)%Z) eqn:Hc; [reflexivity |].
    apply orb_false_iff in Hc. destruct Hc as [Hc1 Hc2].
    apply Z.leb_gt in Hc1. apply Z.ltb_ge in Hc2.
    destruct Hcase as [H | [H | H]]; [lia | lia |].
    rewrite (find_best_split_constant X _ H).
    change (0 =? 0)%float with true. reflexivity.
Qed.

Lemma unsplit_training_set_witness :
  exists p : Z,
    decisionTreeClassifier [[1; 2]; [1; 2]; [1; 2]]%float [1; 0; 1]%Z 5 2
    = Some (Ok (Leaf (VInt p)))
    /\ In p [1; 0; 1]%Z
    /\ forall q : Z, occurrences q [1; 0; 1]%Z <= occurrences p [1; 0; 1]%Z.
Proof.
  apply (unsplit_training_set_is_leaf [[1; 2]; [1; 2]; [1; 2]]%float [1; 0; 1]%Z 5 2).
  - discriminate.
  - repeat constructor; unfold plain_label; cbn; lia.
  - right. right. intros row j [<- | [<- | [<- | []]]] _; reflexivity.
Defined.

(** ** Gini impurity *)

Lemma count_step_same (key : string) (c : nat) (v : value) :
  toKey v = key -> count_step [(key, c)] v = [(key, c + 1)].
Proof.
  intros <-. unfold count_step. cbn [lookup store]. now rewrite String.eqb_refl.
Qed.

Lemma count_labels_repeat (v : value) (k c : nat) :
  fold_left count_step (repeat v k) [(toKey v, c)] = [(toKey v, c + k)].
Proof.
  revert c. induction k as [| k IH]; intros c; cbn [repeat fold_left].
  - now rewrite Nat.add_0_r.
  - rewrite (count_step_same (toKey v) c v eq_refl), IH. do 2 f_equal. lia.
Qed.

Lemma all_equal_repeat {A} (v : A) (y : list A) :
  (forall l, In l y -> l = v) -> y = repeat v (length y).
Proof.
  induction y as [| a y IH]; intros H; [reflexivity |].
  cbn [length repeat]. rewrite (H a (or_introl eq_refl)). f_equal.
  apply IH. intros l Hl. apply H. now right.
Qed.

Lemma count_labels_pure (v : value) (y : list value) :
  y <> [] -> (forall l, In l y -> l = v) -> count_labels y = [(toKey v, length y)].
Proof.
  intros Hne Hall. rewrite (all_equal_repeat v y Hall) at 1.
  destruct y as [| a y]; [contradiction |]. cbn [length repeat].
  unfold count_labels. cbn [fold_left]. unfold count_step at 2. cbn [lookup store Nat.add].
  now rewrite count_labels_repeat.
Qed.

Lemma Object_entries_singleton (e : string * nat) : Object_entries [e] = [e].
Proof. unfold Object_entries. cbn [filter]. destruct (is_index e); reflexivity. Qed.

(** X8. The impurity of a set of labels that are all the same is exactly 0,
    as is that of the empty set. *)
Theorem giniImpurity_pure :
  forall (v : value) (y : list value),
    (forall l, In l y -> l = v) ->
    array_length (length y) ->
    giniImpurity y = 0%float.
Proof.
  intros v y Hall Hlen. destruct y as [| a y'] eqn:Hy; [reflexivity |].
  rewrite <- Hy in *. assert (Hne : y <> []) by (rewrite Hy; discriminate).
  unfold giniImpurity. rewrite (count_labels_pure v y Hne Hall), Object_entries_singleton.
  rewrite Hy at 1. cbn [fold_left snd].
  rewrite of_nat_self; [reflexivity |].
  unfold array_length in Hlen. assert ((2 ^ 32 < 2 ^ 53)%Z) by reflexivity.
  rewrite Hy in *. cbn [length] in *. lia.
Qed.

Lemma giniImpurity_pure_witness :
  giniImpurity [VInt 1; VInt 1; VInt 1] = 0%float.
Proof.
  apply (giniImpurity_pure (VInt 1) [VInt 1; VInt 1; VInt 1]).
  - intros l [<- | [<- | [<- | []]]]; reflexivity.
  - unfold array_length. cbn. lia.
Defined.

(** ** The index drawn by the shuffle *)

#[local] Open Scope Z_scope.

Lemma fmt_rnd (f : Z) : 0 < f -> fmt f -> rnd f = f.
Proof.
  intros Hf [m [j [Hm [Hj ->]]]].
  pose proof (pow2_pos j Hj).
  assert (0 < m) by nia.
  apply rnd_exact; [assumption | apply bits_lt_pow2; lia | assumption].
Qed.

(** A product of [m < 2^53] by a multiple [k / 2^53] of [2^-53] below one is
    rounded to a number below [m]. *)
Lemma rnd_below (k m : Z) :
  0 < m < 2 ^ 53 -> 0 < k < 2 ^ 53 -> rnd (k * m * 2 ^ (K - 53)) < m * 2 ^ K.
Proof.
  intros Hm Hk.
  pose proof (bits_spec m ltac:(lia)) as [Hlo Hhi].
  pose proof (bits_pos m ltac:(lia)) as Hb1.
  assert (Hb53 : bits m <= 53) by (apply bits_lt_pow2; lia).
  set (b := bits m) in *.
  set (c := 2 ^ (K - 53)).
  assert (Hc : 0 < c) by (apply pow2_pos; unfold K; lia).
  assert (HK : 2 ^ K = 2 ^ 53 * c).
  { unfold c. rewrite <- Z.pow_add_r by (unfold K; lia). f_equal. }
  set (pb1 := 2 ^ (b - 1)) in *.
  assert (Hpb1 : 0 < pb1) by (apply pow2_pos; lia).
  assert (Hpb : 2 ^ b = 2 * pb1).
  { unfold pb1. replace b with (1 + (b - 1)) at 1 by lia.
    rewrite Z.pow_add_r by lia. reflexivity. }
  set (q53 := 2 ^ (53 - b)).
  assert (Hq53 : 0 < q53) by (apply pow2_pos; lia).
  assert (HT : 2 * pb1 * q53 = 2 ^ 53).
  { rewrite <- Hpb. unfold q53. rewrite <- Z.pow_add_r by lia. f_equal. lia. }
  change (2 ^ 53) with 9007199254740992 in *.
  rewrite HK.
  assert (HP : 0 < k * m * c) by (apply Z.mul_pos_pos; [apply Z.mul_pos_pos |]; lia).
  destruct (Z.eq_dec m pb1) as [Epow | Hnpow].
  - (* [m] is a power of two: the product is exact *)
    assert (Hexact : k * m * c = k * 2 ^ (b - 1 + (K - 53))).
    { rewrite Z.pow_add_r by (unfold K; lia). fold pb1 c. rewrite Epow. ring. }
    rewrite Hexact, rnd_exact; [| lia | apply bits_lt_pow2; lia | unfold K; lia].
    rewrite <- Hexact. nia.
  - assert (Hm1 : pb1 < m) by lia.
    set (u := 2 * pb1 * c).
    assert (Hu : 0 < u) by (unfold u; nia).
    assert (HM : m * (9007199254740992 * c) = (m * q53) * u).
    { unfold u. rewrite <- HT. ring. }
    assert (Hq : 4503599627370496 <= m * q53 < 9007199254740992) by nia.
    assert (Hfmt : fmt ((m * q53 - 1) * u)).
    { exists (m * q53 - 1), (b + (K - 53)).
      split; [lia | split; [unfold K; lia |]].
      unfold u. rewrite Z.pow_add_r by (unfold K; lia). rewrite Hpb. fold c. ring. }
    assert (HfM : fmt (m * (9007199254740992 * c))).
    { exists m, K. split; [lia | split; [unfold K; lia |]]. now rewrite HK. }
    assert (Hf0 : 0 < (m * q53 - 1) * u) by nia.
    assert (HPM : k * m * c <= m * (9007199254740992 * c)) by nia.
    pose proof (rnd_monotone _ _ HP HPM) as Hmono.
    assert (HM0 : 0 < m * (9007199254740992 * c)) by (apply Z.mul_pos_pos; lia).
    rewrite (fmt_rnd _ HM0 HfM) in Hmono.
    destruct (Z_le_gt_dec (k * m * c) ((m * q53 - 1) * u)) as [Hle | Hgt].
    + pose proof (rnd_monotone _ _ HP Hle) as Hmono'.
      rewrite (fmt_rnd _ Hf0 Hfmt) in Hmono'. nia.
    + pose proof (rnd_nearest (k * m * c) _ HP Hfmt) as Hnear.
      destruct (Z.eq_dec (rnd (k * m * c)) (m * (9007199254740992 * c))) as [E | E]; [| lia].
      exfalso. rewrite E in Hnear.
      assert (Hgap : m * c <= m * (9007199254740992 * c) - k * m * c).
      { replace (m * (9007199254740992 * c) - k * m * c)
          with ((9007199254740992 - k) * (m * c)) by ring.
        assert (0 < m * c) by nia. nia. }
      assert (Hmc : pb1 * c < m * c) by nia.
      rewrite HM in Hnear, Hgap. unfold u in *. lia.
Qed.

(** Dividing an integer below 2^53 by 2^53 is exact. *)
Lemma SFdiv_pow53 (m1 : positive) (e1 k : Z) :
  valid_binary (S754_finite false m1 e1) = true ->
  0 < k -> Z.pos m1 * 2 ^ (e1 + K) = k * 2 ^ K ->
  exists m e,
    SFdiv prec emax (S754_finite false m1 e1) (S754_finite false 4503599627370496 1)
    = S754_finite false m e
    /\ Z.pos m * 2 ^ (e + K) = k * 2 ^ (K - 53).
Proof.
  intros V Hk Hv.
  pose proof (pow2_pos K ltac:(unfold K; lia)) as HpK.
  destruct (valid_normal m1 e1 (-52) V ltac:(lia)) as [Hb He].
  { replace (-52 + 52 + K) with K by lia. nia. }
  cbn [SFdiv xorb]. unfold SFdiv_core_binary.
  rewrite (Zdigits2_log2 (Z.pos m1)) by lia. fold (bits (Z.pos m1)). rewrite Hb.
  change (Zdigits2 4503599627370496) with 53. rewrite fexp_eq.
  replace (Z.min (Z.max (53 + e1 - (53 + 1) - 53) (-1074)) (e1 - 1)) with (e1 - 54) by lia.
  replace (e1 - 1 - (e1 - 54)) with 53 by lia.
  rewrite Z.shiftl_mul_pow2 by lia.
  replace (Z.pos m1 * 2 ^ 53) with (Z.pos m1~0 * 4503599627370496)
    by (change (2 ^ 53) with (2 * 4503599627370496); lia).
  rewrite div_eucl_exact by lia.
  change (new_location 4503599627370496 0) with loc_Exact.
  assert (Hb2 : bits (Z.pos m1~0) = 54).
  { change (Z.pos m1~0) with (2 * Z.pos m1). rewrite Z.mul_comm.
    change 2 with (2 ^ 1) at 1. rewrite bits_mul_pow2 by lia. lia. }
  destruct (binary_round_aux_exact false (m1~0) (e1 - 54) ltac:(lia) ltac:(lia)) as [Hfin _].
  assert (Hval : Z.pos m1~0 * 2 ^ (e1 - 54 + K) = Z.pos m1 * 2 ^ (e1 - 53 + K)).
  { replace (e1 - 53 + K) with (1 + (e1 - 54 + K)) by lia.
    rewrite (Z.pow_add_r 2 1 (e1 - 54 + K)) by (unfold K; lia).
    change (Z.pos m1~0) with (2 * Z.pos m1).
    change (2 ^ 1) with 2. ring. }
  rewrite Hval in Hfin.
  rewrite rnd_exact in Hfin by (unfold K; lia).
  assert (Hscale : Z.pos m1 * 2 ^ (e1 - 53 + K) = k * 2 ^ (K - 53)).
  { assert (H1 : 2 ^ (e1 + K) = 2 ^ (e1 - 53 + K) * 2 ^ 53).
    { rewrite <- Z.pow_add_r by (unfold K; lia). f_equal. lia. }
    assert (H2 : 2 ^ K = 2 ^ (K - 53) * 2 ^ 53).
    { rewrite <- Z.pow_add_r by (unfold K; lia). f_equal. }
    rewrite H1, H2, !Z.mul_assoc in Hv.
    apply Z.mul_reg_r in Hv; [exact Hv | cbn; lia]. }
  pose proof (valid_finite _ _ _ V) as [Hrange _].
  pose proof (bits_spec (Z.pos m1) ltac:(lia)) as [_ Hm53]. rewrite Hb in Hm53.
  destruct Hfin as [m [e [Heq Hme]]].
  - apply (pow_bound_lt (Z.pos m1) 53 (e1 - 53 + K) 2045); unfold K; lia.
  - exists m, e. split; [assumption | lia].
Qed.

Lemma floor_lt (p : float) (m : positive) (e n : Z) :
  Prim2SF p = S754_finite false m e ->
  Z.pos m * 2 ^ (e + K) < n * 2 ^ K ->
  exists b, Math_floor p = IInt b /\ 0 <= b < n.
Proof.
  intros Hp Hlt. rewrite (floor_units p m e Hp). eexists. split; [reflexivity |].
  pose proof (Prim2SF_valid p) as V. rewrite Hp in V.
  pose proof (valid_finite _ _ _ V) as [He _].
  pose proof (pow2_pos K ltac:(unfold K; lia)) as HpK.
  pose proof (pow2_pos (e + K) ltac:(unfold K; lia)) as Hpe.
  split.
  - apply Z.div_pos; [apply Z.mul_nonneg_nonneg; lia | lia].
  - apply Z.div_lt_upper_bound; [lia |]. rewrite (Z.mul_comm (2 ^ K) n). exact Hlt.
Qed.

(** [Math.random()] is zero or a positive multiple of 2^-53 below one. *)
Lemma Math_random_units (w : World) :
  Prim2SF (fst (Math_random w)) = S754_zero false
  \/ exists (k : Z) (m : positive) (e : Z),
      0 < k < 2 ^ 53
      /\ Prim2SF (fst (Math_random w)) = S754_finite false m e
      /\ Z.pos m * 2 ^ (e + K) = k * 2 ^ (K - 53).
Proof.
  unfold Math_random. cbn [fst].
  set (k := tape w (cursor w) mod 9007199254740992).
  assert (Hk : 0 <= k < 9007199254740992) by (apply Z.mod_pos_bound; lia).
  replace (of_uint63 (Uint63.of_Z k)) with (of_nat (Z.to_nat k))
    by (unfold of_nat; rewrite Z2Nat.id by lia; reflexivity).
  rewrite div_spec. change SF64div with (SFdiv prec emax).
  change (Prim2SF 9007199254740992) with (S754_finite false 4503599627370496 1).
  pose proof (Prim2SF_valid (of_nat (Z.to_nat k))) as V.
  destruct (of_nat_spec (Z.to_nat k)) as [[_ Hz] | [Hpos [m1 [e1 [Hx Hv]]]]].
  - rewrite Z2Nat.id by lia. change (2 ^ 53) with 9007199254740992. lia.
  - left. rewrite Hz. reflexivity.
  - right. rewrite Z2Nat.id in Hv, Hpos by lia. rewrite Hx in V |- *.
    destruct (SFdiv_pow53 m1 e1 k V Hpos Hv) as [m [e [Heq Hme]]].
    exists k, m, e. change (2 ^ 53) with 9007199254740992. repeat split; try lia; assumption.
Qed.

(** The product of a draw and of [n] is rounded to a number below [n]. *)
Lemma SFmul_random (mr mx : positive) (er ex k n : Z) :
  valid_binary (S754_finite false mr er) = true ->
  valid_binary (S754_finite false mx ex) = true ->
  0 < k < 2 ^ 53 -> 0 < n < 2 ^ 53 ->
  Z.pos mr * 2 ^ (er + K) = k * 2 ^ (K - 53) ->
  Z.pos mx * 2 ^ (ex + K) = n * 2 ^ K ->
  exists m e,
    SFmul prec emax (S754_finite false mr er) (S754_finite false mx ex)
    = S754_finite false m e
    /\ Z.pos m * 2 ^ (e + K) < n * 2 ^ K.
Proof.
  intros Vr Vx Hk Hn Hr Hx.
  pose proof (pow2_pos K ltac:(unfold K; lia)) as HpK.
  pose proof (pow2_pos (K - 53) ltac:(unfold K; lia)) as Hpc.
  destruct (valid_normal mr er (-105) Vr ltac:(lia)) as [Hbr Her].
  { replace (-105 + 52 + K) with (K - 53) by lia. nia. }
  destruct (valid_normal mx ex (-52) Vx ltac:(lia)) as [Hbx Hex].
  { replace (-52 + 52 + K) with K by lia. nia. }
  pose proof (valid_finite _ _ _ Vr) as [Hrr _].
  pose proof (valid_finite _ _ _ Vx) as [Hrx _].
  cbn [SFmul xorb].
  pose proof (bits_mul_ge (Z.pos mr) (Z.pos mx) ltac:(lia) ltac:(lia)) as Hbm.
  rewrite <- Pos2Z.inj_mul in Hbm.
  destruct (binary_round_aux_exact false (mr * mx) (er + ex) ltac:(lia) ltac:(lia))
    as [Hfin _].
  pose proof (pow2_pos (er + K) ltac:(unfold K; lia)) as Hpr.
  pose proof (pow2_pos (ex + K) ltac:(unfold K; lia)) as Hpx.
  pose proof (pow2_pos (er + ex + K) ltac:(unfold K; lia)) as Hprx.
  assert (Hprod : Z.pos (mr * mx) * 2 ^ (er + ex + K) = k * n * 2 ^ (K - 53)).
  { rewrite Pos2Z.inj_mul.
    assert (Hpow : 2 ^ (er + ex + K) * 2 ^ K = 2 ^ (er + K) * 2 ^ (ex + K)).
    { rewrite <- !Z.pow_add_r by (unfold K; lia). f_equal. lia. }
    assert (Heq : Z.pos mr * Z.pos mx * 2 ^ (er + ex + K) * 2 ^ K
                  = k * n * 2 ^ (K - 53) * 2 ^ K).
    { rewrite <- !Z.mul_assoc, Hpow.
      replace (Z.pos mr * (Z.pos mx * (2 ^ (er + K) * 2 ^ (ex + K))))
        with ((Z.pos mr * 2 ^ (er + K)) * (Z.pos mx * 2 ^ (ex + K))) by ring.
      rewrite Hr, Hx. ring. }
    apply (Z.mul_reg_r _ _ (2 ^ K)); [lia | exact Heq]. }
  rewrite Hprod in Hfin.
  pose proof (rnd_below k n Hn Hk) as Hbelow.
  assert (n * 2 ^ K < 2 ^ 2098).
  { apply (pow_bound_lt n 53 K 2045); unfold K; lia. }
  destruct (Hfin ltac:(lia)) as [m [e [Heq Hv]]].
  exists m, e. split; [assumption | lia].
Qed.

(** The index that one turn of the shuffle draws lies in [0, i]. *)
Lemma random_index (w : World) (i : nat) :
  Z.of_nat (i + 1) < 2 ^ 32 ->
  exists j : nat,
    index_key (Math_floor (fst (Math_random w) * of_nat (i + 1))) = Some j /\ (j <= i)%nat.
Proof.
  intros Hi. assert (H3253 : 2 ^ 32 < 2 ^ 53) by reflexivity.
  assert (Hkey : forall b, 0 <= b < Z.of_nat (i + 1) ->
                           exists j : nat, index_key (IInt b) = Some j /\ (j <= i)%nat).
  { intros b Hb. exists (Z.to_nat b). cbn [index_key].
    change (2 ^ 32) with 4294967296 in Hi.
    destruct (Z.leb_spec 0 b); [| lia]. destruct (Z.ltb_spec b 4294967295); [| lia].
    split; [reflexivity | lia]. }
  pose proof (mul_spec (fst (Math_random w)) (of_nat (i + 1))) as Hmul.
  change SF64mul with (SFmul prec emax) in Hmul.
  pose proof (Prim2SF_valid (fst (Math_random w))) as Vr.
  pose proof (Prim2SF_valid (of_nat (i + 1))) as Vn.
  destruct (of_nat_spec (i + 1) ltac:(lia)) as [[Hz _] | [Hpos [mx [ex [Hx Hxv]]]]]; [lia |].
  rewrite Hx in Hmul, Vn.
  destruct (Math_random_units w) as [Hr | [k [mr [er [Hk [Hr Hrv]]]]]]; rewrite Hr in Hmul, Vr.
  - rewrite (floor_zero _ false Hmul). apply Hkey. lia.
  - destruct (SFmul_random mr mx er ex k (Z.of_nat (i + 1)) Vr Vn Hk ltac:(lia) Hrv Hxv)
      as [m [e [Heq Hlt]]].
    destruct (floor_lt (fst (Math_random w) * of_nat (i + 1)) m e (Z.of_nat (i + 1)))
      as [b [Hb Hrange]];
      [rewrite Hmul; exact Heq | exact Hlt |].
    rewrite Hb. now apply Hkey.
Qed.

#[local] Close Scope Z_scope.

(** ** Train/test split with shuffling *)

Lemma array_put_length {A} (xs : list (option A)) (i : nat) (v : option A) :
  i < length xs -> length (array_put xs i v) = length xs.
Proof.
  revert i. induction xs as [| x xs IH]; intros i Hi; [cbn in Hi; lia |].
  destruct i as [| i]; cbn [array_put length]; [reflexivity |].
  rewrite IH by (cbn in Hi; lia). reflexivity.
Qed.

Lemma array_put_nth_error {A} (xs : list (option A)) (i p : nat) (v : option A) :
  i < length xs ->
  nth_error (array_put xs i v) p = if p =? i then Some v else nth_error xs p.
Proof.
  revert i p. induction xs as [| x xs IH]; intros i p Hi; [cbn in Hi; lia |].
  destruct i as [| i], p as [| p]; cbn [array_put nth_error Nat.eqb]; try reflexivity.
  apply IH. cbn in Hi. lia.
Qed.

Lemma array_get_nth_error {A} (xs : list (option A)) (i : nat) :
  i < length xs -> nth_error xs i = Some (array_get xs (Some i)).
Proof.
  intros Hi. cbn [array_get]. destruct (nth_error xs i) eqn:E; [reflexivity |].
  apply nth_error_None in E. lia.
Qed.

(** Exchanging two elements permutes the array. *)
Lemma exchange_permutation {A} (xs : list (option A)) (i j : nat) :
  i < length xs -> j < length xs ->
  Permutation xs (array_set (array_set xs (Some i) (array_get xs (Some j))) (Some j)
                            (array_get xs (Some i)))
  /\ length (array_set (array_set xs (Some i) (array_get xs (Some j))) (Some j)
                       (array_get xs (Some i))) = length xs.
Proof.
  intros Hi Hj. cbn [array_set].
  assert (Hlen1 : length (array_put xs i (array_get xs (Some j))) = length xs)
    by now apply array_put_length.
  assert (Hlen2 : length (array_put (array_put xs i (array_get xs (Some j))) j
                            (array_get xs (Some i))) = length xs)
    by (rewrite array_put_length; [assumption | now rewrite Hlen1]).
  split; [| exact Hlen2].
  apply Permutation_nth_error. split; [now rewrite Hlen2 |].
  exists (fun p => if p =? j then i else if p =? i then j else p). split.
  - intros p q Hpq.
    destruct (Nat.eqb_spec p j), (Nat.eqb_spec q j), (Nat.eqb_spec p i), (Nat.eqb_spec q i);
      congruence.
  - intros p. rewrite array_put_nth_error by (now rewrite Hlen1).
    rewrite array_put_nth_error by assumption.
    destruct (Nat.eqb_spec p j) as [-> | Hpj].
    + symmetry. now apply array_get_nth_error.
    + destruct (Nat.eqb_spec p i) as [-> | Hpi]; [| reflexivity].
      symmetry. now apply array_get_nth_error.
Qed.

(** The loop permutes the indices and draws one number for each turn. *)
Lemma shuffle_loop_permutation (i : nat) :
  forall (indices : list (option nat)) (w : World),
    i < length indices -> array_length (length indices) ->
    Permutation indices (fst (shuffle_loop i indices w))
    /\ cursor (snd (shuffle_loop i indices w)) = cursor w + i
    /\ tape (snd (shuffle_loop i indices w)) = tape w.
Proof.
  induction i as [| i IH]; intros indices w Hi Hlen.
  - cbn. split; [reflexivity | split; [lia | reflexivity]].
  - cbn [shuffle_loop]. unfold seqJS.
    destruct (Math_random w) as [r w'] eqn:Hr.
    assert (Hw' : w' = snd (Math_random w)) by now rewrite Hr.
    assert (Hrf : r = fst (Math_random w)) by now rewrite Hr.
    destruct (random_index w (S i)) as [j [Hj Hji]].
    { unfold array_length in Hlen. lia. }
    rewrite <- Hrf in Hj. rewrite Hj.
    destruct (exchange_permutation indices (S i) j Hi ltac:(lia)) as [Hperm Hlen'].
    destruct (IH _ w' ltac:(rewrite Hlen'; lia) ltac:(now rewrite Hlen'))
      as [Hperm' [Hcur Htape]].
    split; [etransitivity; eassumption |].
    rewrite Hcur, Htape, Hw'. unfold Math_random. cbn [snd cursor tape]. split; [lia | reflexivity].
Qed.

Lemma array_get_row {A} (xs : list A) (i : nat) :
  array_get (map Some xs) (Some i) = nth_error xs i.
Proof. cbn [array_get]. rewrite nth_error_map. destruct (nth_error xs i); reflexivity. Qed.

(** X9. With shuffling, the split is a partition as well: for some
    permutation [p] of the row numbers, the train part consists of the rows
    [p[0], ..., p[k - 1]] and the test part of the remaining ones, with the
    labels of the same positions, where [k] is the row at which the
    unshuffled split cuts.  No row is lost or repeated, the two parts have
    [k] and [n - k] rows, and one pseudo random number is drawn for each row
    but one.  The array has fewer than 2^32 rows, as every array has. *)
Theorem trainTestSplit_shuffled_permutation :
  forall (X : matrix) (y : list Z) (f : number) (w : World),
    array_length (length X) ->
    exists p : list nat,
      Permutation (seq 0 (length X)) p
      /\ fst (trainTestSplit X y f true w)
         = {| X_train := map (nth_error X) (firstn (split_point (length X) f) p);
              X_test := map (nth_error X) (skipn (split_point (length X) f) p);
              y_train := map (nth_error y) (firstn (split_point (length X) f) p);
              y_test := map (nth_error y) (skipn (split_point (length X) f) p) |}
      /\ length (X_train (fst (trainTestSplit X y f true w))) = split_point (length X) f
      /\ length (X_test (fst (trainTestSplit X y f true w)))
         = length X - split_point (length X) f
      /\ cursor (snd (trainTestSplit X y f true w)) = cursor w + (length X - 1)
      /\ tape (snd (trainTestSplit X y f true w)) = tape w.
Proof.
  intros X y f w Hlen. unfold trainTestSplit, seqJS.
  set (indices0 := map Some (seq 0 (length X))).
  assert (Hlen0 : length indices0 = length X)
    by (unfold indices0; now rewrite length_map, length_seq).
  assert (Hloop : Permutation indices0 (fst (shuffle_loop (length indices0 - 1) indices0 w))
                  /\ cursor (snd (shuffle_loop (length indices0 - 1) indices0 w))
                     = cursor w + (length indices0 - 1)
                  /\ tape (snd (shuffle_loop (length indices0 - 1) indices0 w)) = tape w).
  { destruct X as [| row0 X'].
    - cbn. split; [reflexivity | split; [lia | reflexivity]].
    - apply shuffle_loop_permutation; rewrite Hlen0; [cbn; lia | assumption]. }
  destruct (shuffle_loop (length indices0 - 1) indices0 w) as [indices w'].
  cbn [fst snd] in Hloop. destruct Hloop as [Hperm [Hcur Htape]].
  pose proof (Permutation_length Hperm) as Hleni.
  symmetry in Hperm. unfold indices0 in Hperm.
  apply Permutation_map_inv in Hperm. destruct Hperm as [p [Hp Hpp]].
  exists p. split; [exact Hpp |]. unfold ret. cbn [fst snd].
  rewrite Hcur, Htape, Hlen0.
  rewrite slice_prefix, slice_suffix, <- Hleni, Hlen0. fold (split_point (length X) f).
  rewrite Hp, !firstn_map, !skipn_map, !map_map.
  assert (Hlp : length p = length X).
  { rewrite <- (Permutation_length Hpp). apply length_seq. }
  pose proof (relative_index_le (length X)
                (Math_floor (of_nat (length X) * (1 - f))%float)) as Hk.
  fold (split_point (length X) f) in Hk.
  repeat split.
  - f_equal; apply map_ext; intros i; apply array_get_row.
  - cbn [X_train]. rewrite length_map, length_firstn. lia.
  - cbn [X_test]. rewrite length_map, length_skipn. lia.
Qed.

Lemma trainTestSplit_shuffled_witness :
  exists p : list nat,
    Permutation (seq 0 3) p
    /\ fst (trainTestSplit [[1]; [2]; [3]]%float [1; 0; 1]%Z 0.25%float true
              {| tape := fun n => Z.of_nat n; cursor := 0 |})
       = {| X_train := map (nth_error [[1]; [2]; [3]]%float) (firstn 2 p);
            X_test := map (nth_error [[1]; [2]; [3]]%float) (skipn 2 p);
            y_train := map (nth_error [1; 0; 1]%Z) (firstn 2 p);
            y_test := map (nth_error [1; 0; 1]%Z) (skipn 2 p) |}.
Proof.
  destruct (trainTestSplit_shuffled_permutation [[1]; [2]; [3]]%float [1; 0; 1]%Z 0.25%float
              {| tape := fun n => Z.of_nat n; cursor := 0 |})
    as [p [Hp [Hsplit _]]].
  - unfold array_length. cbn. lia.
  - exists p. split; [exact Hp | exact Hsplit].
Defined.

(** ** Logistic regression: the shape of the model and of its predictions *)

Lemma iteration_weights_length (Math_exp : number -> number) (X_train : matrix)
    (y_train : list Z) (learningRate : number) (numFeatures : nat) (m : LogisticModel) :
  length (weights (iteration Math_exp X_train y_train learningRate numFeatures m))
  = length (weights m).
Proof.
  unfold iteration.
  destruct (fold_left _ _ _) as [dw db]. cbn [weights].
  unfold mapi. apply mapi_from_length.
Qed.

(** X10 (logisticRegression, predictLogistic).  Whatever the learning rate
    and the number of iterations, the trained model has exactly one weight
    per feature of the first training row; without an iteration it is the
    zero model; and the model predicts one label per row, each 0 or 1. *)
Theorem logistic_model_shape :
  forall (Math_exp : number -> number) (X_train : matrix) (y_train : list Z)
         (learningRate : number) (iterations : Z) (X : matrix),
    let model := logisticRegression Math_exp X_train y_train learningRate iterations in
    length (weights model) = length (hd [] X_train)
    /\ ((iterations <= 0)%Z ->
        model = {| weights := repeat 0%float (length (hd [] X_train)); bias := 0%float |})
    /\ length (predictLogistic Math_exp X (weights model) (bias model)) = length X
    /\ Forall (fun label => label = 0%Z \/ label = 1%Z)
              (predictLogistic Math_exp X (weights model) (bias model)).
Proof.
  intros exp X_train y_train lr it X model.
  assert (Hfeatures : match X_train with [] => O | row0 :: _ => length row0 end
                      = length (hd [] X_train)) by (destruct X_train; reflexivity).
  split; [| split; [| split]].
  - unfold model, logisticRegression. rewrite Hfeatures.
    induction (Z.to_nat it) as [| n IH].
    + cbn. apply repeat_length.
    + cbn [Nat.iter nat_rect]. rewrite iteration_weights_length. exact IH.
  - intros Hit. unfold model, logisticRegression. rewrite Hfeatures.
    replace (Z.to_nat it) with O by lia. reflexivity.
  - unfold predictLogistic. apply length_map.
  - unfold predictLogistic. apply Forall_forall. intros label Hin.
    apply in_map_iff in Hin. destruct Hin as [x [<- _]].
    destruct (0.5 <=? _)%float; [right | left]; reflexivity.
Qed.

(** ** The pipeline builder: the target is never a feature *)

Lemma NoDup_map_filter {A B} (f : A -> B) (p : A -> bool) (xs : list A) :
  NoDup (map f xs) -> NoDup (map f (filter p xs)).
Proof.
  induction xs as [| x xs IH]; cbn; intros H; [constructor |].
  inversion H as [| ? ? Hin Hnd]; subst.
  destruct (p x); cbn; [| now apply IH].
  constructor; [| now apply IH].
  intros Hx. apply Hin. apply in_map_iff in Hx. destruct Hx as [c [Hc Hf]].
  apply in_map_iff. exists c. split; [exact Hc |]. apply filter_In in Hf. apply Hf.
Qed.

Lemma NoDup_filter_names (p : string -> bool) (xs : list string) :
  NoDup xs -> NoDup (filter p xs).
Proof.
  intros H. rewrite <- (map_id (filter p xs)). apply NoDup_map_filter.
  now rewrite map_id.
Qed.

Lemma slice_drop_last {A} (xs : list A) :
  slice xs (IInt 0) (Some (IInt (-1))) = firstn (length xs - 1) xs.
Proof.
  unfold slice, relative_index. cbn [Z.ltb Z.compare].
  change (Nat.min (Z.to_nat 0) (length xs)) with 0. cbn [skipn].
  f_equal. lia.
Qed.

Lemma last_not_in_front {A B} (f : A -> B) (xs : list A) (c : A) :
  NoDup (map f xs) -> nth_error xs (length xs - 1) = Some c ->
  ~ In (f c) (map f (firstn (length xs - 1) xs)).
Proof.
  intros Hnd Hc Hin.
  pose proof (firstn_skipn (length xs - 1) xs) as Hsplit.
  destruct (skipn (length xs - 1) xs) as [| c' rest] eqn:Hskip.
  - apply nth_error_split in Hc. destruct Hc as [l1 [l2 [Hxs Hl1]]].
    rewrite Hxs in Hskip at 2. rewrite <- Hl1 in Hskip.
    rewrite skipn_app, skipn_all, Nat.sub_diag in Hskip. discriminate.
  - assert (c' = c).
    { apply nth_error_split in Hc. destruct Hc as [l1 [l2 [Hxs Hl1]]].
      rewrite Hxs in Hskip at 2. rewrite <- Hl1 in Hskip.
      rewrite skipn_app, skipn_all, Nat.sub_diag in Hskip. cbn in Hskip. congruence. }
    subst c'. rewrite <- Hsplit in Hnd. rewrite map_app in Hnd. cbn [map] in Hnd.
    apply NoDup_remove_2 in Hnd. apply Hnd. apply in_or_app. left. exact Hin.
Qed.

Lemma NoDup_firstn {A} (n : nat) (xs : list A) : NoDup xs -> NoDup (firstn n xs).
Proof.
  intros H. rewrite <- (firstn_skipn n xs) in H. now apply NoDup_app_remove_r in H.
Qed.

Lemma is_target_spec (colName : string) (target : option string) :
  Builder.is_target colName target = true <-> target = Some colName.
Proof.
  destruct target as [t |]; cbn; [| split; discriminate].
  rewrite String.eqb_eq. split; congruence.
Qed.

Lemma update_keeps_selection {unknown} (s : Builder.PipelineState unknown)
    (u : Builder.Update unknown) :
  selection_invariant s ->
  (forall d, u = Builder.DatasetLoaded unknown (Some d) -> Builder.distinct_columns d) ->
  selection_invariant (Builder.update s u).
Proof.
  intros [Hnd [Htarget Hset]] Hd. unfold selection_invariant.
  destruct u as [stage | stage | loaded | method | ratio | column | colName | | model
                 | | r | message |];
    try (cbn; repeat split; assumption).
  - destruct loaded as [d |];
      [| cbn; repeat split; try assumption; intros d; discriminate].
    specialize (Hd d eq_refl).
    assert (Hnames : NoDup (map Builder.name (Builder.numeric_columns d)))
      by (apply NoDup_map_filter; exact Hd).
    cbn [Builder.update Builder.handleDatasetLoaded Builder.config Builder.featureColumns
         Builder.targetColumn Builder.dataset].
    rewrite slice_drop_last. split; [| split].
    + rewrite <- firstn_map. now apply NoDup_firstn.
    + intros t Ht. unfold Builder.last_name in Ht.
      destruct (nth_error (Builder.numeric_columns d)
                  (length (Builder.numeric_columns d) - 1)) as [c |] eqn:Hc;
        [| discriminate].
      destruct (String.eqb (Builder.name c) ""); [discriminate |].
      injection Ht as <-. now apply last_not_in_front.
    + intros d' Hd'. injection Hd' as <-. exact Hd.
  - cbn. split; [now apply NoDup_filter_names | split; [| exact Hset]].
    intros t Ht. injection Ht as <-. intros Hin. apply filter_In in Hin.
    destruct Hin as [_ Hne]. now rewrite String.eqb_refl in Hne.
  - cbn [Builder.update]. unfold Builder.toggleFeatureColumn.
    destruct (Builder.is_target colName (Builder.targetColumn (Builder.config s))) eqn:Ht;
      [repeat split; assumption |].
    destruct (existsb (String.eqb colName) (Builder.featureColumns (Builder.config s)))
      eqn:Hmem; cbn.
    + split; [now apply NoDup_filter_names | split; [| exact Hset]].
      intros t Hst Hin. apply filter_In in Hin. now apply (Htarget t Hst).
    + split; [| split; [| exact Hset]].
      * apply NoDup_app; [exact Hnd | repeat constructor; intros [] |].
        intros x Hx [Hx' | []]. subst x.
        assert (existsb (String.eqb colName) (Builder.featureColumns (Builder.config s))
                = true)
          by (apply existsb_exists; exists colName; split;
              [exact Hx | apply String.eqb_refl]).
        congruence.
      * intros t Hst Hin. apply in_app_or in Hin. destruct Hin as [Hin | [<- | []]].
        -- now apply (Htarget t Hst).
        -- assert (Builder.is_target colName (Builder.targetColumn (Builder.config s)) = true)
             by now apply is_target_spec.
           congruence.
  - cbn [Builder.update]. unfold Builder.selectAllFeatures.
    destruct (Builder.dataset s) as [d |] eqn:Hds;
      [| split; [exact Hnd | split; [exact Htarget | now rewrite Hds]]].
    cbn. rewrite Hds. split; [| split; [| exact Hset]].
    + apply NoDup_map_filter. unfold Builder.numeric_columns.
      apply NoDup_map_filter. now apply Hset.
    + intros t Hst Hin. apply in_map_iff in Hin. destruct Hin as [c [Hc Hin]].
      apply filter_In in Hin. destruct Hin as [_ Hne].
      assert (Builder.is_target (Builder.name c) (Builder.targetColumn (Builder.config s))
              = true) by (apply is_target_spec; congruence).
      rewrite H in Hne. discriminate.
  - cbn. repeat split; try (intros; discriminate). constructor.
Qed.

Lemma updates_keep_selection {unknown} (us : list (Builder.Update unknown))
    (s : Builder.PipelineState unknown) :
  selection_invariant s ->
  (forall d, In (Builder.DatasetLoaded unknown (Some d)) us -> Builder.distinct_columns d) ->
  selection_invariant (fold_left Builder.update us s).
Proof.
  revert s. induction us as [| u us IH]; intros s Hs Hd; [exact Hs |].
  cbn [fold_left]. apply IH.
  - apply update_keeps_selection; [exact Hs |].
    intros d ->. apply Hd. now left.
  - intros d Hin. apply Hd. now right.
Qed.

(** X11 (PipelineBuilder, TrainTestSplit panel).  Whatever the user does, in
    any order -- loading datasets whose column names are distinct, choosing
    a target, toggling features, selecting all of them, changing the other
    settings, training, resetting -- the selected features stay pairwise
    distinct and the target column is never one of them; and whenever
    training is let through, a dataset is loaded, the target has a name and
    the feature list is not empty. *)
Theorem target_is_never_a_feature :
  forall (unknown : Type) (us : list (Builder.Update unknown)),
    (forall d, In (Builder.DatasetLoaded unknown (Some d)) us -> Builder.distinct_columns d) ->
    let s := Builder.after us in
    NoDup (Builder.featureColumns (Builder.config s))
    /\ (forall t, Builder.targetColumn (Builder.config s) = Some t ->
                  ~ In t (Builder.featureColumns (Builder.config s)))
    /\ (Builder.may_train s = true ->
        exists d t, Builder.dataset s = Some d
                    /\ Builder.targetColumn (Builder.config s) = Some t
                    /\ t <> ""%string
                    /\ Builder.featureColumns (Builder.config s) <> []
                    /\ ~ In t (Builder.featureColumns (Builder.config s))).
Proof.
  intros unknown us Hd s.
  assert (Hinv : selection_invariant s).
  { apply updates_keep_selection; [| exact Hd].
    cbn. repeat split; try (intros; discriminate). constructor. }
  destruct Hinv as [Hnd [Htarget _]].
  split; [exact Hnd | split; [exact Htarget |]].
  unfold Builder.may_train. intros Hmay.
  destruct (Builder.dataset s) as [d |]; [| discriminate].
  destruct (Builder.targetColumn (Builder.config s)) as [t |] eqn:Ht; [| discriminate].
  apply andb_true_iff in Hmay. destruct Hmay as [Hname Hfeat].
  exists d, t. repeat split.
  - intros ->. discriminate.
  - intros Hnil. rewrite Hnil in Hfeat. discriminate.
  - now apply Htarget.
Qed.

Lemma target_is_never_a_feature_witness :
  let d := {| Builder.rawData := @nil (list (string * unit));
              Builder.numericData := [];
              Builder.columns :=
                [ {| Builder.name := "age"; Builder.type := Builder.Numeric;
                     Builder.sampleValues := [] |};
                  {| Builder.name := "city"; Builder.type := Builder.Categorical;
                     Builder.sampleValues := [] |};
                  {| Builder.name := "income"; Builder.type := Builder.Numeric;
                     Builder.sampleValues := [] |};
                  {| Builder.name := "churn"; Builder.type := Builder.Numeric;
                     Builder.sampleValues := [] |} ];
              Builder.rows := 0;
              Builder.fileName := "customers.csv" |}%string in
  let s := Builder.after [ Builder.DatasetLoaded unit (Some d);
                           Builder.TargetColumnChange unit "age";
                           Builder.ToggleFeatureColumn unit "age";
                           Builder.SelectAllFeatures unit;
                           Builder.ToggleFeatureColumn unit "churn" ]%string in
  Builder.targetColumn (Builder.config s) = Some "age"%string
  /\ Builder.featureColumns (Builder.config s) = ["income"]%string
  /\ ~ In "age"%string (Builder.featureColumns (Builder.config s)).
Proof.
  intros d s. split; [reflexivity | split; [reflexivity |]].
  apply (target_is_never_a_feature unit
           [ Builder.DatasetLoaded unit (Some d);
             Builder.TargetColumnChange unit "age";
             Builder.ToggleFeatureColumn unit "age";
             Builder.SelectAllFeatures unit;
             Builder.ToggleFeatureColumn unit "churn" ]%string).
  - intros d' [H | [H | [H | [H | [H | []]]]]]; try discriminate.
    injection H as <-. unfold Builder.distinct_columns. cbn.
    repeat constructor; cbn; intuition discriminate.
  - reflexivity.
Defined.
